(** * The state-vector engine of the ProjectQ C++ simulator

    A shallow embedding of [Simulator] from
    [projectq/backends/_sim/include/simulator.hpp]: the qubit map, the
    wavefunction, the deferred-gate buffer, and the operations that allocate,
    measure, collapse, query and overwrite the state.  Machine integers are
    integers of [Z] with their wrap-around written out; the wavefunction is a
    list of complex amplitudes; the qubit map is a finite map; a thrown
    exception is a result that carries the engine as the throw left it. *)

From Stdlib Require Import ZArith Floats.
From stdpp Require Import base option list gmap strings.

Local Open Scope Z_scope.

(** ** Machine integers *)

(** [unsigned] is 32 bits wide and [std::size_t] 64 bits wide. *)
Definition wrap_unsigned (x : Z) : Z := x mod 2 ^ 32.
Definition wrap_size_t (x : Z) : Z := x mod 2 ^ 64.

(** [x << n] on [std::size_t].  The C++ shift is only defined for [n < 64];
    the model wraps, and every statement below that needs the value of a
    shift keeps the count in range. *)
Definition shl_size_t (x n : Z) : Z := wrap_size_t (Z.shiftl x n).

(** ** Scalars and amplitudes *)

(** [types::calc_type] is declared in [types.hpp], which is not among the
    files embedded here; the engine only uses the operations listed below, so
    the scalar type is a parameter.  [Binary64] instantiates it with IEEE
    doubles. *)
Class CalcType := {
  calc_type : Type;
  calc_zero : calc_type;                             (* the literal 0. *)
  calc_one : calc_type;                              (* the literal 1. *)
  default_tol_ : calc_type;                          (* the literal 1.e-12 *)
  calc_add : calc_type → calc_type → calc_type;
  calc_sub : calc_type → calc_type → calc_type;
  calc_mul : calc_type → calc_type → calc_type;
  calc_div : calc_type → calc_type → calc_type;
  calc_sqrt : calc_type → calc_type;
  calc_ltb : calc_type → calc_type → bool;           (* a < b *)
  calc_zero_not_below_zero : calc_ltb calc_zero calc_zero = false;
}.

(** [types::complex_type], i.e. [std::complex<calc_type>]. *)
Record complex_type `{CalcType} := Complex { real : calc_type; imag : calc_type }.

(** [types::StateVector]. *)
Abbreviation StateVector := (list complex_type).

Section Amplitudes.
Context `{CalcType}.

(** The value assigned by [vec_[i] = 0.]. *)
Definition czero : complex_type := Complex _ calc_zero calc_zero.

(** [std::norm(z)], the squared magnitude. *)
Definition norm (z : complex_type) : calc_type :=
  calc_add (calc_mul (real z) (real z)) (calc_mul (imag z) (imag z)).

(** [z *= x] for a real [x]. *)
Definition cscale (z : complex_type) (x : calc_type) : complex_type :=
  Complex _ (calc_mul (real z) x) (calc_mul (imag z) x).

Definition cadd (a b : complex_type) : complex_type :=
  Complex _ (calc_add (real a) (real b)) (calc_add (imag a) (imag b)).

Definition cmul (a b : complex_type) : complex_type :=
  Complex _ (calc_sub (calc_mul (real a) (real b)) (calc_mul (imag a) (imag b)))
            (calc_add (calc_mul (real a) (imag b)) (calc_mul (imag a) (real b))).

(** [v[i]] for an index held in a [std::size_t].  Reading outside the vector
    is undefined in C++; the model reads a zero there. *)
Definition amp (v : StateVector) (i : Z) : complex_type :=
  default czero (v !! Z.to_nat i).

(** The sum of [std::norm] over the first [k] amplitudes, added from the
    left starting at zero: the value of [P] in [measure_qubits] once the
    scan has consumed [k] entries. *)
Definition running_sum (v : StateVector) (k : nat) : calc_type :=
  foldl calc_add calc_zero (norm <$> take k v).

(** [v.size()]. *)
Definition vsize (v : StateVector) : Z := Z.of_nat (length v).

(** [v[i] = a]. *)
Definition vset (v : StateVector) (i : Z) (a : complex_type) : StateVector :=
  <[Z.to_nat i := a]> v.
End Amplitudes.

(** ** The qubit map *)

(** [Simulator::Map], i.e. [std::map<unsigned, unsigned>]: external id to bit
    position. *)
Abbreviation Map := (gmap Z Z).

(** [m.count(id)]. *)
Definition map_count (m : Map) (id : Z) : Z :=
  match m !! id with Some _ => 1 | None => 0 end.

(** [m[id]] read as an rvalue: [std::map::operator[]] inserts a
    value-initialised entry (position 0) when the key is missing, and the
    map stays changed. *)
Definition map_index (m : Map) (id : Z) : Map * Z :=
  match m !! id with
  | Some p => (m, p)
  | None => (<[id := 0]> m, 0)
  end.

(** The position that [m[id]] reads: the mapped one, or 0 for a missing key. *)
Definition position_of (m : Map) (id : Z) : Z := default 0 (m !! id).

(** The map is a bijection between its keys and the positions [0 .. n-1]:
    every value is a position, no two keys share one, every position is
    taken. *)
Definition map_bijection (m : Map) (n : Z) : Prop :=
  (∀ id p, m !! id = Some p → 0 ≤ p < n)
  ∧ (∀ id1 id2 p, m !! id1 = Some p → m !! id2 = Some p → id1 = id2)
  ∧ (∀ p, 0 ≤ p < n → ∃ id, m !! id = Some p).

(** [ids] lists every key of the map exactly once. *)
Definition permutation_of_allocated (m : Map) (ids : list Z) : Prop :=
  NoDup ids ∧ ∀ id, id ∈ ids ↔ is_Some (m !! id).

(** ** Exceptions *)

Inductive exception : Type :=
  | runtime_error (what : string)
  | length_error (what : string).

(** The result of a member function: it returns a value, or it throws; either
    way the engine is left in some state. *)
Inductive outcome (S A : Type) : Type :=
  | Returns (a : A) (s : S)
  | Throws (e : exception) (s : S).
Arguments Returns {S A} a s.
Arguments Throws {S A} e s.

Definition final_state {S A} (o : outcome S A) : S :=
  match o with Returns _ s => s | Throws _ s => s end.

Definition returned {S A} (o : outcome S A) : option A :=
  match o with Returns a _ => Some a | Throws _ _ => None end.

Definition thrown {S A} (o : outcome S A) : option exception :=
  match o with Returns _ _ => None | Throws e _ => Some e end.

(** ** The fusion buffer *)

(** [fusion::Fusion] is declared in [fusion.hpp] and [Simulator::run] is
    defined in a translation unit, neither of which is among the files
    embedded here.  The engine uses the buffer through the operations listed
    below.
    [kernel F M W] stands for what a flush does to the wavefunction: flatten
    the buffer to one dense matrix and apply it through the numeric kernel. *)
Class FusionModel `{CalcType} := {
  Matrix : Type;
  Fusion : Type;
  fusion_new : Fusion;                                         (* Fusion() *)
  fusion_is_empty : Fusion → bool;
  fusion_insert : Matrix → list Z → list Z → Fusion → Fusion;  (* F.insert(m, ids, ctrl) *)
  fusion_num_qubits : Fusion → Z;                              (* F.num_qubits() *)
  kernel : Fusion → Map → StateVector → StateVector;
  fusion_new_is_empty : fusion_is_empty fusion_new = true;
  kernel_length : ∀ F M W, length (kernel F M W) = length W;
}.

(** ** The engine *)

(** The data members of [Simulator] that carry the state.  The random engine
    is replaced by the number it draws, passed to [measure_qubits]; the backend
    selection is inside [kernel]; the two static scratch buffers only recycle
    storage: every cell of a recycled buffer is written before it is read
    (for the shrinking collapse this is [collapse_loop_shrink] below). *)
Record Simulator `{FusionModel} := MkSimulator {
  N_ : Z;                        (* unsigned N_: the number of qubits *)
  vec_ : StateVector;
  map_ : Map;
  fused_gates_ : Fusion;
  fusion_qubits_min_ : Z;
  fusion_qubits_max_ : Z;
}.

Section Engine.
Context `{FusionModel}.

Definition set_vec (s : Simulator) (v : StateVector) : Simulator :=
  MkSimulator _ _ (N_ s) v (map_ s) (fused_gates_ s)
              (fusion_qubits_min_ s) (fusion_qubits_max_ s).

Definition set_map (s : Simulator) (m : Map) : Simulator :=
  MkSimulator _ _ (N_ s) (vec_ s) m (fused_gates_ s)
              (fusion_qubits_min_ s) (fusion_qubits_max_ s).

Definition set_N (s : Simulator) (n : Z) : Simulator :=
  MkSimulator _ _ n (vec_ s) (map_ s) (fused_gates_ s)
              (fusion_qubits_min_ s) (fusion_qubits_max_ s).

Definition set_fused (s : Simulator) (F : Fusion) : Simulator :=
  MkSimulator _ _ (N_ s) (vec_ s) (map_ s) F
              (fusion_qubits_min_ s) (fusion_qubits_max_ s).

(** Modelled from the spec: [Simulator::run], whose body is missing.  "If F
    is non-empty, flatten to a single dense composite, compute the effective
    ctrlmask and target-bit-position list from M, choose the kernel, apply
    it to W, and clear F.  Idempotent when F is empty." *)
Definition run (s : Simulator) : Simulator :=
  if fusion_is_empty (fused_gates_ s) then s
  else set_fused (set_vec s (kernel (fused_gates_ s) (map_ s) (vec_ s))) fusion_new.

(** [allocate_qubit], lines 62-85. *)
Definition allocate_qubit (id : Z) (s : Simulator) : outcome Simulator () :=
  if decide (map_count (map_ s) id = 0) then
    (* map_[id] = N_++ *)
    let m := <[id := N_ s]> (map_ s) in
    let n := wrap_unsigned (N_ s + 1) in
    (* newvec.resize(1UL << N_), then newvec[i] = i < vec_.size() ? vec_[i] : 0. *)
    let newvec :=
      (λ i, if decide (i < vsize (vec_ s)) then amp (vec_ s) i else czero)
        <$> seqZ 0 (shl_size_t 1 n) in
    Returns () (set_vec (set_N (set_map s m) n) newvec)
  else
    Throws (runtime_error "AllocateQubit: ID already exists. Qubit IDs should be unique.") s.

(** *** Loops over the index space *)

(** [for (std::size_t i = 0; i < size; ++i) body(i)]. *)
Definition for_each_index {A} (size : Z) (body : Z → A → A) (a : A) : A :=
  foldl (λ a i, body i a) a (seqZ 0 size).

(** The values of [i] in [for (i = 0; i < size; i += 2UL * delta)], for
    [delta ≥ 1]: the multiples of [2 * delta] below [size].  ([delta = 0]
    would need a shift by 64 or more, which C++ leaves undefined.) *)
Definition strides (size delta : Z) : list Z :=
  (λ k, k * (2 * delta)) <$> seqZ 0 ((size + 2 * delta - 1) / (2 * delta)).

(** The pairs [(i, j)] visited, in order, by the nest
    [for (i = 0; i < size; i += 2UL * delta) for (j = 0; j < delta; ++j)]. *)
Definition stride_pairs (size delta : Z) : list (Z * Z) :=
  i ← strides size delta; (λ j, (i, j)) <$> seqZ 0 delta.

(** [static_cast<std::size_t>(b)]. *)
Definition bit (b : bool) : Z := if b then 1 else 0.

(** [get_classical_value], lines 87-105: the first pair with mass decides. *)
Fixpoint classical_scan (tol : calc_type) (v : StateVector) (delta : Z)
    (pairs : list (Z * Z)) : option bool :=
  match pairs with
  | [] => None
  | (i, j) :: rest =>
      if calc_ltb tol (norm (amp v (i + j))) then Some false
      else if calc_ltb tol (norm (amp v (i + j + delta))) then Some true
      else classical_scan tol v delta rest
  end.

Definition get_classical_value (id : Z) (tol : calc_type) (s : Simulator)
    : outcome Simulator bool :=
  let s1 := run s in
  let '(m, pos) := map_index (map_ s1) id in
  let s2 := set_map s1 m in
  let delta := shl_size_t 1 pos in
  match classical_scan tol (vec_ s2) delta (stride_pairs (vsize (vec_ s2)) delta) with
  | Some b => Returns b s2
  | None =>
      Throws (runtime_error
        "Get classical value: internal error, should not have come here...") s2
  end.

(** The two flags of [is_classical], each an OR over all pairs. *)
Definition has_mass (tol : calc_type) (v : StateVector) (off : Z)
    (pairs : list (Z * Z)) : bool :=
  foldl (λ acc '(i, j), acc || calc_ltb tol (norm (amp v (i + j + off)))) false pairs.

(** [is_classical], lines 107-124. *)
Definition is_classical (id : Z) (tol : calc_type) (s : Simulator)
    : outcome Simulator bool :=
  let s1 := run s in
  let '(m, pos) := map_index (map_ s1) id in
  let s2 := set_map s1 m in
  let delta := shl_size_t 1 pos in
  let pairs := stride_pairs (vsize (vec_ s2)) delta in
  let up := has_mass tol (vec_ s2) 0 pairs in
  let down := has_mass tol (vec_ s2) delta pairs in
  Returns (xorb up down) s2.

(** [collapse_vector], lines 126-164. *)
Definition collapse_vector (id : Z) (value shrink : bool) (s : Simulator)
    : outcome Simulator () :=
  let s1 := run s in
  let '(m, pos) := map_index (map_ s1) id in
  let delta := shl_size_t 1 pos in
  let v := vec_ s1 in
  if negb shrink then
    let v' :=
      foldl (λ w '(i, j), vset w (i + j + bit (negb value) * delta) czero)
            v (stride_pairs (vsize v) delta) in
    Returns () (set_vec (set_map s1 m) v')
  else
    (* newvec.resize(1UL << (N_ - 1UL)) *)
    let newvec := replicate (Z.to_nat (shl_size_t 1 (wrap_size_t (N_ s1 - 1)))) czero in
    (* std::copy_n(&vec_[i + value * delta], delta, &newvec[i / 2UL]) *)
    let newvec :=
      foldl (λ w '(i, j), vset w (i / 2 + j) (amp v (i + bit value * delta + j)))
            newvec (stride_pairs (vsize v) delta) in
    (* positions above pos move down by one, then map_.erase(id); N_-- *)
    let m := (λ p, if decide (pos < p) then wrap_unsigned (p - 1) else p) <$> m in
    let m := delete id m in
    Returns () (set_N (set_vec (set_map s1 m) newvec) (wrap_unsigned (N_ s1 - 1))).

(** The vector with every entry whose index has a bit other than [value]
    at position [pos] set to zero, and every other entry as it was. *)
Definition kept (pos : Z) (value : bool) (v : StateVector) : StateVector :=
  imap (λ k a, if decide (Z.testbit (Z.of_nat k) pos = value) then a else czero) v.

(** [k] with the bit [b] inserted at position [pos]: the bits of [k] from
    [pos] on move up by one. *)
Definition insert_bit (pos : Z) (b : bool) (k : Z) : Z :=
  k / 2 ^ pos * (2 * 2 ^ pos) + bit b * 2 ^ pos + k mod 2 ^ pos.

(** The half of the vector whose indices have the bit [value] at position
    [pos], compacted: entry [k] is the old entry at [k] with [value]
    inserted at [pos]. *)
Definition shrunk (pos : Z) (value : bool) (v : StateVector) : StateVector :=
  (λ k, amp v (insert_bit pos value k)) <$> seqZ 0 (vsize v / 2).

(** [positions[i] = map_[ids[i]]] for every [i], in order. *)
Fixpoint lookup_positions (m : Map) (ids : list Z) : Map * list Z :=
  match ids with
  | [] => (m, [])
  | id :: rest =>
      let '(m1, p) := map_index m id in
      let '(m2, ps) := lookup_positions m1 rest in
      (m2, p :: ps)
  end.

(** The cumulative scan of [measure_qubits], lines 179-182:
    [while (P < rnd && pick < vec_.size()) P += std::norm(vec_[pick++])].
    [rest] holds the amplitudes from index [pick] on, so [pick < vec_.size()]
    reads as [rest] not being empty and [vec_[pick]] as its head. *)
Fixpoint pick_scan (rnd : calc_type) (rest : StateVector) (P : calc_type) (pick : Z)
    : calc_type * Z :=
  match rest with
  | [] => (P, pick)
  | a :: rest' =>
      if calc_ltb P rnd then pick_scan rnd rest' (calc_add P (norm a)) (pick + 1)
      else (P, pick)
  end.

(** Lines 187-195: the outcome of every queried qubit, and the mask and
    value that the surviving indices must match. *)
Definition decode (pick : Z) (positions : list Z) : list bool * Z * Z :=
  foldl (λ '(res, mask, val) p,
           let r := bool_decide (Z.land (Z.shiftr pick p) 1 = 1) in
           (res ++ [r], Z.lor mask (shl_size_t 1 p), Z.lor val (shl_size_t (bit r) p)))
        ([], 0, 0) positions.

(** Lines 197-206: zero the entries that disagree, sum the norm of the rest. *)
Definition zero_bad (mask val : Z) (v : StateVector) : StateVector * calc_type :=
  for_each_index (vsize v)
    (λ i '(w, n),
       if decide (Z.land i mask ≠ val) then (vset w i czero, n)
       else (w, calc_add n (norm (amp w i))))
    (v, calc_zero).

(** [measure_qubits], lines 166-213; [rnd] is the number drawn by [rng_()]. *)
Definition measure_qubits (ids : list Z) (rnd : calc_type) (s : Simulator)
    : outcome Simulator (list bool) :=
  let s1 := run s in
  let '(m, positions) := lookup_positions (map_ s1) ids in
  let '(_, pick) := pick_scan rnd (vec_ s1) calc_zero 0 in
  let pick := wrap_size_t (pick - 1) in
  let '(res, mask, val) := decode pick positions in
  let '(v, n) := zero_bad mask val (vec_ s1) in
  let n := calc_div calc_one (calc_sqrt n) in
  Returns res (set_vec (set_map s1 m) ((λ a, cscale a n) <$> v)).

(** The outcome bit [(pick >> p) & 1] that [measure_qubits] reports for
    position [p]. *)
Definition outcome_at (pick p : Z) : bool :=
  bool_decide (Z.land (Z.shiftr pick p) 1 = 1).

(** [check_ids], lines 619-622. *)
Definition check_ids (m : Map) (ids : list Z) : bool :=
  forallb (λ id, bool_decide (map_count m id ≠ 0)) ids.

(** The loops that build [mask] and the requested bit pattern from the
    looked-up positions. *)
Definition mask_val (positions : list Z) (values : list bool) : Z * Z :=
  foldl (λ '(mask, val) '(p, b),
           (Z.lor mask (shl_size_t 1 p), Z.lor val (shl_size_t (bit b) p)))
        (0, 0) (zip positions values).

(** The sum of [std::norm(vec_[i])] over the indices that match. *)
Definition matching_norm (mask val : Z) (v : StateVector) : calc_type :=
  for_each_index (vsize v)
    (λ i n, if decide (Z.land i mask = val) then calc_add n (norm (amp v i)) else n)
    calc_zero.

(** The vector with every entry whose index disagrees with [mask] and
    [val] set to zero. *)
Definition zeroed (mask val : Z) (v : StateVector) : StateVector :=
  imap (λ i a, if decide (Z.land (Z.of_nat i) mask ≠ val) then czero else a) v.

(** What the spec says a measurement that selected index [pick] does to
    the flushed engine [s1]: "out_i = (pick >> p_i) & 1", "mask = OR of
    (1 << p_i) and val = OR of (out_i << p_i)", "zero every W[i] with
    (i & mask) ≠ val; sum remaining norm N; renormalise by 1/√N".  The
    renormalisation multiplies every entry, the zeroed ones included. *)
Definition measurement_result (pick : Z) (ids : list Z) (s1 : Simulator)
    : outcome Simulator (list bool) :=
  let positions := position_of (map_ s1) <$> ids in
  let out := outcome_at pick <$> positions in
  let mask := (mask_val positions out).1 in
  let val := (mask_val positions out).2 in
  let n := matching_norm mask val (vec_ s1) in
  Returns out
    (set_vec (set_map s1 (lookup_positions (map_ s1) ids).1)
       ((λ a, cscale a (calc_div calc_one (calc_sqrt n)))
          <$> zeroed mask val (vec_ s1))).

(** The vector with every entry whose index disagrees with [mask] and
    [val] set to zero and every other entry multiplied by [x]. *)
Definition collapsed (mask val : Z) (x : calc_type) (v : StateVector) : StateVector :=
  imap (λ i a, if decide (Z.land (Z.of_nat i) mask ≠ val) then czero else cscale a x) v.

(** [get_probability], lines 420-441. *)
Definition get_probability (bit_string : list bool) (ids : list Z) (s : Simulator)
    : outcome Simulator calc_type :=
  let s1 := run s in
  if negb (check_ids (map_ s1) ids) then
    Throws (runtime_error
      "get_probability(): Unknown qubit id. Please make sure you have called eng.flush().") s1
  else
    let '(m, positions) := lookup_positions (map_ s1) ids in
    let '(mask, bit_str) := mask_val positions bit_string in
    Returns (matching_norm mask bit_str (vec_ s1)) (set_map s1 m).

(** Some amplitude whose index has the bit [b] at position [pos] has a
    squared magnitude above the tolerance. *)
Definition half_has_mass (tol : calc_type) (v : StateVector) (pos : Z) (b : bool) : Prop :=
  ∃ k, 0 ≤ k < vsize v ∧ Z.testbit k pos = b
       ∧ calc_ltb tol (norm (amp v k)) = true.

Definition unknown_qubit_error : exception :=
  runtime_error "DeallocateQubit: Qubit IDs is not known!".

Definition not_classical_error : exception :=
  runtime_error
    "Error: Qubit has not been measured / uncomputed! There is most likely a bug in your code.".

(** [deallocate_qubit], lines 222-235.  The calls to [is_classical] and
    [get_classical_value] use the default tolerance. *)
Definition deallocate_qubit (id : Z) (s : Simulator) : outcome Simulator () :=
  let s1 := run s in
  if decide (map_count (map_ s1) id ≠ 1) then
    Throws unknown_qubit_error s1
  else
    match is_classical id default_tol_ s1 with
    | Throws e s2 => Throws e s2
    | Returns classical s2 =>
        if negb classical then
          Throws not_classical_error s2
        else
          match get_classical_value id default_tol_ s2 with
          | Throws e s3 => Throws e s3
          | Returns value s3 => collapse_vector id value true s3
          end
    end.

(** [apply_controlled_gate], lines 237-255.  The subtraction
    [fused_gates.num_qubits() - ids.size()] is unsigned. *)
Definition apply_controlled_gate (m : Matrix) (ids ctrl : list Z) (s : Simulator)
    : outcome Simulator () :=
  let fused_gates := fusion_insert m ids ctrl (fused_gates_ s) in
  let nq := fusion_num_qubits fused_gates in
  if bool_decide (fusion_qubits_min_ s ≤ nq) && bool_decide (nq ≤ fusion_qubits_max_ s) then
    Returns () (run (set_fused s fused_gates))
  else if bool_decide (fusion_qubits_max_ s < nq)
          || bool_decide (fusion_num_qubits (fused_gates_ s)
                          < wrap_size_t (nq - Z.of_nat (length ids))) then
    let s1 := run s in
    Returns () (set_fused s1 (fusion_insert m ids ctrl (fused_gates_ s1)))
  else
    Returns () (set_fused s fused_gates).

(** The loop of [get_amplitude], lines 446-454; it stops at the first id
    that the map does not hold.  [i] is the loop counter. *)
Fixpoint amplitude_index (m : Map) (bit_string : list bool) (ids : list Z) (i : nat)
    (chk index : Z) : Z * Z :=
  match ids with
  | [] => (chk, index)
  | id :: rest =>
      if decide (map_count m id = 0) then (chk, index)
      else
        let p := position_of m id in
        amplitude_index m bit_string rest (S i)
          (Z.lor chk (shl_size_t 1 p))
          (Z.lor index (shl_size_t (bit (default false (bit_string !! i))) p))
  end.

(** [get_amplitude], lines 443-461. *)
Definition get_amplitude (bit_string : list bool) (ids : list Z) (s : Simulator)
    : outcome Simulator complex_type :=
  let s1 := run s in
  let '(chk, index) := amplitude_index (map_ s1) bit_string ids 0 0 0 in
  if decide (wrap_size_t (chk + 1) ≠ vsize (vec_ s1)) then
    Throws (runtime_error
      "The second argument to get_amplitude() must be a permutation of all allocated qubits. Please make sure you have called eng.flush().")
      s1
  else Returns (amp (vec_ s1) index) s1.

(** [set_wavefunction], lines 521-543. *)
Definition set_wavefunction (wavefunction : StateVector) (ordering : list Z)
    (s : Simulator) : outcome Simulator () :=
  let s1 := run s in
  if decide (vsize wavefunction ≠ shl_size_t 1 (Z.of_nat (length ordering))) then
    Throws (runtime_error
      "set_wavefunction: size mismatch between wavefunction and ordering!") s1
  else if bool_decide (Z.of_nat (size (map_ s1)) ≠ Z.of_nat (length ordering))
          || negb (check_ids (map_ s1) ordering) then
    Throws (runtime_error
      "set_wavefunction(): Invalid mapping provided. Please make sure all qubits have been allocated previously (call eng.flush()).")
      s1
  else
    (* map_[ordering[i]] = i *)
    let m := foldl (λ m '(i, id), <[id := Z.of_nat i]> m) (map_ s1)
                   (imap (λ i id, (i, id)) ordering) in
    (* vec_[i] = wavefunction[i] *)
    let v := for_each_index (vsize wavefunction)
               (λ i w, vset w i (amp wavefunction i)) (vec_ s1) in
    Returns () (set_vec (set_map s1 m) v).

(** [collapse_wavefunction], lines 545-584. *)
Definition collapse_wavefunction (ids : list Z) (values : list bool) (s : Simulator)
    : outcome Simulator () :=
  let s1 := run s in
  if decide (length ids ≠ length values) then
    Throws (length_error "collapse_wavefunction(): ids and values size mismatch") s1
  else if negb (check_ids (map_ s1) ids) then
    Throws (runtime_error
      "collapse_wavefunction(): Unknown qubit id(s) provided. Try calling eng.flush() before invoking this function.")
      s1
  else
    let '(m, positions) := lookup_positions (map_ s1) ids in
    let s2 := set_map s1 m in
    let '(mask, val) := mask_val positions values in
    let n := matching_norm mask val (vec_ s2) in
    if calc_ltb n default_tol_ then
      Throws (runtime_error
        "collapse_wavefunction(): Invalid collapse! Probability is ~0.") s2
    else
      let n := calc_div calc_one (calc_sqrt n) in
      let v := for_each_index (vsize (vec_ s2))
                 (λ i w, if decide (Z.land i mask ≠ val) then vset w i czero
                         else vset w i (cscale (amp w i) n))
                 (vec_ s2) in
      Returns () (set_vec s2 v).

(** *** The engine after a call *)

(** The engine after a call that returned; nothing for a call that threw. *)
Definition completed {A} (o : outcome Simulator A) : option Simulator :=
  match o with Returns _ s => Some s | Throws _ _ => None end.

(** The qubit counter is an [unsigned], and the map is a bijection between
    the allocated ids and the positions below the counter. *)
Definition map_invariant (s : Simulator) : Prop :=
  0 ≤ N_ s < 2 ^ 32 ∧ map_bijection (map_ s) (N_ s).
End Engine.

(** ** A concrete scalar type: IEEE binary64 *)

(** [double], as the kernel's primitive floats.  [default_tol_] is the double
    nearest to 1.e-12. *)
Definition Binary64 : CalcType := {|
  calc_type := float;
  calc_zero := 0%float;
  calc_one := 1%float;
  default_tol_ := 0x1.19799812dea11p-40%float;
  calc_add := PrimFloat.add;
  calc_sub := PrimFloat.sub;
  calc_mul := PrimFloat.mul;
  calc_div := PrimFloat.div;
  calc_sqrt := PrimFloat.sqrt;
  calc_ltb := PrimFloat.ltb;
  calc_zero_not_below_zero := eq_refl;
|}.

(** ** A concrete fusion buffer: the list of pending gates *)

Section GateList.
Context `{CalcType}.

(** A queued gate: a dense row-major matrix, its target ids, its control ids. *)
Record Gate := MkGate {
  gate_matrix : list (list complex_type);
  gate_ids : list Z;
  gate_ctrl : list Z;
}.

(** The row of the matrix that produces index [i]: bit [j] of the row is
    the bit of [i] at the [j]-th target position. *)
Definition gather (i : Z) (ps : list Z) : Z :=
  foldr (λ p r, Z.lor (bit (Z.testbit i p)) (Z.shiftl r 1)) 0 ps.

(** [i] with its bit at the [j]-th target position replaced by bit [j] of [c]. *)
Fixpoint scatter (i : Z) (ps : list Z) (c : Z) : Z :=
  match ps with
  | [] => i
  | p :: ps' =>
      let i' := if Z.testbit c 0 then Z.lor i (Z.shiftl 1 p) else Z.ldiff i (Z.shiftl 1 p) in
      scatter i' ps' (Z.shiftr c 1)
  end.

(** Modelled from the spec: the numeric kernel for any number of targets,
    of which only [kernel1::core] is part of the sources.  "For each coset,
    it gathers 2^k amplitudes into a local vector v, computes v' = m·v, and
    scatters back", "restricted to indices i where (i & ctrlmask) ==
    ctrlmask".  For one target this is [kernel1::core]:
    [psi[I] = v[0] * m[0][0] + v[1] * m[0][1]] and
    [psi[I + d0] = v[0] * m[1][0] + v[1] * m[1][1]]. *)
Definition apply_gate (M : Map) (g : Gate) (W : StateVector) : StateVector :=
  let ps := (λ id, default 0 (M !! id)) <$> gate_ids g in
  let ctrlmask :=
    foldl (λ acc c, Z.lor acc (shl_size_t 1 (default 0 (M !! c)))) 0 (gate_ctrl g) in
  (λ i,
     if decide (Z.land i ctrlmask = ctrlmask) then
       let row := default [] (gate_matrix g !! Z.to_nat (gather i ps)) in
       match imap (λ c m_rc, cmul (amp W (scatter i ps (Z.of_nat c))) m_rc) row with
       | [] => czero
       | t :: ts => foldl cadd t ts
       end
     else amp W i)
    <$> seqZ 0 (vsize W).

(** Modelled from the spec: [num_qubits()], "the count of distinct target
    qubits involved". *)
Definition count_targets (F : list Gate) : Z :=
  Z.of_nat (length (remove_dups (F ≫= gate_ids))).

(** Modelled from the spec: the fusion buffer, "accumulating (matrix,
    target-IDs, control-IDs) triples"; a flush has the effect of the
    "sequential application of every queued gate". *)
Definition GateList : FusionModel.
Proof.
  refine {|
    Matrix := list (list complex_type);
    Fusion := list Gate;
    fusion_new := [];
    fusion_is_empty := λ F, match F with [] => true | _ => false end;
    fusion_insert := λ m ids ctrl F, F ++ [MkGate m ids ctrl];
    fusion_num_qubits := count_targets;
    kernel := λ F M W, foldl (λ W g, apply_gate M g W) W F;
  |}.
  - reflexivity.
  - intros F M. induction F as [|g F IH]; intros W; simpl; [reflexivity|].
    rewrite IH. unfold apply_gate. rewrite length_fmap, length_seqZ.
    unfold vsize. apply Nat2Z.id.
Defined.
End GateList.

(** ** Engines used in the examples *)

Section Examples.
#[local] Existing Instance Binary64.
#[local] Existing Instance GateList.

(** A double as a scalar of the engine, and as a real amplitude. *)
Definition f64 (x : float) : calc_type := x.
Definition c64 (x : float) : complex_type := Complex _ x 0%float.

(** The Pauli-X matrix. *)
Definition pauli_x : list (list complex_type) :=
  [[c64 0; c64 1]; [c64 1; c64 0]].

(** One qubit, id 0, in the state |0>, nothing pending. *)
Definition one_qubit : Simulator :=
  MkSimulator _ _ 1 [c64 1; c64 0] {[0 := 0]} [] 4 5.

(** The same engine with an X gate on qubit 0 waiting in the buffer. *)
Definition one_qubit_pending_x : Simulator :=
  MkSimulator _ _ 1 [c64 1; c64 0] {[0 := 0]} [MkGate pauli_x [0] []] 4 5.

(** One qubit whose amplitudes are all zero, as [set_wavefunction] or a
    collapse onto an impossible outcome leaves it. *)
Definition one_qubit_no_mass : Simulator :=
  MkSimulator _ _ 1 [c64 0; c64 0] {[0 := 0]} [] 4 5.

(** Two qubits, ids 0 and 1, in the state |00>. *)
Definition two_qubits : Simulator :=
  MkSimulator _ _ 2 [c64 1; c64 0; c64 0; c64 0] {[0 := 0; 1 := 1]} [] 4 5.

(** One qubit in an equal superposition whose squared norms, rounded to
    doubles, add up to 1 - 2^-52. *)
Definition one_qubit_plus : Simulator :=
  MkSimulator _ _ 1 [c64 0x1.6a09e667f3bccp-1; c64 0x1.6a09e667f3bccp-1] {[0 := 0]} [] 4 5.

(** A two-target gate: the matrix that exchanges the two targets. *)
Definition swap_gate : list (list complex_type) :=
  [[c64 1; c64 0; c64 0; c64 0]; [c64 0; c64 0; c64 1; c64 0];
   [c64 0; c64 1; c64 0; c64 0]; [c64 0; c64 0; c64 0; c64 1]].

(** The largest double below 1. *)
Definition almost_one : calc_type := f64 0x1.fffffffffffffp-1.

(** The two-qubit basis state |11>. *)
Definition basis_11 : StateVector := [c64 0; c64 0; c64 0; c64 1].

(** Three qubits with one single-target gate pending. *)
Definition three_qubits_one_pending : Simulator :=
  MkSimulator _ _ 3 (c64 1 :: replicate 7 (c64 0)) {[0 := 0; 1 := 1; 2 := 2]}
              [MkGate pauli_x [0] []] 4 5.
End Examples.

(** ** Bit strings as numbers *)

(** The number whose bit [i] is the [i]-th entry of the bit string. *)
Definition bits_value (bits : list bool) : Z :=
  foldr (λ b r, bit b + 2 * r) 0 bits.

(** ** Register arithmetic *)

(** [static_cast<int>(x)] for a 32-bit [int]: the value congruent to [x]
    modulo 2^32 that lies in [-2^31 .. 2^31 - 1]. *)
Definition to_int (x : Z) : Z := (x + 2 ^ 31) mod 2 ^ 32 - 2 ^ 31.

Section Emulation.
Context `{FusionModel}.

(** [cheat], lines 590-594.  The C++ tuple holds a reference to [vec_]; the
    model returns the vector as it is when the call returns. *)
Definition cheat (s : Simulator) : outcome Simulator (Map * StateVector) :=
  let s1 := run s in
  Returns (map_ s1, vec_ s1) s1.

(** [get_control_mask], lines 610-617.  Every position is read through
    [map_[c]]. *)
Definition get_control_mask (ctrls : list Z) (m : Map) : Map * Z :=
  foldl (λ '(m, ctrlmask) c,
           let '(m', p) := map_index m c in
           (m', Z.lor ctrlmask (shl_size_t 1 p)))
        (m, 0) ctrls.

(** Lines 265-269 of [emulate_math]: [quregs[i][j] = map_[quregs[i][j]]] for
    every register [i] and every qubit [j] of it, in order. *)
Fixpoint lookup_quregs (m : Map) (quregs : list (list Z)) : Map * list (list Z) :=
  match quregs with
  | [] => (m, [])
  | qureg :: rest =>
      let '(m1, ps) := lookup_positions m qureg in
      let '(m2, pss) := lookup_quregs m1 rest in
      (m2, ps :: pss)
  end.

(** The positions that the look-ups put in place of the ids. *)
Definition register_positions (m : Map) (quregs : list (list Z)) : list (list Z) :=
  (λ qureg : list Z, position_of m <$> qureg) <$> quregs.

(** Lines 286-289: [res[qr_i] = 0], then
    [res[qr_i] |= ((i >> quregs[qr_i][qb_i]) & 1) << qb_i] for every qubit of
    the register.  [res[qr_i]] is an [int] and the right-hand side a
    [std::size_t], so every step converts the [int] to 64 bits, ors, and
    converts back. *)
Definition read_register (i : Z) (qureg : list Z) : Z :=
  foldl (λ r '(qb_i, q),
           to_int (Z.lor (wrap_size_t r)
                         (shl_size_t (Z.land (Z.shiftr i q) 1) (Z.of_nat qb_i))))
        0 (imap (λ qb_i q, (qb_i, q)) qureg).

(** Lines 285-290: the loop over the registers.  Writing [res[qr_i]] beyond
    the end of [res] is undefined in C++; the model writes nothing there. *)
Definition read_registers (i : Z) (quregs : list (list Z)) (res : list Z) : list Z :=
  foldl (λ res '(qr_i, qureg), <[qr_i := read_register i qureg]> res)
        res (imap (λ qr_i qureg, (qr_i, qureg)) quregs).

(** Lines 294-299 for one register: every bit of [new_i] that differs from
    the bit of the register's new value is flipped. *)
Definition write_register (value : Z) (qureg : list Z) (new_i : Z) : Z :=
  foldl (λ new_i '(qb_i, q),
           if decide (Z.land (Z.shiftr new_i q) 1
                      = Z.land (Z.shiftr value (Z.of_nat qb_i)) 1)
           then new_i
           else Z.lxor new_i (shl_size_t 1 q))
        new_i (imap (λ qb_i q, (qb_i, q)) qureg).

(** Lines 292-300: the loop over the registers.  Reading [res[qr_i]] beyond
    the end of [res] is undefined in C++; the model reads 0 there. *)
Definition write_registers (res : list Z) (quregs : list (list Z)) (i : Z) : Z :=
  foldl (λ new_i '(qr_i, qureg), write_register (default 0 (res !! qr_i)) qureg new_i)
        i (imap (λ qr_i qureg, (qr_i, qureg)) quregs).

(** [emulate_math], lines 257-311.  [f] is the callback, which replaces the
    register values in place; the vector [res] is declared outside the loop
    over the indices, so what [f] leaves in it reaches the next index.  A
    callback that throws is outside this model. *)
Definition emulate_math (f : list Z → list Z) (quregs : list (list Z)) (ctrl : list Z)
    (s : Simulator) : outcome Simulator () :=
  let s1 := run s in
  let '(m, ctrlmask) := get_control_mask ctrl (map_ s1) in
  let '(m, quregs) := lookup_quregs m quregs in
  (* newvec.resize(vec_.size()), then newvec[i] = 0 *)
  let newvec := replicate (length (vec_ s1)) czero in
  (* std::vector<int> res(quregs.size()) *)
  let res := replicate (length quregs) 0 in
  let '(newvec, _) :=
    for_each_index (vsize (vec_ s1))
      (λ i '(newvec, res),
         if decide (Z.land ctrlmask i = ctrlmask) then
           let res := f (read_registers i quregs res) in
           let new_i := write_registers res quregs i in
           (vset newvec new_i (cadd (amp newvec new_i) (amp (vec_ s1) i)), res)
         else
           (vset newvec i (cadd (amp newvec i) (amp (vec_ s1) i)), res))
      (newvec, res) in
  Returns () (set_vec (set_map s1 m) newvec).

(** [emulate_math_addConstant], lines 314-324.  An overflowing [x + a] is
    undefined in C++; the model wraps. *)
Definition emulate_math_addConstant (a : Z) (quregs : list (list Z)) (ctrl : list Z)
    (s : Simulator) : outcome Simulator () :=
  emulate_math (fmap (λ x, to_int (x + a))) quregs ctrl s.

(** [emulate_math_addConstantModN], lines 327-337.  [%] on [int] rounds
    towards zero; [N = 0] is undefined in C++. *)
Definition emulate_math_addConstantModN (a N : Z) (quregs : list (list Z))
    (ctrl : list Z) (s : Simulator) : outcome Simulator () :=
  emulate_math (fmap (λ x, Z.rem (to_int (x + a)) N)) quregs ctrl s.

(** [emulate_math_multiplyByConstantModN], lines 340-351. *)
Definition emulate_math_multiplyByConstantModN (a N : Z) (quregs : list (list Z))
    (ctrl : list Z) (s : Simulator) : outcome Simulator () :=
  emulate_math (fmap (λ x, Z.rem (to_int (x * a)) N)) quregs ctrl s.

(** The index whose entry receives the amplitude at [i], for a callback that
    keeps the number of registers: the registers are read from [i], handed
    to [f], and written back. *)
Definition emulate_target (f : list Z → list Z) (quregs : list (list Z))
    (ctrlmask i : Z) : Z :=
  if decide (Z.land ctrlmask i = ctrlmask) then
    write_registers (f (read_register i <$> quregs)) quregs i
  else i.

(** The loop over the indices, with the engine's fields out of the way. *)
Definition emulate_body (f : list Z → list Z) (quregs : list (list Z)) (ctrlmask : Z)
    (v : StateVector) (i : Z) (a : StateVector * list Z) : StateVector * list Z :=
  let '(newvec, res) := a in
  if decide (Z.land ctrlmask i = ctrlmask) then
    let res := f (read_registers i quregs res) in
    let new_i := write_registers res quregs i in
    (vset newvec new_i (cadd (amp newvec new_i) (amp v i)), res)
  else
    (vset newvec i (cadd (amp newvec i) (amp v i)), res).

(** One amplitude moves to its target. *)
Definition move (target : Z → Z) (v newvec : StateVector) (i : Z) : StateVector :=
  vset newvec (target i) (cadd (amp newvec (target i)) (amp v i)).
End Emulation.

(** ** Sums that are added up in parallel *)

Section Reduction.
Context `{CalcType}.

(** One run of a loop under
    [#pragma omp parallel for reduction(+ : x) schedule(static)], for an [x]
    that is zero before the loop, as it is wherever the engine has such a
    loop.  The static schedule gives a thread one block of consecutive
    iterations; the thread adds the terms of its block, in order, to a
    private copy of [x] that starts at zero; the private copies and the
    original [x] are then added up in an order and grouping that OpenMP
    leaves open.  A value of this type is one such order and grouping. *)
Inductive schedule : Type :=
  | Original                    (* [x] as it was before the loop: zero *)
  | Thread (first len : Z)      (* the private copy of the thread that was
                                   given the iterations [first .. first+len-1] *)
  | Combine (l r : schedule).   (* the sum of two of these *)

(** The value of [x] after the loop; [body i x] is what iteration [i] makes
    of [x]. *)
Fixpoint reduction (body : Z → calc_type → calc_type) (t : schedule) : calc_type :=
  match t with
  | Original => calc_zero
  | Thread first len => foldl (λ x i, body i x) calc_zero (seqZ first len)
  | Combine l r => calc_add (reduction body l) (reduction body r)
  end.

(** The iterations that the threads of a schedule run. *)
Fixpoint iterations (t : schedule) : list Z :=
  match t with
  | Original => []
  | Thread first len => seqZ first len
  | Combine l r => iterations l ++ iterations r
  end.

(** Every iteration of [for (i = 0; i < size; ++i)] is run by exactly one
    thread. *)
Definition covers (t : schedule) (size : Z) : Prop :=
  iterations t ≡ₚ seqZ 0 size.

(** [a] is the terms [xs] added up: all of them, each once, in some order
    and grouping, with zeros possibly added in. *)
Inductive added_up : list calc_type → calc_type → Prop :=
  | added_none : added_up [] calc_zero
  | added_one x : added_up [x] x
  | added_two xs ys a b :
      added_up xs a → added_up ys b → added_up (xs ++ ys) (calc_add a b)
  | added_in_any_order xs ys a : xs ≡ₚ ys → added_up xs a → added_up ys a.

(** The entries of [v] whose index matches, in the order of their indices. *)
Definition matching (mask val : Z) (v : StateVector) : list complex_type :=
  amp v <$> filter (λ i, Z.land i mask = val) (seqZ 0 (vsize v)).
End Reduction.

Section ParallelSums.
Context `{FusionModel}.

(** The loop at lines 434-439 and at lines 564-569, run under a schedule. *)
Definition matching_norm_parallel (t : schedule) (mask val : Z) (v : StateVector)
    : calc_type :=
  reduction
    (λ i n, if decide (Z.land i mask = val) then calc_add n (norm (amp v i)) else n) t.

(** [get_probability], lines 420-441, with the schedule of its loop.  On
    one thread, [Thread 0 vec_.size()], this is [get_probability] above. *)
Definition get_probability_parallel (t : schedule) (bit_string : list bool)
    (ids : list Z) (s : Simulator) : outcome Simulator calc_type :=
  let s1 := run s in
  if negb (check_ids (map_ s1) ids) then
    Throws (runtime_error
      "get_probability(): Unknown qubit id. Please make sure you have called eng.flush().") s1
  else
    let '(m, positions) := lookup_positions (map_ s1) ids in
    let '(mask, bit_str) := mask_val positions bit_string in
    Returns (matching_norm_parallel t mask bit_str (vec_ s1)) (set_map s1 m).

(** [collapse_wavefunction], lines 545-584, with the schedule of the loop
    that adds up [N].  The loop that rescales writes every entry on its own
    and needs none. *)
Definition collapse_wavefunction_parallel (t : schedule) (ids : list Z)
    (values : list bool) (s : Simulator) : outcome Simulator () :=
  let s1 := run s in
  if decide (length ids ≠ length values) then
    Throws (length_error "collapse_wavefunction(): ids and values size mismatch") s1
  else if negb (check_ids (map_ s1) ids) then
    Throws (runtime_error
      "collapse_wavefunction(): Unknown qubit id(s) provided. Try calling eng.flush() before invoking this function.")
      s1
  else
    let '(m, positions) := lookup_positions (map_ s1) ids in
    let s2 := set_map s1 m in
    let '(mask, val) := mask_val positions values in
    let n := matching_norm_parallel t mask val (vec_ s2) in
    if calc_ltb n default_tol_ then
      Throws (runtime_error
        "collapse_wavefunction(): Invalid collapse! Probability is ~0.") s2
    else
      let n := calc_div calc_one (calc_sqrt n) in
      let v := for_each_index (vsize (vec_ s2))
                 (λ i w, if decide (Z.land i mask ≠ val) then vset w i czero
                         else vset w i (cscale (amp w i) n))
                 (vec_ s2) in
      Returns () (set_vec s2 v).
End ParallelSums.

(** ** Helpers from outside the embedded files *)

(** The members below use three matrices of [types::M] and a few functions
    of [<cmath>] and [<complex>] that the embedded files do not define.
    They enter through this interface, and every theorem holds for every
    implementation of it. *)
Class ExternalOps `{FusionModel} := {
  gate_X : Matrix;                                (* types::M X = {0., 1., 1., 0.} *)
  gate_Y : Matrix;                                (* types::M Y = {0., -I, I, 0.} *)
  gate_Z : Matrix;                                (* types::M Z = {1., 0., 0., -1.} *)
  calc_opp : calc_type → calc_type;               (* -x *)
  calc_abs : calc_type → calc_type;               (* std::abs(x) *)
  (* static_cast<unsigned>(x): nothing where the conversion is undefined *)
  to_unsigned : calc_type → option Z;
  of_unsigned : Z → calc_type;                    (* static_cast<double>(n) *)
  complex_times : complex_type → complex_type → complex_type;    (* a * b *)
  complex_exp : complex_type → complex_type;      (* std::exp(z) *)
}.

(** ** Sums of Pauli strings *)

(** [Simulator::Term]: pairs of an index into [ids] and one of the
    characters ['X'], ['Y'], ['Z'], held as its code. *)
Abbreviation Term := (list (Z * Z)).

(** A term for which [apply_term] is defined: every local index lies
    inside [ids], and every operator is ['X'] (88), ['Y'] or ['Z'] (90). *)
Definition valid_term (ids : list Z) (term : Term) : Prop :=
  Forall (λ local_op : Z * Z,
            0 ≤ local_op.1 < Z.of_nat (length ids) ∧ 88 ≤ local_op.2 ≤ 90) term.

Section Observables.
Context `{ExternalOps}.

(** [std::vector<types::M> gates = {X, Y, Z}]. *)
Definition gates : list Matrix := [gate_X; gate_Y; gate_Z].

(** [gates[c - 'X']].  An index outside the vector is undefined in C++:
    the model has nothing there. *)
Definition pauli_gate (c : Z) : option Matrix :=
  if decide (88 ≤ c) then gates !! Z.to_nat (c - 88) else None.

(** The loop of [apply_term], lines 604-607.  [ids[local_op.first]] outside
    [ids] is undefined in C++: the model has nothing there. *)
Fixpoint apply_local_ops (term : Term) (ids ctrl : list Z) (s : Simulator)
    : option Simulator :=
  match term with
  | [] => Some s
  | (first, second) :: rest =>
      id ← (if decide (0 ≤ first) then ids !! Z.to_nat first else None);
      g ← pauli_gate second;
      apply_local_ops rest ids ctrl (final_state (apply_controlled_gate g [id] ctrl s))
  end.

(** [apply_term], lines 597-609; nothing where its behaviour is undefined. *)
Definition apply_term (term : Term) (ids ctrl : list Z) (s : Simulator)
    : option (outcome Simulator ()) :=
  s' ← apply_local_ops term ids ctrl s;
  Some (Returns () (run s')).

(** The loop over the terms of [get_expectation_value], lines 368-383. *)
Fixpoint expectation_terms (td : list (Term * calc_type)) (ids : list Z)
    (current_state : StateVector) (s : Simulator) (expectation : calc_type)
    : option (Simulator * calc_type) :=
  match td with
  | [] => Some (s, expectation)
  | (term, coefficient) :: rest =>
      o ← apply_term term ids [] s;
      let s2 := final_state o in
      let '(v, delta) :=
        for_each_index (vsize (vec_ s2))
          (λ i '(v, delta),
             let a1 := real (amp current_state i) in
             let b1 := calc_opp (imag (amp current_state i)) in
             let a2 := real (amp v i) in
             let b2 := imag (amp v i) in
             (* reset vec_ *)
             (vset v i (amp current_state i),
              calc_add delta (calc_sub (calc_mul a1 a2) (calc_mul b1 b2))))
          (vec_ s2, calc_zero) in
      expectation_terms rest ids current_state (set_vec s2 v)
        (calc_add expectation (calc_mul coefficient delta))
  end.

(** [get_expectation_value], lines 353-386. *)
Definition get_expectation_value (td : list (Term * calc_type)) (ids : list Z)
    (s : Simulator) : option (outcome Simulator calc_type) :=
  let s1 := run s in
  '(s', expectation) ← expectation_terms td ids (vec_ s1) s1 calc_zero;
  Some (Returns expectation s').

(** The loop over the terms of [apply_qubit_operator], lines 406-414. *)
Fixpoint operator_terms (td : list (Term * complex_type)) (ids : list Z)
    (current_state : StateVector) (s : Simulator) (new_state : StateVector)
    : option (Simulator * StateVector) :=
  match td with
  | [] => Some (s, new_state)
  | (term, coefficient) :: rest =>
      o ← apply_term term ids [] s;
      let s2 := final_state o in
      let '(v, new_state) :=
        for_each_index (vsize (vec_ s2))
          (λ i '(v, new_state),
             (vset v i (amp current_state i),
              vset new_state i
                   (cadd (amp new_state i) (complex_times coefficient (amp v i)))))
          (vec_ s2, new_state) in
      operator_terms rest ids current_state (set_vec s2 v) new_state
  end.

(** [apply_qubit_operator], lines 388-418. *)
Definition apply_qubit_operator (td : list (Term * complex_type)) (ids : list Z)
    (s : Simulator) : option (outcome Simulator ()) :=
  let s1 := run s in
  let new_state := replicate (length (vec_ s1)) czero in
  '(s', new_state) ← operator_terms td ids (vec_ s1) s1 new_state;
  Some (Returns () (set_vec s' new_state)).
End Observables.

(** ** Time evolution *)

Section TimeEvolution.
Context `{ExternalOps}.

(** [complex_type I(0., 1.)]. *)
Definition imaginary_unit : complex_type := Complex _ calc_zero calc_one.

(** [z / x] for a real [x]. *)
Definition cdiv (z : complex_type) (x : calc_type) : complex_type :=
  Complex _ (calc_div (real z) x) (calc_div (imag z) x).

(** Lines 469-480: the coefficients of the empty terms are added up in
    [tr]; the other terms are kept, and the magnitudes of their coefficients
    added up in [op_nrm]. *)
Definition split_terms (tdict : list (Term * calc_type))
    : calc_type * calc_type * list (Term * calc_type) :=
  foldl (λ '(tr, op_nrm, td) '(term, c),
           match term with
           | [] => (calc_add tr c, op_nrm, td)
           | _ => (tr, calc_add op_nrm (calc_abs c), td ++ [(term, c)])
           end)
        (calc_zero, calc_zero, []) tdict.

(** Lines 491-498: every term is applied to the engine, its result is added
    to [update] with the term's coefficient, and the vector is put back. *)
Fixpoint add_terms (td : list (Term * calc_type)) (ids : list Z)
    (current_state : StateVector) (s : Simulator) (update : StateVector)
    : option (Simulator * StateVector) :=
  match td with
  | [] => Some (s, update)
  | (term, c) :: rest =>
      o ← apply_term term ids [] s;
      let s2 := final_state o in
      let '(v, update) :=
        for_each_index (vsize (vec_ s2))
          (λ j '(v, update),
             (vset v j (amp current_state j),
              vset update j (cadd (amp update j) (cscale (amp v j) c))))
          (vec_ s2, update) in
      add_terms rest ids current_state (set_vec s2 v) update
  end.

(** Lines 488-509: one more term of the Taylor series.  [s_steps] is the
    number [s] of sub-steps; [s * (k + 1)] is a product of [unsigned]. *)
Definition taylor_term (s_steps k : Z) (time : calc_type) (td : list (Term * calc_type))
    (ids : list Z) (ctrlmask : Z) (s : Simulator) (output_state : StateVector)
    : option (Simulator * StateVector * calc_type) :=
  let coeff := cdiv (cscale imaginary_unit (calc_opp time))
                    (of_unsigned (wrap_unsigned (s_steps * (k + 1)))) in
  let current_state := vec_ s in
  let update := replicate (length (vec_ s)) czero in
  '(s, update) ← add_terms td ids current_state s update;
  let '(v, update, output_state, nrm_change) :=
    for_each_index (vsize (vec_ s))
      (λ j '(v, update, output_state, nrm_change),
         let u := complex_times (amp update j) coeff in
         if decide (Z.land j ctrlmask = ctrlmask) then
           (vset v j u, vset update j u,
            vset output_state j (cadd (amp output_state j) u),
            calc_add nrm_change (norm u))
         else
           (vset v j u, vset update j u, output_state, nrm_change))
      (vec_ s, update, output_state, calc_zero) in
  Some (set_vec s v, output_state, calc_sqrt nrm_change).

(** The loop [for (unsigned k = 0; nrm_change > default_tol_; ++k)],
    lines 487-510.  Nothing bounds the number of its rounds, so the model
    counts them down from [fuel] and has nothing when they run out. *)
Fixpoint taylor_series (fuel : nat) (s_steps k : Z) (time : calc_type)
    (td : list (Term * calc_type)) (ids : list Z) (ctrlmask : Z)
    (nrm_change : calc_type) (s : Simulator) (output_state : StateVector)
    : option (Simulator * StateVector) :=
  if calc_ltb default_tol_ nrm_change then
    match fuel with
    | O => None
    | S fuel =>
        '(s, output_state, nrm_change)
          ← taylor_term s_steps k time td ids ctrlmask s output_state;
        taylor_series fuel s_steps (wrap_unsigned (k + 1)) time td ids ctrlmask
                      nrm_change s output_state
    end
  else Some (s, output_state).

(** Lines 486-517: one sub-step. *)
Definition sub_step (fuel : nat) (s_steps : Z) (time : calc_type)
    (td : list (Term * calc_type)) (ids : list Z) (ctrlmask : Z)
    (correction : complex_type) (s : Simulator) (output_state : StateVector)
    : option (Simulator * StateVector) :=
  '(s, output_state)
    ← taylor_series fuel s_steps 0 time td ids ctrlmask calc_one s output_state;
  let '(v, output_state) :=
    for_each_index (vsize (vec_ s))
      (λ j '(v, output_state),
         let output_state :=
           if decide (Z.land j ctrlmask = ctrlmask)
           then vset output_state j (complex_times (amp output_state j) correction)
           else output_state in
         (vset v j (amp output_state j), output_state))
      (vec_ s, output_state) in
  Some (set_vec s v, output_state).

(** [emulate_time_evolution], lines 464-519; [fuel] bounds the rounds of the
    inner loop of every sub-step.  The model has nothing when the fuel runs
    out, when a term is one for which [apply_term] is undefined, and when
    the conversion of the number of sub-steps to [unsigned] is undefined. *)
Definition emulate_time_evolution (fuel : nat) (tdict : list (Term * calc_type))
    (time : calc_type) (ids ctrl : list Z) (s : Simulator)
    : option (outcome Simulator ()) :=
  let s1 := run s in
  let '(tr, op_nrm, td) := split_terms tdict in
  s_steps ← to_unsigned (calc_add (calc_mul (calc_abs time) op_nrm) calc_one);
  let correction :=
    complex_exp (cdiv (cscale (cscale imaginary_unit (calc_opp time)) tr)
                      (of_unsigned s_steps)) in
  let output_state := vec_ s1 in
  let '(m, ctrlmask) := get_control_mask ctrl (map_ s1) in
  '(s2, _) ← for_each_index s_steps
                (λ _ st, '(s, output_state) ← st;
                         sub_step fuel s_steps time td ids ctrlmask correction
                                  s output_state)
                (Some (set_map s1 m, output_state));
  Some (Returns () s2).
End TimeEvolution.

(** ** Measurement with the outcomes returned *)

Section MeasureReturn.
Context `{FusionModel}.

(** [measure_qubits_return], lines 215-220.  [measure_qubits] hands its
    outcomes back through a reference, which the model returns; so the two
    are the same function here. *)
Definition measure_qubits_return (ids : list Z) (rnd : calc_type) (s : Simulator)
    : outcome Simulator (list bool) :=
  measure_qubits ids rnd s.
End MeasureReturn.

(** ** The operations as one step *)

Section Operations.
Context `{ExternalOps}.

(** The member functions of [Simulator] with their arguments.
    [emulate_math_addConstant], [emulate_math_addConstantModN] and
    [emulate_math_multiplyByConstantModN] are [emulate_math] at their
    callbacks.  [select_backend] and the constructor are declared in the
    header and defined elsewhere. *)
Inductive operation : Type :=
  | AllocateQubit (id : Z)
  | DeallocateQubit (id : Z)
  | CollapseVector (id : Z) (value shrink : bool)
  | IsClassical (id : Z) (tol : calc_type)
  | GetClassicalValue (id : Z) (tol : calc_type)
  | MeasureQubits (ids : list Z) (rnd : calc_type)
  | MeasureQubitsReturn (ids : list Z) (rnd : calc_type)
  | ApplyControlledGate (m : Matrix) (ids ctrl : list Z)
  | EmulateMath (f : list Z → list Z) (quregs : list (list Z)) (ctrl : list Z)
  | GetExpectationValue (td : list (Term * calc_type)) (ids : list Z)
  | ApplyQubitOperator (td : list (Term * complex_type)) (ids : list Z)
  | GetProbability (bit_string : list bool) (ids : list Z)
  | GetAmplitude (bit_string : list bool) (ids : list Z)
  | EmulateTimeEvolution (fuel : nat) (tdict : list (Term * calc_type))
                         (time : calc_type) (ids ctrl : list Z)
  | SetWavefunction (wavefunction : StateVector) (ordering : list Z)
  | CollapseWavefunction (ids : list Z) (values : list bool)
  | Run
  | Cheat.

(** The engine after a call that returned; nothing for a call that threw,
    and nothing where the model of the call has nothing. *)
Definition perform (op : operation) (s : Simulator) : option Simulator :=
  match op with
  | AllocateQubit id => completed (allocate_qubit id s)
  | DeallocateQubit id => completed (deallocate_qubit id s)
  | CollapseVector id value shrink => completed (collapse_vector id value shrink s)
  | IsClassical id tol => completed (is_classical id tol s)
  | GetClassicalValue id tol => completed (get_classical_value id tol s)
  | MeasureQubits ids rnd => completed (measure_qubits ids rnd s)
  | MeasureQubitsReturn ids rnd => completed (measure_qubits_return ids rnd s)
  | ApplyControlledGate m ids ctrl => completed (apply_controlled_gate m ids ctrl s)
  | EmulateMath f quregs ctrl => completed (emulate_math f quregs ctrl s)
  | GetExpectationValue td ids => get_expectation_value td ids s ≫= completed
  | ApplyQubitOperator td ids => apply_qubit_operator td ids s ≫= completed
  | GetProbability bit_string ids => completed (get_probability bit_string ids s)
  | GetAmplitude bit_string ids => completed (get_amplitude bit_string ids s)
  | EmulateTimeEvolution fuel tdict time ids ctrl =>
      emulate_time_evolution fuel tdict time ids ctrl s ≫= completed
  | SetWavefunction wavefunction ordering =>
      completed (set_wavefunction wavefunction ordering s)
  | CollapseWavefunction ids values => completed (collapse_wavefunction ids values s)
  | Run => Some (run s)
  | Cheat => completed (cheat s)
  end.

(** What the caller owes the functions that do not check their arguments:
    every id read through [map_[id]] is mapped, the callback of
    [emulate_math] keeps the number of registers, the ordering handed to
    [set_wavefunction] has no repeated id, and an allocation does not
    overflow the qubit counter. *)
Definition caller_obligation (op : operation) (s : Simulator) : Prop :=
  match op with
  | AllocateQubit _ => N_ s + 1 < 2 ^ 32
  | CollapseVector id _ _ | IsClassical id _ | GetClassicalValue id _ =>
      is_Some (map_ s !! id)
  | MeasureQubits ids _ | MeasureQubitsReturn ids _ =>
      Forall (λ id, is_Some (map_ s !! id)) ids
  | EmulateMath f quregs ctrl =>
      Forall (λ id, is_Some (map_ s !! id)) ctrl
      ∧ Forall (Forall (λ id, is_Some (map_ s !! id))) quregs
      ∧ ∀ res, length (f res) = length res
  | EmulateTimeEvolution _ _ _ _ ctrl => Forall (λ id, is_Some (map_ s !! id)) ctrl
  | SetWavefunction _ ordering => NoDup ordering
  | _ => True
  end.
End Operations.

(** ** The one-target kernel *)

Section Kernel1.
Context `{CalcType}.

(** [add] and [mul] are helpers of the kernel headers that are not among
    the files embedded here. *)
Variables add mul : complex_type → complex_type → complex_type.

(** [m[r][c]]. *)
Definition entry (m : list (list complex_type)) (r c : nat) : complex_type :=
  default czero (default [] (m !! r) !! c).

(** [kernel1::core], kernel1.hpp lines 25-35; [d0] is [d[0]]. *)
Definition core (psi : StateVector) (I d0 : Z) (m : list (list complex_type))
    : StateVector :=
  let v0 := amp psi I in
  let v1 := amp psi (I + d0) in
  let psi := vset psi I (add (mul v0 (entry m 0 0)) (mul v1 (entry m 0 1))) in
  vset psi (I + d0) (add (mul v0 (entry m 1 0)) (mul v1 (entry m 1 1))).
End Kernel1.

(** ** The compiler ABI probe *)

(** The characters of a string literal, as values of [char]. *)
Definition chars (s : string) : list Z :=
  (λ c, Z.of_N (Ascii.N_of_ascii c)) <$> String.list_ascii_of_string s.

(** [info_sizeof_dptr], cmake/DPCXX/CMakeCompilerABI.h lines 9-15, for a
    pointer of [SIZEOF_DPTR] bytes; ['0'] is 48, [']'] is 93. *)
Definition info_sizeof_dptr (SIZEOF_DPTR : Z) : list Z :=
  chars "INFO:sizeof_dptr["
  ++ [48 + (SIZEOF_DPTR / 10) mod 10; 48 + SIZEOF_DPTR mod 10; 93; 0].

(** [info_byte_order_big_endian] and [info_byte_order_little_endian],
    lines 18-25: arrays of [uint16_t]. *)
Definition info_byte_order_big_endian : list Z :=
  [0x494E; 0x464F; 0x3A62; 0x7974; 0x655F; 0x6F72; 0x6465; 0x725B;
   0x4249; 0x475F; 0x454E; 0x4449; 0x414E; 0x5D00; 0x0000].
Definition info_byte_order_little_endian : list Z :=
  [0x4E49; 0x4F46; 0x623A; 0x7479; 0x5F65; 0x726F; 0x6564; 0x5B72;
   0x494C; 0x5454; 0x454C; 0x455F; 0x444E; 0x4149; 0x5D4E; 0x0000].

(** The bytes of an array of [uint16_t] in the order in which they lie in
    memory: the high byte of every word first on a big-endian machine, the
    low byte first on a little-endian one. *)
Definition memory_bytes (big_endian : bool) (words : list Z) : list Z :=
  words ≫= λ w, if big_endian then [w / 256; w mod 256] else [w mod 256; w / 256].

(** ** More engines for the examples *)

Section MoreExamples.
#[local] Existing Instance Binary64.
#[local] Existing Instance GateList.

(** The Pauli matrices as [apply_term] lists them. *)
Definition pauli_y : list (list complex_type) :=
  [[c64 0; Complex _ (f64 0) (f64 (-1))]; [Complex _ (f64 0) (f64 1); c64 0]].
Definition pauli_z : list (list complex_type) :=
  [[c64 1; c64 0]; [c64 0; c64 (-1)]].

(** [static_cast<unsigned>(x)] for a double: the value with its fraction
    cut off, where that is a number below 2^32. *)
Definition double_to_unsigned (x : float) : option Z :=
  match FloatOps.Prim2SF x with
  | SpecFloat.S754_zero _ => Some 0
  | SpecFloat.S754_finite sign m e =>
      let n := if decide (0 ≤ e) then Z.pos m * 2 ^ e else Z.pos m / 2 ^ (- e) in
      if sign then (if decide (n = 0) then Some 0 else None)
      else if decide (n < 2 ^ 32) then Some n else None
  | _ => None
  end.

(** [std::exp] at a complex zero, where it is 1 with the imaginary zero of
    its argument.  The examples have no other argument for it. *)
Definition exp_at_zero (z : complex_type) : complex_type := Complex _ (f64 1) (imag z).

(** The helpers on doubles, for the examples: the Pauli matrices, the
    operations of the primitive floats, and the product of two complex
    numbers by the textbook formula. *)
Definition DoubleOps : ExternalOps := {|
  gate_X := pauli_x;
  gate_Y := pauli_y;
  gate_Z := pauli_z;
  calc_opp := PrimFloat.opp;
  calc_abs := PrimFloat.abs;
  to_unsigned := double_to_unsigned;
  of_unsigned := λ n, PrimFloat.of_uint63 (Uint63.of_Z n);
  complex_times := cmul;
  complex_exp := exp_at_zero;
|}.

(** Two qubits, ids 0 and 1, in the state |01>: qubit 0 is set. *)
Definition basis_01 : Simulator :=
  MkSimulator _ _ 2 [c64 0; c64 1; c64 0; c64 0] {[0 := 0; 1 := 1]} [] 4 5.

(** One qubit in the state |1>. *)
Definition one_qubit_set : Simulator :=
  MkSimulator _ _ 1 [c64 0; c64 1] {[0 := 0]} [] 4 5.

(** The four indices of a two-qubit vector on two threads, the second
    thread's sum taken first. *)
Definition two_threads : schedule :=
  Combine Original (Combine (Thread 2 2) (Thread 0 2)).
End MoreExamples.

(** * Properties *)

(** ** Machine arithmetic *)

Lemma shl_size_t_one (n : Z) : 0 ≤ n < 64 → shl_size_t 1 n = 2 ^ n.
Proof.
  intros Hn. unfold shl_size_t, wrap_size_t.
  rewrite Z.shiftl_1_l. apply Z.mod_small.
  split; [apply Z.pow_nonneg; lia|]. apply Z.pow_lt_mono_r; lia.
Qed.

Lemma shl_size_t_bit (b : bool) (n : Z) :
  0 ≤ n < 64 → shl_size_t (bit b) n = if b then 2 ^ n else 0.
Proof.
  intros Hn. destruct b; simpl; [by apply shl_size_t_one|].
  unfold shl_size_t, wrap_size_t. by rewrite Z.shiftl_0_l.
Qed.

Lemma wrap_unsigned_small (x : Z) : 0 ≤ x < 2 ^ 32 → wrap_unsigned x = x.
Proof. apply Z.mod_small. Qed.

Lemma wrap_size_t_small (x : Z) : 0 ≤ x < 2 ^ 64 → wrap_size_t x = x.
Proof. apply Z.mod_small. Qed.

Lemma pow2_pos (n : Z) : 0 ≤ n → 0 < 2 ^ n.
Proof. intros. apply Z.pow_pos_nonneg; lia. Qed.

(** ** The flush *)

Section RunFacts.
Context `{FusionModel}.

Lemma run_map (s : Simulator) : map_ (run s) = map_ s.
Proof. unfold run. by destruct (fusion_is_empty _). Qed.

Lemma run_N (s : Simulator) : N_ (run s) = N_ s.
Proof. unfold run. by destruct (fusion_is_empty _). Qed.

Lemma run_min (s : Simulator) : fusion_qubits_min_ (run s) = fusion_qubits_min_ s.
Proof. unfold run. by destruct (fusion_is_empty _). Qed.

Lemma run_max (s : Simulator) : fusion_qubits_max_ (run s) = fusion_qubits_max_ s.
Proof. unfold run. by destruct (fusion_is_empty _). Qed.

Lemma run_vec_length (s : Simulator) : length (vec_ (run s)) = length (vec_ s).
Proof.
  unfold run. destruct (fusion_is_empty _); [done|]. simpl. apply kernel_length.
Qed.

Lemma run_vsize (s : Simulator) : vsize (vec_ (run s)) = vsize (vec_ s).
Proof. unfold vsize. by rewrite run_vec_length. Qed.

(** After a flush the buffer is empty. *)
Lemma run_fused_empty (s : Simulator) : fusion_is_empty (fused_gates_ (run s)) = true.
Proof.
  unfold run. destruct (fusion_is_empty (fused_gates_ s)) eqn:E; [done|].
  simpl. apply fusion_new_is_empty.
Qed.

(** With nothing pending the flush does nothing. *)
Lemma run_nothing_pending (s : Simulator) :
  fusion_is_empty (fused_gates_ s) = true → run s = s.
Proof. intros E. unfold run. by rewrite E. Qed.

Lemma run_idempotent (s : Simulator) : run (run s) = run s.
Proof. apply run_nothing_pending, run_fused_empty. Qed.

Lemma set_map_same (s : Simulator) : set_map s (map_ s) = s.
Proof. by destruct s. Qed.
End RunFacts.

(** ** Reading a vector through its indices *)

Section VectorFacts.
Context `{CalcType}.

Lemma amp_lookup (v : StateVector) (i : nat) (a : complex_type) :
  v !! i = Some a → amp v (Z.of_nat i) = a.
Proof. intros E. unfold amp. by rewrite Nat2Z.id, E. Qed.

Lemma amp_outside (v : StateVector) (i : Z) : vsize v ≤ i → amp v i = czero.
Proof.
  intros Hi. unfold amp, vsize in *. rewrite lookup_ge_None_2; [done|lia].
Qed.

Lemma lookup_amp (v : StateVector) (i : nat) :
  (i < length v)%nat → v !! i = Some (amp v (Z.of_nat i)).
Proof.
  intros Hi. destruct (lookup_lt_is_Some_2 v i Hi) as [a E].
  by rewrite (amp_lookup _ _ _ E).
Qed.

Lemma vsize_nonneg (v : StateVector) : 0 ≤ vsize v.
Proof. unfold vsize. lia. Qed.

(** The loop of [allocate_qubit] copies the old vector and pads it with
    zeros. *)
Lemma allocate_fill (v : StateVector) (extra : Z) :
  0 ≤ extra →
  (λ i, if decide (i < vsize v) then amp v i else czero) <$> seqZ 0 (vsize v + extra)
  = v ++ replicate (Z.to_nat extra) czero.
Proof.
  intros Hextra. pose proof (vsize_nonneg v) as Hv.
  apply list_eq. intros k. rewrite list_lookup_fmap.
  destruct (decide (k < length v)%nat) as [Hk|Hk].
  - rewrite lookup_seqZ_lt by (unfold vsize in *; lia). simpl.
    rewrite decide_True by (unfold vsize; lia).
    rewrite lookup_app_l by done. by rewrite lookup_amp.
  - rewrite lookup_app_r by lia.
    destruct (decide (Z.of_nat k < vsize v + extra)) as [Hk'|Hk'].
    + rewrite lookup_seqZ_lt by done. simpl.
      rewrite decide_False by (unfold vsize; lia).
      symmetry. apply lookup_replicate_2. unfold vsize in *. lia.
    + rewrite lookup_seqZ_ge by lia. simpl.
      symmetry. apply lookup_replicate_None. unfold vsize in *. lia.
Qed.
End VectorFacts.

(** ** Allocation *)

Section Allocation.
Context `{FusionModel}.

(** C2.  [allocate_qubit(id)] throws when [id] is already in the map, and
    the engine is then exactly as it was.  Otherwise, on an engine whose
    vector has [2^N] entries, the id is mapped to the old count [N], the
    count becomes [N + 1], and the vector becomes the old one followed by
    [2^N] zeros, [2^(N+1)] entries in all; nothing is flushed. *)
Theorem allocate_qubit_spec (id : Z) (s : Simulator) :
  0 ≤ N_ s < 63 →
  vsize (vec_ s) = 2 ^ N_ s →
  match map_ s !! id with
  | Some _ =>
      ∃ e, allocate_qubit id s = Throws e s
  | None =>
      allocate_qubit id s
      = Returns () (MkSimulator _ _ (N_ s + 1)
                      (vec_ s ++ replicate (Z.to_nat (2 ^ N_ s)) czero)
                      (<[id := N_ s]> (map_ s))
                      (fused_gates_ s) (fusion_qubits_min_ s) (fusion_qubits_max_ s))
      ∧ vsize (vec_ s ++ replicate (Z.to_nat (2 ^ N_ s)) czero) = 2 ^ (N_ s + 1)
  end.
Proof.
  intros HN Hsize. unfold allocate_qubit, map_count.
  destruct (map_ s !! id) as [p|] eqn:E.
  - rewrite decide_False by done. eauto.
  - rewrite decide_True by done.
    assert (Hpow : 0 < 2 ^ N_ s) by (apply pow2_pos; lia).
    rewrite wrap_unsigned_small by lia.
    rewrite shl_size_t_one by lia.
    replace (2 ^ (N_ s + 1)) with (vsize (vec_ s) + 2 ^ N_ s)
      by (rewrite Z.pow_add_r by lia; lia).
    rewrite allocate_fill by lia. split; [done|].
    unfold vsize in *. rewrite length_app, length_replicate. lia.
Qed.
End Allocation.

(** ** Gate scheduling *)

Section Scheduling.
Context `{FusionModel}.

(** Scheduling a gate never touches the qubit count or the map. *)
Lemma apply_controlled_gate_frame (m : Matrix) (ids ctrl : list Z) (s : Simulator) :
  ∃ s', apply_controlled_gate m ids ctrl s = Returns () s'
        ∧ N_ s' = N_ s ∧ map_ s' = map_ s.
Proof.
  unfold apply_controlled_gate.
  destruct (_ && _); [|destruct (_ || _)]; eexists; (split; [reflexivity|]);
    simpl; by rewrite ?run_N, ?run_map.
Qed.

(** C3, as the code has it.  With [F'] the buffer after a tentative insert:
    when [min ≤ F'.num_qubits() ≤ max], [F'] is committed and flushed;
    otherwise, when [F'.num_qubits() > max] or when [F'.num_qubits()] less
    the number of target ids of the new gate, computed on 64-bit unsigned
    integers, exceeds [F.num_qubits()], the old buffer is flushed and the
    gate is inserted into the buffer the flush left, which is empty;
    otherwise [F'] is committed and nothing is flushed. *)
Theorem apply_controlled_gate_spec (m : Matrix) (ids ctrl : list Z) (s : Simulator) :
  apply_controlled_gate m ids ctrl s
  = Returns ()
      (if decide (fusion_qubits_min_ s
                    ≤ fusion_num_qubits (fusion_insert m ids ctrl (fused_gates_ s))
                    ≤ fusion_qubits_max_ s)
       then run (set_fused s (fusion_insert m ids ctrl (fused_gates_ s)))
       else if decide (fusion_qubits_max_ s
                         < fusion_num_qubits (fusion_insert m ids ctrl (fused_gates_ s))
                       ∨ fusion_num_qubits (fused_gates_ s)
                         < wrap_size_t
                             (fusion_num_qubits (fusion_insert m ids ctrl (fused_gates_ s))
                              - Z.of_nat (length ids)))
       then set_fused (run s) (fusion_insert m ids ctrl (fused_gates_ (run s)))
       else set_fused s (fusion_insert m ids ctrl (fused_gates_ s)))
  ∧ fusion_is_empty
      (fused_gates_ (run (set_fused s (fusion_insert m ids ctrl (fused_gates_ s))))) = true
  ∧ fusion_is_empty (fused_gates_ (run s)) = true.
Proof.
  split; [|split; apply run_fused_empty].
  unfold apply_controlled_gate.
  repeat case_decide; repeat case_bool_decide; simpl; try done; try lia.
  all: exfalso; intuition lia.
Qed.
End Scheduling.

(** ** Bits of an index *)

Lemma land_shiftr_one (x p : Z) :
  0 ≤ p → Z.land (Z.shiftr x p) 1 = bit (Z.testbit x p).
Proof.
  intros Hp. change 1 with (Z.ones 1). rewrite Z.land_ones by lia.
  change (2 ^ 1) with 2. rewrite <- Z.bit0_mod, Z.shiftr_spec by lia.
  rewrite Z.add_0_l. by destruct (Z.testbit x p).
Qed.

Lemma outcome_bit (pick p : Z) :
  0 ≤ p → bool_decide (Z.land (Z.shiftr pick p) 1 = 1) = Z.testbit pick p.
Proof.
  intros Hp. rewrite land_shiftr_one by done.
  by destruct (Z.testbit pick p).
Qed.

Lemma all_ones_testbit (p : Z) : 0 ≤ p < 64 → Z.testbit (2 ^ 64 - 1) p = true.
Proof.
  intros Hp. change (2 ^ 64 - 1) with (Z.ones 64). apply Z.ones_spec_low. lia.
Qed.

(** ** In-place loops over the vector *)

Section Loops.
Context `{CalcType}.

Lemma vset_amp_same (w : StateVector) (i : Z) : vset w i (amp w i) = w.
Proof.
  unfold vset, amp. destruct (w !! Z.to_nat i) as [a|] eqn:E; simpl.
  - by apply list_insert_id.
  - apply list_insert_ge. by apply lookup_ge_None.
Qed.

Lemma amp_app_middle (pre post : StateVector) (x : complex_type) :
  amp (pre ++ x :: post) (Z.of_nat (length pre)) = x.
Proof.
  unfold amp. rewrite Nat2Z.id, lookup_app_r by lia.
  by rewrite Nat.sub_diag.
Qed.

Lemma vset_app_middle (pre post : StateVector) (x y : complex_type) :
  vset (pre ++ x :: post) (Z.of_nat (length pre)) y = (pre ++ [y]) ++ post.
Proof.
  unfold vset. rewrite Nat2Z.id, insert_app_r_alt by lia.
  rewrite Nat.sub_diag. simpl. by rewrite <- app_assoc.
Qed.

Lemma amp_app_after (pre post : StateVector) (x y : complex_type) (i : Z) :
  Z.of_nat (length pre) < i →
  amp ((pre ++ [y]) ++ post) i = amp (pre ++ x :: post) i.
Proof.
  intros Hi. unfold amp. rewrite <- app_assoc. simpl.
  rewrite !lookup_app_r by lia.
  destruct (Z.to_nat i - length pre)%nat as [|k] eqn:E; [lia|done].
Qed.

Lemma foldl_agree {A B} (f g : A → B → A) (l : list B) (a : A) :
  (∀ a x, x ∈ l → f a x = g a x) → foldl f a l = foldl g a l.
Proof.
  revert a. induction l as [|x l IH]; intros a Hfg; simpl; [done|].
  rewrite Hfg by left. apply IH. intros a' y Hy. apply Hfg. by right.
Qed.

(** A loop that rewrites entry [i] from its own old value and feeds an
    accumulator from that same old value: the vector ends up mapped entry
    by entry, and the accumulator is what a read-only pass over the
    original vector gives. *)
Lemma inplace_loop_acc {A} (f : Z → complex_type → complex_type)
    (g : Z → complex_type → A → A) (body : Z → StateVector * A → StateVector * A) :
  (∀ i w acc, body i (w, acc) = (vset w i (f i (amp w i)), g i (amp w i) acc)) →
  ∀ (v pre : StateVector) (a0 : A),
    foldl (λ a i, body i a) (pre ++ v, a0)
          (seqZ (Z.of_nat (length pre)) (Z.of_nat (length v)))
    = (pre ++ imap (λ i x, f (Z.of_nat (length pre + i)) x) v,
       foldl (λ acc i, g i (amp (pre ++ v) i) acc) a0
             (seqZ (Z.of_nat (length pre)) (Z.of_nat (length v)))).
Proof.
  intros Hbody v. induction v as [|x v IH]; intros pre a0.
  - simpl. by rewrite app_nil_r.
  - rewrite (seqZ_cons _ (Z.of_nat (length (x :: v)))) by (simpl; lia).
    simpl foldl. rewrite Hbody, amp_app_middle, vset_app_middle.
    replace (Z.pred (Z.of_nat (S (length v)))) with (Z.of_nat (length v)) by lia.
    replace (Z.succ (Z.of_nat (length pre))) with (Z.of_nat (length (pre ++ [f (Z.of_nat (length pre)) x])))
      by (rewrite length_app; simpl; lia).
    rewrite IH. f_equal.
    + rewrite <- app_assoc. simpl. f_equal. rewrite Nat.add_0_r. f_equal.
      apply imap_ext. intros i y _. simpl. f_equal.
      rewrite length_app. simpl. lia.
    + apply foldl_agree. intros acc i Hi.
      apply elem_of_seqZ in Hi. rewrite length_app in Hi. simpl in Hi.
      rewrite (amp_app_after pre v x) by lia. done.
Qed.

Lemma inplace_loop (f : Z → complex_type → complex_type)
    (body : Z → StateVector → StateVector) :
  (∀ i w, body i w = vset w i (f i (amp w i))) →
  ∀ v pre : StateVector,
    foldl (λ a i, body i a) (pre ++ v)
          (seqZ (Z.of_nat (length pre)) (Z.of_nat (length v)))
    = pre ++ imap (λ i x, f (Z.of_nat (length pre + i)) x) v.
Proof.
  intros Hbody v. induction v as [|x v IH]; intros pre.
  - simpl. by rewrite app_nil_r.
  - rewrite (seqZ_cons _ (Z.of_nat (length (x :: v)))) by (simpl; lia).
    simpl foldl. rewrite Hbody, amp_app_middle, vset_app_middle.
    replace (Z.pred (Z.of_nat (S (length v)))) with (Z.of_nat (length v)) by lia.
    replace (Z.succ (Z.of_nat (length pre))) with (Z.of_nat (length (pre ++ [f (Z.of_nat (length pre)) x])))
      by (rewrite length_app; simpl; lia).
    rewrite IH. rewrite <- app_assoc. simpl. f_equal. rewrite Nat.add_0_r. f_equal.
    apply imap_ext. intros i y _. simpl. f_equal.
    rewrite length_app. simpl. lia.
Qed.

Lemma zero_bad_spec (mask val : Z) (v : StateVector) :
  zero_bad mask val v = (zeroed mask val v, matching_norm mask val v).
Proof.
  unfold zero_bad, matching_norm, for_each_index, vsize.
  pose proof (inplace_loop_acc
    (λ i a, if decide (Z.land i mask ≠ val) then czero else a)
    (λ i a n, if decide (Z.land i mask = val) then calc_add n (norm a) else n)
    (λ i '(w, n), if decide (Z.land i mask ≠ val) then (vset w i czero, n)
                  else (w, calc_add n (norm (amp w i))))) as L.
  specialize (L ltac:(intros i w acc; simpl; repeat case_decide; try done;
                      by rewrite vset_amp_same) v [] calc_zero).
  etrans; [exact L|]. done.
Qed.

Lemma zeroed_length (mask val : Z) (v : StateVector) :
  length (zeroed mask val v) = length v.
Proof. apply length_imap. Qed.
End Loops.

(** ** Looking up positions *)

Lemma map_index_position (m : Map) (id : Z) : (map_index m id).2 = position_of m id.
Proof. unfold map_index, position_of. by destruct (m !! id). Qed.

Lemma map_index_mapped (m : Map) (id : Z) :
  is_Some (m !! id) → map_index m id = (m, position_of m id).
Proof. intros [p E]. unfold map_index, position_of. by rewrite E. Qed.

Lemma map_index_fst_mapped (m : Map) (id : Z) :
  is_Some (m !! id) → (map_index m id).1 = m.
Proof. intros Hid. by rewrite map_index_mapped. Qed.

Lemma position_of_map_index (m : Map) (id id' : Z) :
  position_of (map_index m id).1 id' = position_of m id'.
Proof.
  unfold map_index, position_of. destruct (m !! id) as [p|] eqn:E; simpl; [done|].
  destruct (decide (id = id')) as [->|Hne].
  - by rewrite lookup_insert_eq, E.
  - by rewrite lookup_insert_ne.
Qed.

Lemma lookup_positions_snd (m : Map) (ids : list Z) :
  (lookup_positions m ids).2 = position_of m <$> ids.
Proof.
  revert m. induction ids as [|id ids IH]; intros m; simpl; [done|].
  pose proof (map_index_position m id) as Hp.
  pose proof (position_of_map_index m id) as Hq.
  destruct (map_index m id) as [m1 p]. simpl in *.
  specialize (IH m1). destruct (lookup_positions m1 ids) as [m2 ps]. simpl in *.
  subst. f_equal. apply list_fmap_ext. intros _ id' _. apply Hq.
Qed.

Lemma lookup_positions_mapped (m : Map) (ids : list Z) :
  Forall (λ id, is_Some (m !! id)) ids →
  lookup_positions m ids = (m, position_of m <$> ids).
Proof.
  induction 1 as [|id ids Hid _ IH]; simpl; [done|].
  by rewrite map_index_mapped, IH.
Qed.

(** Every entry of the map after the look-ups was there before, or is a
    queried id that was missing and now sits at position 0. *)
Lemma lookup_positions_fst (m : Map) (ids : list Z) (id p : Z) :
  (lookup_positions m ids).1 !! id = Some p →
  m !! id = Some p ∨ (m !! id = None ∧ id ∈ ids ∧ p = 0).
Proof.
  revert m. induction ids as [|id0 ids IH]; intros m; simpl; [by left|].
  unfold map_index at 1. destruct (m !! id0) as [p0|] eqn:E.
  - specialize (IH m). destruct (lookup_positions m ids) as [m2 ps]. simpl in *.
    intros Hl. destruct (IH Hl) as [?|(?&?&?)]; [by left|].
    right. repeat split; [done| |done]. by right.
  - specialize (IH (<[id0 := 0]> m)).
    destruct (lookup_positions (<[id0 := 0]> m) ids) as [m2 ps]. simpl in *.
    intros Hl. destruct (IH Hl) as [Hin|(Hn&?&?)].
    + destruct (decide (id0 = id)) as [->|Hne].
      * rewrite lookup_insert_eq in Hin. right. repeat split; [done|by left|congruence].
      * rewrite lookup_insert_ne in Hin by done. by left.
    + destruct (decide (id0 = id)) as [->|Hne].
      * by rewrite lookup_insert_eq in Hn.
      * rewrite lookup_insert_ne in Hn by done.
        right. repeat split; [done| |done]. by right.
Qed.

(** ** Decoding the outcome *)

Section Decode.
Context `{FusionModel}.

Lemma decode_from (pick : Z) (positions : list Z) (res0 : list bool) (mask0 val0 : Z) :
  foldl (λ '(res, mask, val) p,
           let r := bool_decide (Z.land (Z.shiftr pick p) 1 = 1) in
           (res ++ [r], Z.lor mask (shl_size_t 1 p), Z.lor val (shl_size_t (bit r) p)))
        (res0, mask0, val0) positions
  = (res0 ++ (outcome_at pick <$> positions),
     (foldl (λ '(mask, val) '(p, b),
               (Z.lor mask (shl_size_t 1 p), Z.lor val (shl_size_t (bit b) p)))
            (mask0, val0) (zip positions (outcome_at pick <$> positions))).1,
     (foldl (λ '(mask, val) '(p, b),
               (Z.lor mask (shl_size_t 1 p), Z.lor val (shl_size_t (bit b) p)))
            (mask0, val0) (zip positions (outcome_at pick <$> positions))).2).
Proof.
  revert res0 mask0 val0.
  induction positions as [|p ps IH]; intros res0 mask0 val0; simpl.
  - by rewrite app_nil_r.
  - rewrite IH. by rewrite <- app_assoc.
Qed.

Lemma decode_spec (pick : Z) (positions : list Z) :
  decode pick positions
  = (outcome_at pick <$> positions,
     (mask_val positions (outcome_at pick <$> positions)).1,
     (mask_val positions (outcome_at pick <$> positions)).2).
Proof. unfold decode, mask_val. by rewrite decode_from. Qed.

(** ** The cumulative scan *)

Lemma pick_scan_spec (rnd : calc_type) (rest : StateVector) (P : calc_type) (pick : Z) :
  ∃ m : nat,
    pick_scan rnd rest P pick
    = (foldl calc_add P (norm <$> take m rest), pick + Z.of_nat m)
    ∧ (m ≤ length rest)%nat
    ∧ (∀ j, (j < m)%nat → calc_ltb (foldl calc_add P (norm <$> take j rest)) rnd = true)
    ∧ (m = length rest ∨ calc_ltb (foldl calc_add P (norm <$> take m rest)) rnd = false).
Proof.
  revert P pick. induction rest as [|a rest IH]; intros P pick; simpl.
  - exists 0%nat. simpl. rewrite Z.add_0_r. split_and!; [done|lia|lia|by left].
  - destruct (calc_ltb P rnd) eqn:E.
    + destruct (IH (calc_add P (norm a)) (pick + 1)) as (m & Hm & Hle & Hbelow & Hstop).
      exists (S m). simpl. rewrite Hm. split_and!.
      * f_equal. lia.
      * lia.
      * intros [|j] Hj; simpl; [done|]. apply Hbelow. lia.
      * destruct Hstop as [->|Hstop]; [by left|by right].
    + exists 0%nat. simpl. rewrite Z.add_0_r. split_and!; [done|lia|lia|by right].
Qed.
End Decode.

(** ** Measurement *)

Section Measurement.
Context `{FusionModel}.

(** Once the scan has stopped after consuming [m ≥ 1] entries, the engine
    is left as the spec describes for the index [m - 1]. *)
Lemma measure_qubits_unfold (ids : list Z) (rnd : calc_type) (s : Simulator) :
  measure_qubits ids rnd s
  = measurement_result
      (wrap_size_t ((pick_scan rnd (vec_ (run s)) calc_zero 0).2 - 1)) ids (run s).
Proof.
  unfold measure_qubits, measurement_result.
  pose proof (lookup_positions_snd (map_ (run s)) ids) as Hps.
  destruct (lookup_positions (map_ (run s)) ids) as [m positions].
  simpl in Hps. subst positions.
  destruct (pick_scan rnd (vec_ (run s)) calc_zero 0) as [P pick]. simpl.
  rewrite decode_spec, zero_bad_spec. done.
Qed.

(** C10.  When the drawn number is 0 the scan stops at once with
    [pick = 0], the unsigned decrement wraps to [2^64 - 1], and every
    reported outcome is 1, whatever the wavefunction holds. *)
Theorem measure_qubits_zero_draw (ids : list Z) (s : Simulator) :
  (∀ id p, map_ s !! id = Some p → 0 ≤ p < 64) →
  pick_scan calc_zero (vec_ (run s)) calc_zero 0 = (calc_zero, 0)
  ∧ wrap_size_t (0 - 1) = 2 ^ 64 - 1
  ∧ returned (measure_qubits ids calc_zero s) = Some (replicate (length ids) true).
Proof.
  intros Hrange.
  assert (Hscan : pick_scan calc_zero (vec_ (run s)) calc_zero 0 = (calc_zero, 0)).
  { destruct (vec_ (run s)) as [|a v]; simpl; [done|].
    by rewrite calc_zero_not_below_zero. }
  split_and!; [done|done|].
  rewrite measure_qubits_unfold, Hscan. simpl. f_equal.
  change (wrap_size_t (0 - 1)) with (2 ^ 64 - 1).
  rewrite run_map. clear Hscan.
  induction ids as [|id ids IH]; simpl; [done|]. f_equal; [|done].
  unfold outcome_at. rewrite outcome_bit.
  - apply all_ones_testbit. unfold position_of.
    destruct (map_ s !! id) as [p|] eqn:E; simpl; [by eapply Hrange|lia].
  - unfold position_of.
    destruct (map_ s !! id) as [p|] eqn:E; simpl; [by eapply Hrange|lia].
Qed.

(** C1, as the code has it.  For a drawn number above 0 and a non-empty
    vector, [measure_qubits] flushes the pending gates and then selects
    the first index [pick] whose cumulative sum is not below the drawn
    number, or the last index when every cumulative sum is below it; it
    reports [(pick >> p_i) & 1] for each queried qubit, zeroes every
    amplitude whose index disagrees with the mask and value built from
    those outcomes, and multiplies every amplitude by [1/√N], [N] being
    the squared norm of the amplitudes that were kept. *)
Theorem measure_qubits_spec (ids : list Z) (rnd : calc_type) (s : Simulator) :
  calc_ltb calc_zero rnd = true →
  0 < vsize (vec_ s) < 2 ^ 64 →
  ∃ pick : nat,
    (pick < length (vec_ (run s)))%nat
    ∧ (∀ k, (k < pick)%nat → calc_ltb (running_sum (vec_ (run s)) (S k)) rnd = true)
    ∧ (calc_ltb (running_sum (vec_ (run s)) (S pick)) rnd = false
       ∨ S pick = length (vec_ (run s)))
    ∧ measure_qubits ids rnd s = measurement_result (Z.of_nat pick) ids (run s).
Proof.
  intros Hrnd Hsize. rewrite <- run_vsize in Hsize.
  rewrite measure_qubits_unfold.
  destruct (pick_scan_spec rnd (vec_ (run s)) calc_zero 0)
    as (m & Hscan & Hle & Hbelow & Hstop).
  rewrite Hscan. simpl.
  destruct m as [|pick].
  { exfalso. simpl in *. destruct Hstop as [Hstop|Hstop].
    - unfold vsize in Hsize. lia.
    - congruence. }
  exists pick. unfold vsize in Hsize.
  replace (wrap_size_t (0 + Z.of_nat (S pick) - 1)) with (Z.of_nat pick)
    by (rewrite wrap_size_t_small; lia).
  split_and!.
  - lia.
  - intros k Hk. apply Hbelow. lia.
  - destruct Hstop as [Hstop|Hstop]; [by right|by left].
  - done.
Qed.
End Measurement.

(** ** Collapse onto a given outcome *)

Section CollapseWavefunction.
Context `{FusionModel}.

Lemma check_ids_true (m : Map) (ids : list Z) :
  check_ids m ids = true ↔ Forall (λ id, is_Some (m !! id)) ids.
Proof.
  unfold check_ids. rewrite forallb_forall, Forall_forall.
  split; intros Hall id Hid.
  - apply list_elem_of_In, Hall in Hid. apply bool_decide_eq_true in Hid.
    unfold map_count in Hid. destruct (m !! id); [eauto|done].
  - apply list_elem_of_In, Hall in Hid as [p E]. apply bool_decide_eq_true.
    unfold map_count. by rewrite E.
Qed.

Lemma check_ids_false (m : Map) (ids : list Z) :
  check_ids m ids = false ↔ ∃ id, id ∈ ids ∧ m !! id = None.
Proof.
  rewrite <- not_true_iff_false, check_ids_true, <- Exists_Forall_neg.
  - rewrite Exists_exists. split; intros (id & Hid & Hn); exists id; split; try done.
    + destruct (m !! id); [|done]. exfalso. eauto.
    + rewrite Hn. by intros [? ?].
  - intros id. destruct (m !! id); [left; eauto|right; by intros [? ?]].
Qed.

Lemma collapse_loop (mask val : Z) (x : calc_type) (v : StateVector) :
  for_each_index (vsize v)
    (λ i w, if decide (Z.land i mask ≠ val) then vset w i czero
            else vset w i (cscale (amp w i) x)) v
  = collapsed mask val x v.
Proof.
  pose proof (inplace_loop
    (λ i a, if decide (Z.land i mask ≠ val) then czero else cscale a x)
    (λ i w, if decide (Z.land i mask ≠ val) then vset w i czero
            else vset w i (cscale (amp w i) x))) as L.
  specialize (L ltac:(intros i w; simpl; by case_decide) v []).
  etrans; [exact L|]. done.
Qed.

(** Whatever the arguments, the call throws from the flushed engine or
    returns the flushed engine with a new vector. *)
Lemma collapse_wavefunction_outcome (ids : list Z) (values : list bool) (s : Simulator) :
  (∃ e, collapse_wavefunction ids values s = Throws e (run s))
  ∨ (∃ v, collapse_wavefunction ids values s = Returns () (set_vec (run s) v)).
Proof.
  unfold collapse_wavefunction.
  case_decide; [left; eauto|].
  destruct (check_ids (map_ (run s)) ids) eqn:Hchk; simpl; [|left; eauto].
  apply check_ids_true in Hchk.
  rewrite (lookup_positions_mapped _ _ Hchk), set_map_same.
  destruct (mask_val _ _) as [mask val].
  destruct (calc_ltb _ _); [left; eauto|right; eauto].
Qed.

(** C5, as the code has it.  [collapse_wavefunction(ids, values)] first
    flushes the pending gates.  It then throws exactly when the two lists
    differ in length, or some id is not in the map, or the probability [P]
    of the requested outcome is below the tolerance; in each of these cases
    the engine is left as the flush left it.  Otherwise every amplitude
    whose index disagrees with the requested outcome becomes zero and every
    other one is multiplied by [1/√P]. *)
Theorem collapse_wavefunction_spec (ids : list Z) (values : list bool) (s : Simulator) :
  let positions := position_of (map_ s) <$> ids in
  let mask := (mask_val positions values).1 in
  let val := (mask_val positions values).2 in
  let P := matching_norm mask val (vec_ (run s)) in
  (is_Some (thrown (collapse_wavefunction ids values s))
   ↔ length ids ≠ length values
     ∨ (∃ id, id ∈ ids ∧ map_ s !! id = None)
     ∨ calc_ltb P default_tol_ = true)
  ∧ (is_Some (thrown (collapse_wavefunction ids values s)) →
     final_state (collapse_wavefunction ids values s) = run s)
  ∧ (thrown (collapse_wavefunction ids values s) = None →
     collapse_wavefunction ids values s
     = Returns () (set_vec (run s)
                     (collapsed mask val (calc_div calc_one (calc_sqrt P)) (vec_ (run s))))).
Proof.
  intros positions mask val P. subst positions mask val P.
  unfold collapse_wavefunction. rewrite <- (run_map s).
  destruct (decide (length ids ≠ length values)) as [Hlen|Hlen]; simpl.
  { split_and!; [|done|done]. split; [by left|eauto]. }
  destruct (check_ids (map_ (run s)) ids) eqn:Hchk; simpl.
  2:{ apply check_ids_false in Hchk.
      split_and!; [|done|done]. split; [by right; left|eauto]. }
  assert (Hmapped := proj1 (check_ids_true _ _) Hchk).
  rewrite (lookup_positions_mapped _ _ Hmapped), set_map_same.
  destruct (mask_val (position_of (map_ (run s)) <$> ids) values) as [mask val] eqn:Hmv.
  simpl.
  destruct (calc_ltb (matching_norm mask val (vec_ (run s))) default_tol_) eqn:Htol; simpl.
  { split_and!; [|done|done]. split; [by right; right|eauto]. }
  split_and!.
  - split; [by intros [? ?]|].
    intros [?|[(id & Hid & Hn)|?]]; [done| |congruence].
    rewrite Forall_forall in Hmapped. destruct (Hmapped id Hid). congruence.
  - by intros [? ?].
  - intros _. by rewrite collapse_loop.
Qed.
End CollapseWavefunction.

(** ** The index pairs of a stride loop *)

Section Strides.
Context `{FusionModel}.

Lemma bit_b2z (b : bool) : bit b = Z.b2z b.
Proof. by destruct b. Qed.

Lemma testbit_div (k pos : Z) (b : bool) :
  0 ≤ pos → Z.testbit k pos = b ↔ (k / 2 ^ pos) mod 2 = bit b.
Proof.
  intros Hpos. pose proof (Z.testbit_spec' k pos Hpos) as Hs.
  rewrite <- Hs. destruct (Z.testbit k pos), b; simpl; split; (done || lia).
Qed.

Lemma strides_count (n delta : Z) :
  0 < delta → 0 ≤ n → (n * (2 * delta) + 2 * delta - 1) / (2 * delta) = n.
Proof.
  intros Hd Hn. symmetry. apply (Z.div_unique _ _ n (2 * delta - 1)); lia.
Qed.

Lemma elem_of_stride_pairs (n delta i j : Z) :
  0 < delta → 0 ≤ n →
  (i, j) ∈ stride_pairs (n * (2 * delta)) delta
  ↔ ∃ a, 0 ≤ a < n ∧ i = a * (2 * delta) ∧ 0 ≤ j < delta.
Proof.
  intros Hd Hn. unfold stride_pairs, strides.
  rewrite strides_count by done. rewrite list_elem_of_bind. split.
  - intros (i' & Hj & Hi). apply list_elem_of_fmap in Hj as (j' & Hij & Hj).
    apply list_elem_of_fmap in Hi as (a & -> & Ha).
    apply elem_of_seqZ in Hj, Ha. inversion Hij; subst. exists a. lia.
  - intros (a & Ha & -> & Hj). exists (a * (2 * delta)). split.
    + apply list_elem_of_fmap. exists j. split; [done|]. apply elem_of_seqZ. lia.
    + apply list_elem_of_fmap. exists a. split; [done|]. apply elem_of_seqZ. lia.
Qed.

(** An index splits into its stride, its bit at the position, and its
    offset below the position. *)
Lemma index_split (delta k : Z) :
  0 < delta →
  k = k / (2 * delta) * (2 * delta) + (k / delta) mod 2 * delta + k mod delta.
Proof.
  intros Hd.
  pose proof (Z.div_mod k delta ltac:(lia)) as Hk.
  pose proof (Z.div_mod (k / delta) 2 ltac:(lia)) as Hq.
  rewrite (Z.mul_comm 2 delta), <- Z.div_div by lia. lia.
Qed.

Lemma index_bit (delta a b j : Z) :
  0 < delta → 0 ≤ j < delta → 0 ≤ b < 2 →
  ((a * (2 * delta) + j + b * delta) / delta) mod 2 = b.
Proof.
  intros Hd Hj Hb.
  replace (a * (2 * delta) + j + b * delta) with ((2 * a + b) * delta + j) by lia.
  rewrite Z.div_add_l by lia. rewrite (Z.div_small j) by lia.
  rewrite Z.add_0_r, Z.add_comm, Z.mul_comm, Z.mod_add by lia.
  apply Z.mod_small. lia.
Qed.

(** Every index of the vector is visited by the loop nest, on the side of
    its own bit. *)
Lemma pair_of_index (n pos k : Z) :
  0 ≤ pos → 0 ≤ n → 0 ≤ k < n * (2 * 2 ^ pos) →
  ∃ i j, (i, j) ∈ stride_pairs (n * (2 * 2 ^ pos)) (2 ^ pos)
         ∧ k = i + j + bit (Z.testbit k pos) * 2 ^ pos.
Proof.
  intros Hpos Hn Hk. pose proof (pow2_pos pos Hpos) as Hd.
  exists (k / (2 * 2 ^ pos) * (2 * 2 ^ pos)), (k mod 2 ^ pos). split.
  - apply elem_of_stride_pairs; [done..|]. exists (k / (2 * 2 ^ pos)).
    split_and!; [| |done|..]; try apply Z.mod_pos_bound; try done.
    + apply Z.div_pos; lia.
    + apply Z.div_lt_upper_bound; lia.
  - rewrite bit_b2z, Z.testbit_spec' by done.
    pose proof (index_split (2 ^ pos) k Hd). lia.
Qed.

Lemma index_of_pair (n pos i j : Z) (b : bool) :
  0 ≤ pos → 0 ≤ n →
  (i, j) ∈ stride_pairs (n * (2 * 2 ^ pos)) (2 ^ pos) →
  0 ≤ i + j + bit b * 2 ^ pos < n * (2 * 2 ^ pos)
  ∧ Z.testbit (i + j + bit b * 2 ^ pos) pos = b.
Proof.
  intros Hpos Hn Hin. pose proof (pow2_pos pos Hpos) as Hd.
  apply elem_of_stride_pairs in Hin as (a & Ha & -> & Hj); [|done..].
  assert (Hb : 0 ≤ bit b < 2) by (destruct b; simpl; lia).
  split; [nia|].
  apply testbit_div; [done|]. by apply index_bit.
Qed.

Lemma pow2_split (N pos : Z) :
  0 ≤ pos < N → 2 ^ N = 2 ^ (N - pos - 1) * (2 * 2 ^ pos).
Proof.
  intros Hp. rewrite <- Z.pow_succ_r, <- Z.pow_add_r by lia.
  f_equal. lia.
Qed.
End Strides.

(** ** Loops that write at computed indices *)

Section Writes.
Context `{CalcType}.

Lemma foldl_vset_length {X} (body : StateVector → X → StateVector)
    (idx : X → Z) (valf : X → complex_type) :
  (∀ w x, body w x = vset w (idx x) (valf x)) →
  ∀ l v, length (foldl body v l) = length v.
Proof.
  intros Hbody l. induction l as [|x l IH]; intros v; simpl; [done|].
  rewrite IH, Hbody. apply length_insert.
Qed.

(** An index that no iteration writes keeps its entry. *)
Lemma foldl_vset_miss {X} (body : StateVector → X → StateVector)
    (idx : X → Z) (valf : X → complex_type) (k : nat) :
  (∀ w x, body w x = vset w (idx x) (valf x)) →
  ∀ l v, (∀ x, x ∈ l → Z.to_nat (idx x) ≠ k) → foldl body v l !! k = v !! k.
Proof.
  intros Hbody l. induction l as [|x l IH]; intros v Hmiss; simpl; [done|].
  rewrite IH by (intros y Hy; apply Hmiss; by right).
  rewrite Hbody. apply list_lookup_insert_ne. apply Hmiss. by left.
Qed.

(** An index that some iteration writes, all of them with the same value,
    ends up holding that value. *)
Lemma foldl_vset_hit {X} (body : StateVector → X → StateVector)
    (idx : X → Z) (valf : X → complex_type) (k : nat) (a : complex_type) :
  (∀ w x, body w x = vset w (idx x) (valf x)) →
  ∀ l v,
    (∀ x, x ∈ l → Z.to_nat (idx x) = k → valf x = a) →
    (∃ x, x ∈ l ∧ Z.to_nat (idx x) = k) →
    (k < length v)%nat →
    foldl body v l !! k = Some a.
Proof.
  intros Hbody l. induction l as [|x l IH] using rev_ind; intros v Hsame Hhit Hk.
  { destruct Hhit as (x & Hx & _). by apply elem_of_nil in Hx. }
  rewrite foldl_app. simpl. rewrite Hbody. unfold vset.
  destruct (decide (Z.to_nat (idx x) = k)) as [Hx|Hx].
  - rewrite Hx, list_lookup_insert_eq
      by (by rewrite (foldl_vset_length body idx valf Hbody)).
    f_equal. apply Hsame; [|done]. apply elem_of_app. right. by left.
  - rewrite list_lookup_insert_ne by done. apply IH; [|  |done].
    + intros y Hy. apply Hsame. apply elem_of_app. by left.
    + destruct Hhit as (y & Hy & Hyk). exists y. split; [|done].
      apply elem_of_app in Hy as [Hy|Hy]; [done|].
      apply list_elem_of_singleton in Hy. by subst.
Qed.
End Writes.

(** ** Collapse of one qubit *)

Section CollapseVector.
Context `{FusionModel}.

Lemma collapse_loop_keep (n pos : Z) (value : bool) (v : StateVector) :
  0 ≤ pos → 0 ≤ n → vsize v = n * (2 * 2 ^ pos) →
  foldl (λ w '(i, j), vset w (i + j + bit (negb value) * 2 ^ pos) czero)
        v (stride_pairs (vsize v) (2 ^ pos))
  = kept pos value v.
Proof.
  intros Hpos Hn Hsize. rewrite Hsize.
  set (body := λ (w : StateVector) '(i, j),
                 vset w (i + j + bit (negb value) * 2 ^ pos) czero).
  assert (Hbody : ∀ w x, body w x
            = vset w (x.1 + x.2 + bit (negb value) * 2 ^ pos) ((λ _, czero) x))
    by (by intros w [i j]).
  apply list_eq. intros k. unfold kept. rewrite list_lookup_imap.
  destruct (decide (k < length v)%nat) as [Hk|Hk].
  2:{ rewrite !lookup_ge_None_2; [done|lia|].
      rewrite (foldl_vset_length body _ _ Hbody). lia. }
  rewrite (lookup_amp v k Hk). simpl.
  assert (Hkz : 0 ≤ Z.of_nat k < n * (2 * 2 ^ pos)) by (unfold vsize in Hsize; lia).
  destruct (decide (Z.testbit (Z.of_nat k) pos = value)) as [Hbit|Hbit].
  - rewrite (foldl_vset_miss body _ _ k Hbody); [by apply lookup_amp|].
    intros [i j] Hin Hidx. simpl in Hidx.
    destruct (index_of_pair n pos i j (negb value) Hpos Hn Hin) as [Hr Hb].
    replace (i + j + bit (negb value) * 2 ^ pos) with (Z.of_nat k) in Hb by lia.
    rewrite Hbit in Hb. by destruct value.
  - apply (foldl_vset_hit body _ _ k czero Hbody); [done| |done].
    destruct (pair_of_index n pos (Z.of_nat k) Hpos Hn Hkz) as (i & j & Hin & Heq).
    exists (i, j). split; [done|]. simpl.
    replace (negb value) with (Z.testbit (Z.of_nat k) pos)
      by (destruct (Z.testbit (Z.of_nat k) pos), value; done).
    lia.
Qed.

(** C9, as the code has it.  For a mapped id, [collapse_vector(id, value,
    false)] flushes the pending gates and then sets to zero exactly the
    amplitudes whose index has the other bit at the qubit's position; the
    amplitudes on the kept half are those the flush left, not renormalised.
    The size of the vector, the qubit count and the map are those the call
    found, and with no gate pending the flush changes nothing. *)
Theorem collapse_vector_no_shrink (id pos : Z) (value : bool) (s : Simulator) :
  0 ≤ N_ s < 64 →
  vsize (vec_ s) = 2 ^ N_ s →
  map_ s !! id = Some pos →
  0 ≤ pos < N_ s →
  collapse_vector id value false s
  = Returns () (set_vec (run s) (kept pos value (vec_ (run s))))
  ∧ N_ (run s) = N_ s
  ∧ map_ (run s) = map_ s
  ∧ length (kept pos value (vec_ (run s))) = length (vec_ s)
  ∧ (fusion_is_empty (fused_gates_ s) = true → run s = s).
Proof.
  intros HN Hsize Hid Hpos.
  split_and!; [|apply run_N|apply run_map| |apply run_nothing_pending].
  - unfold collapse_vector. rewrite run_map.
    rewrite map_index_mapped by eauto.
    unfold position_of. rewrite Hid. simpl.
    rewrite shl_size_t_one by lia.
    rewrite <- (run_map s), set_map_same.
    rewrite (collapse_loop_keep (2 ^ (N_ s - pos - 1)) pos); [done|lia| |].
    + apply Z.pow_nonneg. lia.
    + rewrite run_vsize, Hsize. by apply pow2_split.
  - unfold kept. by rewrite length_imap, run_vec_length.
Qed.
End CollapseVector.

(** ** Classical qubits *)

Section Classical.
Context `{FusionModel}.

Lemma has_mass_from (tol : calc_type) (v : StateVector) (off : Z)
    (pairs : list (Z * Z)) (acc : bool) :
  foldl (λ acc '(i, j), acc || calc_ltb tol (norm (amp v (i + j + off)))) acc pairs
  = acc || existsb (λ '(i, j), calc_ltb tol (norm (amp v (i + j + off)))) pairs.
Proof.
  revert acc. induction pairs as [|[i j] pairs IH]; intros acc; simpl.
  - by rewrite orb_false_r.
  - by rewrite IH, orb_assoc.
Qed.

Lemma has_mass_true (tol : calc_type) (v : StateVector) (off : Z) (pairs : list (Z * Z)) :
  has_mass tol v off pairs = true
  ↔ ∃ i j, (i, j) ∈ pairs ∧ calc_ltb tol (norm (amp v (i + j + off))) = true.
Proof.
  unfold has_mass. rewrite has_mass_from. simpl. rewrite existsb_exists. split.
  - intros ([i j] & Hin & Hm). exists i, j. by rewrite list_elem_of_In.
  - intros (i & j & Hin & Hm). exists (i, j). by rewrite <- list_elem_of_In.
Qed.

(** The flag computed over the pairs is the mass of a half of the vector. *)
Lemma has_mass_half (tol : calc_type) (v : StateVector) (n pos : Z) (b : bool) :
  0 ≤ pos → 0 ≤ n → vsize v = n * (2 * 2 ^ pos) →
  has_mass tol v (bit b * 2 ^ pos) (stride_pairs (vsize v) (2 ^ pos)) = true
  ↔ half_has_mass tol v pos b.
Proof.
  intros Hpos Hn Hsize. rewrite has_mass_true, Hsize. unfold half_has_mass. split.
  - intros (i & j & Hin & Hm).
    destruct (index_of_pair n pos i j b Hpos Hn Hin) as [Hr Hb].
    exists (i + j + bit b * 2 ^ pos). by rewrite Hsize.
  - intros (k & Hk & Hb & Hm). rewrite Hsize in Hk.
    destruct (pair_of_index n pos k Hpos Hn Hk) as (i & j & Hin & Heq).
    exists i, j. split; [done|]. rewrite Hb in Heq. by rewrite <- Heq.
Qed.

(** What the early-return scan of [get_classical_value] found. *)
Lemma classical_scan_spec (tol : calc_type) (v : StateVector) (delta : Z)
    (pairs : list (Z * Z)) :
  match classical_scan tol v delta pairs with
  | Some false => has_mass tol v 0 pairs = true
  | Some true => has_mass tol v delta pairs = true
  | None => has_mass tol v 0 pairs = false ∧ has_mass tol v delta pairs = false
  end.
Proof.
  unfold has_mass. rewrite !has_mass_from. simpl.
  induction pairs as [|[i j] pairs IH]; simpl; [done|].
  rewrite Z.add_0_r.
  destruct (calc_ltb tol (norm (amp v (i + j)))); simpl; [done|].
  destruct (calc_ltb tol (norm (amp v (i + j + delta)))); simpl; [done|].
  done.
Qed.

(** When exactly one half has mass, the scan returns the bit of that half. *)
Lemma classical_scan_classical (tol : calc_type) (v : StateVector) (delta : Z)
    (pairs : list (Z * Z)) :
  xorb (has_mass tol v 0 pairs) (has_mass tol v delta pairs) = true →
  classical_scan tol v delta pairs = Some (has_mass tol v delta pairs).
Proof.
  intros Hx. pose proof (classical_scan_spec tol v delta pairs) as Hs.
  destruct (classical_scan tol v delta pairs) as [[|]|].
  - rewrite Hs in *. done.
  - rewrite Hs in *. by destruct (has_mass tol v delta pairs).
  - destruct Hs as [Hup Hdown]. by rewrite Hup, Hdown in Hx.
Qed.

Lemma is_classical_mapped (id pos : Z) (tol : calc_type) (s : Simulator) :
  map_ s !! id = Some pos → 0 ≤ pos < 64 →
  is_classical id tol s
  = Returns (xorb (has_mass tol (vec_ (run s)) 0
                     (stride_pairs (vsize (vec_ (run s))) (2 ^ pos)))
                  (has_mass tol (vec_ (run s)) (2 ^ pos)
                     (stride_pairs (vsize (vec_ (run s))) (2 ^ pos))))
            (run s).
Proof.
  intros Hid Hpos. unfold is_classical. rewrite run_map.
  rewrite map_index_mapped by eauto. unfold position_of. rewrite Hid. simpl.
  rewrite shl_size_t_one by done.
  by rewrite <- (run_map s), set_map_same.
Qed.

Lemma get_classical_value_mapped (id pos : Z) (tol : calc_type) (s : Simulator) :
  map_ s !! id = Some pos → 0 ≤ pos < 64 →
  get_classical_value id tol s
  = match classical_scan tol (vec_ (run s)) (2 ^ pos)
            (stride_pairs (vsize (vec_ (run s))) (2 ^ pos)) with
    | Some b => Returns b (run s)
    | None =>
        Throws (runtime_error
          "Get classical value: internal error, should not have come here...") (run s)
    end.
Proof.
  intros Hid Hpos. unfold get_classical_value. rewrite run_map.
  rewrite map_index_mapped by eauto. unfold position_of. rewrite Hid. simpl.
  rewrite shl_size_t_one by done.
  by rewrite <- (run_map s), set_map_same.
Qed.
End Classical.

(** ** Deallocation *)

Section Deallocation.
Context `{FusionModel}.

Lemma half_size (n delta : Z) : n * (2 * delta) / 2 = n * delta.
Proof. replace (n * (2 * delta)) with (n * delta * 2) by lia. apply Z.div_mul. lia. Qed.

(** The copy loop of the shrinking collapse fills the whole new vector,
    whatever the recycled buffer held before. *)
Lemma collapse_loop_shrink (n pos : Z) (value : bool) (v newvec : StateVector) :
  0 ≤ pos → 0 ≤ n → vsize v = n * (2 * 2 ^ pos) →
  length newvec = Z.to_nat (n * 2 ^ pos) →
  foldl (λ w '(i, j), vset w (i / 2 + j) (amp v (i + bit value * 2 ^ pos + j)))
        newvec (stride_pairs (vsize v) (2 ^ pos))
  = shrunk pos value v.
Proof.
  intros Hpos Hn Hsize Hnew. pose proof (pow2_pos pos Hpos) as Hd.
  unfold shrunk. rewrite Hsize, half_size.
  set (body := λ (w : StateVector) '(i, j),
                 vset w (i / 2 + j) (amp v (i + bit value * 2 ^ pos + j))).
  assert (Hbody : ∀ w x, body w x
            = vset w (x.1 / 2 + x.2) (amp v (x.1 + bit value * 2 ^ pos + x.2)))
    by (by intros w [i j]).
  apply list_eq. intros k. rewrite list_lookup_fmap.
  destruct (decide (Z.of_nat k < n * 2 ^ pos)) as [Hk|Hk].
  2:{ rewrite lookup_seqZ_ge by lia. simpl. apply lookup_ge_None_2.
      rewrite (foldl_vset_length body _ _ Hbody). lia. }
  rewrite lookup_seqZ_lt by done. rewrite Z.add_0_l. simpl.
  apply (foldl_vset_hit body _ _ k _ Hbody); [| |lia].
  - intros [i j] Hin Hidx. simpl in *.
    apply elem_of_stride_pairs in Hin as (a & Ha & -> & Hj); [|done..].
    rewrite half_size in Hidx.
    assert (Hkz : Z.of_nat k = a * 2 ^ pos + j) by nia.
    f_equal. unfold insert_bit. rewrite Hkz.
    rewrite Z.div_add_l, (Z.div_small j), Z.add_0_r by lia.
    rewrite (Z.add_comm (a * 2 ^ pos) j), Z.mod_add, (Z.mod_small j) by lia. lia.
  - exists (Z.of_nat k / 2 ^ pos * (2 * 2 ^ pos), Z.of_nat k mod 2 ^ pos). split.
    + apply elem_of_stride_pairs; [done..|]. exists (Z.of_nat k / 2 ^ pos).
      split_and!; [| |done|..]; try apply Z.mod_pos_bound; try done.
      * apply Z.div_pos; lia.
      * apply Z.div_lt_upper_bound; lia.
    + simpl. rewrite half_size.
      pose proof (Z.div_mod (Z.of_nat k) (2 ^ pos) ltac:(lia)). lia.
Qed.

(** The inserted bit is the bit of the result at that position. *)
Lemma insert_bit_testbit (pos k : Z) (b : bool) :
  0 ≤ pos → Z.testbit (insert_bit pos b k) pos = b.
Proof.
  intros Hpos. pose proof (pow2_pos pos Hpos) as Hd.
  apply testbit_div; [done|]. unfold insert_bit.
  replace (k / 2 ^ pos * (2 * 2 ^ pos) + bit b * 2 ^ pos + k mod 2 ^ pos)
    with (k / 2 ^ pos * (2 * 2 ^ pos) + k mod 2 ^ pos + bit b * 2 ^ pos) by lia.
  apply index_bit; [done|by apply Z.mod_pos_bound|destruct b; simpl; lia].
Qed.

Lemma shrunk_vsize (pos : Z) (value : bool) (v : StateVector) :
  vsize (shrunk pos value v) = vsize v / 2.
Proof.
  unfold shrunk, vsize. rewrite length_fmap, length_seqZ.
  rewrite Z2Nat.id; [done|]. apply Z.div_pos; lia.
Qed.

(** The shrinking collapse on a flushed engine. *)
Lemma collapse_vector_shrink (id pos : Z) (value : bool) (s : Simulator) :
  0 ≤ N_ s < 64 →
  vsize (vec_ s) = 2 ^ N_ s →
  (∀ id p, map_ s !! id = Some p → 0 ≤ p < N_ s) →
  map_ s !! id = Some pos →
  collapse_vector id value true s
  = Returns () (MkSimulator _ _ (N_ s - 1) (shrunk pos value (vec_ (run s)))
                  (delete id ((λ p, if decide (pos < p) then p - 1 else p) <$> map_ s))
                  (fused_gates_ (run s)) (fusion_qubits_min_ s) (fusion_qubits_max_ s)).
Proof.
  intros HN Hsize Hrange Hid. pose proof (Hrange _ _ Hid) as Hpos.
  unfold collapse_vector. rewrite run_map, run_N.
  rewrite map_index_mapped by eauto.
  unfold position_of. rewrite Hid. simpl.
  rewrite shl_size_t_one by lia.
  rewrite wrap_size_t_small by lia.
  rewrite shl_size_t_one by lia.
  rewrite wrap_unsigned_small by lia.
  rewrite (collapse_loop_shrink (2 ^ (N_ s - pos - 1)) pos).
  - unfold set_N, set_vec, set_map. simpl. rewrite run_min, run_max.
    do 3 f_equal. apply map_fmap_ext. intros id' p Hp.
    apply Hrange in Hp. case_decide; [|done].
    apply wrap_unsigned_small. lia.
  - lia.
  - apply Z.pow_nonneg. lia.
  - rewrite run_vsize, Hsize. by apply pow2_split.
  - rewrite length_replicate. f_equal.
    rewrite <- Z.pow_add_r by lia. f_equal. lia.
Qed.

(** C7, as the code has it.  [deallocate_qubit(id)] flushes the pending
    gates and throws when [id] is not in the map.  For a mapped id at
    position [pos] it throws the not-measured error when the two halves of
    the vector along [pos] both have mass above the tolerance, and also
    when neither has.  When exactly one half has mass, the half with bit
    [value], it returns: the vector becomes that half, compacted to half
    the size, [id] leaves the map, the positions above [pos] move down by
    one and the qubit count drops by one. *)
Theorem deallocate_qubit_spec (id : Z) (s : Simulator) :
  0 ≤ N_ s < 64 →
  vsize (vec_ s) = 2 ^ N_ s →
  (∀ id p, map_ s !! id = Some p → 0 ≤ p < N_ s) →
  match map_ s !! id with
  | None => deallocate_qubit id s = Throws unknown_qubit_error (run s)
  | Some pos =>
      ((half_has_mass default_tol_ (vec_ (run s)) pos false
        ↔ half_has_mass default_tol_ (vec_ (run s)) pos true) →
       deallocate_qubit id s = Throws not_classical_error (run s))
      ∧ (∀ value,
           half_has_mass default_tol_ (vec_ (run s)) pos value →
           ¬ half_has_mass default_tol_ (vec_ (run s)) pos (negb value) →
           deallocate_qubit id s
           = Returns ()
               (MkSimulator _ _ (N_ s - 1) (shrunk pos value (vec_ (run s)))
                  (delete id ((λ p, if decide (pos < p) then p - 1 else p) <$> map_ s))
                  (fused_gates_ (run s)) (fusion_qubits_min_ s) (fusion_qubits_max_ s))
           ∧ vsize (shrunk pos value (vec_ (run s))) = vsize (vec_ s) / 2
           ∧ delete id ((λ p, if decide (pos < p) then p - 1 else p) <$> map_ s) !! id
             = None)
  end.
Proof.
  intros HN Hsize Hrange. unfold deallocate_qubit, map_count. rewrite run_map.
  destruct (map_ s !! id) as [pos|] eqn:Hid; [|by rewrite decide_True].
  rewrite decide_False by (intros ?; lia).
  pose proof (Hrange _ _ Hid) as Hpos.
  assert (Hsplit : vsize (vec_ (run s)) = 2 ^ (N_ s - pos - 1) * (2 * 2 ^ pos))
    by (rewrite run_vsize, Hsize; by apply pow2_split).
  assert (Hn : 0 ≤ 2 ^ (N_ s - pos - 1)) by (apply Z.pow_nonneg; lia).
  rewrite (is_classical_mapped id pos) by (rewrite ?run_map; (done || lia)).
  rewrite run_idempotent.
  set (up := has_mass _ _ 0 _). set (down := has_mass _ _ (2 ^ pos) _).
  assert (Hup : up = true ↔ half_has_mass default_tol_ (vec_ (run s)) pos false).
  { rewrite <- (has_mass_half _ _ (2 ^ (N_ s - pos - 1)) pos false) by (done || lia).
    subst up. simpl. done. }
  assert (Hdown : down = true ↔ half_has_mass default_tol_ (vec_ (run s)) pos true).
  { rewrite <- (has_mass_half _ _ (2 ^ (N_ s - pos - 1)) pos true) by (done || lia).
    subst down. simpl. by rewrite Z.mul_1_l. }
  split.
  - intros Hboth. replace (xorb up down) with false; [done|].
    destruct up, down; simpl; try done; exfalso.
    + assert (false = true); [|done]. apply Hdown, Hboth, Hup. done.
    + assert (false = true); [|done]. apply Hup, Hboth, Hdown. done.
  - intros value Hhas Hnot.
    assert (Hx : xorb up down = true ∧ down = value).
    { destruct value; simpl in *.
      - apply Hdown in Hhas. rewrite Hhas.
        destruct up; [|done]. exfalso. apply Hnot, Hup. done.
      - apply Hup in Hhas. rewrite Hhas.
        destruct down; [|done]. exfalso. apply Hnot, Hdown. done. }
    destruct Hx as [Hx Hv]. rewrite Hx. simpl.
    rewrite (get_classical_value_mapped id pos) by (rewrite ?run_map; (done || lia)).
    rewrite run_idempotent.
    fold up down. rewrite (classical_scan_classical _ _ _ _ Hx). fold down.
    rewrite Hv.
    rewrite (collapse_vector_shrink id pos)
      by (rewrite ?run_N, ?run_vsize, ?run_map; done).
    rewrite run_idempotent, run_N, run_map, run_min, run_max.
    split_and!; [done| |apply lookup_delete_eq].
    by rewrite shrunk_vsize, run_vsize.
Qed.
End Deallocation.

(** ** Masks *)

Section Masks.

Lemma lor_below (a b n : Z) :
  0 ≤ n → 0 ≤ a < 2 ^ n → 0 ≤ b < 2 ^ n → 0 ≤ Z.lor a b < 2 ^ n.
Proof.
  intros Hn Ha Hb. split; [apply Z.lor_nonneg; lia|].
  assert (Hl : Z.land (Z.lor a b) (Z.ones n) = Z.lor a b).
  { rewrite Z.land_lor_distr_l, !Z.land_ones by done.
    by rewrite !Z.mod_small by done. }
  rewrite Z.land_ones in Hl by done. rewrite <- Hl.
  apply Z.mod_pos_bound. by apply pow2_pos.
Qed.

Lemma mask_val_from (positions : list Z) (values : list bool) (mask0 val0 : Z) :
  foldl (λ '(mask, val) '(p, b),
           (Z.lor mask (shl_size_t 1 p), Z.lor val (shl_size_t (bit b) p)))
        (mask0, val0) (zip positions values)
  = (foldl (λ mask p, Z.lor mask (shl_size_t 1 p)) mask0
           (take (length values) positions),
     foldl (λ val '(p, b), Z.lor val (shl_size_t (bit b) p)) val0
           (zip positions values)).
Proof.
  revert values mask0 val0.
  induction positions as [|p ps IH]; intros [|b values] mask0 val0; simpl; [done..|].
  apply IH.
Qed.

(** The mask holds exactly the bits of the positions. *)
Lemma mask_testbit (positions : list Z) (mask0 b : Z) :
  Forall (λ p, 0 ≤ p < 64) positions → 0 ≤ b →
  Z.testbit (foldl (λ mask p, Z.lor mask (shl_size_t 1 p)) mask0 positions) b
  = Z.testbit mask0 b || bool_decide (b ∈ positions).
Proof.
  intros Hps Hb. revert mask0.
  induction Hps as [|p ps Hp _ IH]; intros mask0; simpl.
  - by rewrite orb_false_r.
  - rewrite IH, Z.lor_spec, shl_size_t_one, Z.pow2_bits_eqb by lia.
    rewrite <- orb_assoc. f_equal.
    destruct (Z.eqb_spec p b) as [->|Hne]; simpl.
    + symmetry. apply bool_decide_eq_true. by left.
    + apply bool_decide_ext. rewrite elem_of_cons.
      split; [by right|]. by intros [->|Hin].
Qed.

Lemma mask_below (positions : list Z) (mask0 n : Z) :
  0 ≤ n < 64 → Forall (λ p, 0 ≤ p < n) positions → 0 ≤ mask0 < 2 ^ n →
  0 ≤ foldl (λ mask p, Z.lor mask (shl_size_t 1 p)) mask0 positions < 2 ^ n.
Proof.
  intros Hn Hps. revert mask0.
  induction Hps as [|p ps Hp _ IH]; intros mask0 Hm; simpl; [done|].
  apply IH. apply lor_below; [lia|done|].
  rewrite shl_size_t_one by lia. split; [apply Z.pow_nonneg; lia|].
  apply Z.pow_lt_mono_r; lia.
Qed.

(** The mask is full exactly when every position is listed. *)
Lemma mask_full (positions : list Z) (n : Z) :
  0 ≤ n < 64 → Forall (λ p, 0 ≤ p < n) positions →
  foldl (λ mask p, Z.lor mask (shl_size_t 1 p)) 0 positions = 2 ^ n - 1
  ↔ ∀ b, 0 ≤ b < n → b ∈ positions.
Proof.
  intros Hn Hps.
  assert (Hps64 : Forall (λ p, 0 ≤ p < 64) positions)
    by (eapply Forall_impl; [done|]; simpl; lia).
  split.
  - intros Hfull b Hb.
    pose proof (mask_testbit positions 0 b Hps64 ltac:(lia)) as Ht.
    rewrite Hfull in Ht. change (2 ^ n - 1) with (Z.pred (2 ^ n)) in Ht.
    rewrite <- Z.ones_equiv, Z.ones_spec_low, Z.bits_0 in Ht by lia.
    simpl in Ht. symmetry in Ht. by apply bool_decide_eq_true in Ht.
  - intros Hall. change (2 ^ n - 1) with (Z.pred (2 ^ n)).
    rewrite <- Z.ones_equiv. apply Z.bits_inj'. intros b Hb.
    rewrite mask_testbit, Z.bits_0 by done. simpl.
    destruct (decide (b < n)) as [Hlt|Hge].
    + rewrite Z.ones_spec_low by lia. apply bool_decide_eq_true. apply Hall. lia.
    + rewrite Z.ones_spec_high by lia. apply bool_decide_eq_false.
      intros Hin. rewrite Forall_forall in Hps. apply Hps in Hin. lia.
Qed.
End Masks.

(** ** Amplitude queries *)

Section Amplitude.
Context `{FusionModel}.

Lemma amplitude_index_mapped (m : Map) (bit_string : list bool) (ids : list Z)
    (i : nat) (chk index : Z) :
  Forall (λ id, is_Some (m !! id)) ids →
  (i + length ids ≤ length bit_string)%nat →
  amplitude_index m bit_string ids i chk index
  = foldl (λ '(mask, val) '(p, b),
             (Z.lor mask (shl_size_t 1 p), Z.lor val (shl_size_t (bit b) p)))
          (chk, index) (zip (position_of m <$> ids) (drop i bit_string)).
Proof.
  intros Hmapped. revert i chk index.
  induction Hmapped as [|id ids [p Hid] _ IH]; intros i chk index Hlen; simpl in *.
  - done.
  - unfold map_count. rewrite Hid. rewrite decide_False by done.
    destruct (lookup_lt_is_Some_2 bit_string i ltac:(lia)) as [b Hb].
    rewrite (drop_S _ _ _ Hb), Hb. simpl. apply IH. lia.
Qed.

(** Under a bijective map, the listed positions cover [0 .. N-1] exactly
    when the listed ids cover the keys. *)
Lemma positions_cover (m : Map) (n : Z) (ids : list Z) :
  map_bijection m n →
  Forall (λ id, is_Some (m !! id)) ids →
  (∀ b, 0 ≤ b < n → b ∈ position_of m <$> ids)
  ↔ (∀ id, is_Some (m !! id) → id ∈ ids).
Proof.
  intros (Hrange & Hinj & Hsurj) Hmapped. rewrite Forall_forall in Hmapped. split.
  - intros Hcover id [p Hid].
    specialize (Hcover p (Hrange _ _ Hid)).
    apply list_elem_of_fmap in Hcover as (id' & Hp & Hin).
    destruct (Hmapped id' Hin) as [p' Hid']. unfold position_of in Hp.
    rewrite Hid' in Hp. simpl in Hp. subst p'.
    by rewrite (Hinj id id' p Hid Hid').
  - intros Hcover b Hb. destruct (Hsurj b Hb) as [id Hid].
    apply list_elem_of_fmap. exists id. split; [|apply Hcover; eauto].
    unfold position_of. by rewrite Hid.
Qed.

(** C6, as the code has it.  For ids that are pairwise distinct and all
    mapped, each with its bit, [get_amplitude(bits, ids)] flushes the pending
    gates and then
    throws exactly when the ids are not a permutation of all allocated
    ids, that is, when the OR of [1 << M[ids_i]] is not [2^N - 1];
    otherwise it returns the amplitude of the flushed vector at the OR of
    [bits_i << M[ids_i]].  Either way the engine is left as the flush left
    it, with the map untouched, and with no gate pending that is the engine
    the call found. *)
Theorem get_amplitude_spec (bit_string : list bool) (ids : list Z) (s : Simulator) :
  0 ≤ N_ s < 64 →
  vsize (vec_ s) = 2 ^ N_ s →
  map_bijection (map_ s) (N_ s) →
  NoDup ids →
  Forall (λ id, is_Some (map_ s !! id)) ids →
  (length ids ≤ length bit_string)%nat →
  (is_Some (thrown (get_amplitude bit_string ids s))
   ↔ ¬ permutation_of_allocated (map_ s) ids)
  ∧ (is_Some (thrown (get_amplitude bit_string ids s))
     ↔ (mask_val (position_of (map_ s) <$> ids) bit_string).1 ≠ 2 ^ N_ s - 1)
  ∧ (thrown (get_amplitude bit_string ids s) = None →
     returned (get_amplitude bit_string ids s)
     = Some (amp (vec_ (run s))
               (mask_val (position_of (map_ s) <$> ids) bit_string).2))
  ∧ final_state (get_amplitude bit_string ids s) = run s
  ∧ map_ (run s) = map_ s
  ∧ (fusion_is_empty (fused_gates_ s) = true → run s = s).
Proof.
  intros HN Hsize Hbij Hnodup Hmapped Hlen.
  unfold get_amplitude. rewrite run_map, run_vsize, Hsize.
  rewrite amplitude_index_mapped by (done || lia).
  rewrite drop_0. fold (mask_val (position_of (map_ s) <$> ids) bit_string).
  destruct (mask_val (position_of (map_ s) <$> ids) bit_string) as [mask index] eqn:Hmv.
  assert (Hmask : mask = foldl (λ mask p, Z.lor mask (shl_size_t 1 p)) 0
                           (position_of (map_ s) <$> ids)).
  { unfold mask_val in Hmv. rewrite mask_val_from in Hmv.
    rewrite take_ge in Hmv by (rewrite length_fmap; lia). congruence. }
  assert (Hps : Forall (λ p, 0 ≤ p < N_ s) (position_of (map_ s) <$> ids)).
  { apply Forall_fmap. eapply Forall_impl; [exact Hmapped|].
    intros id [p Hid]. simpl. unfold position_of. rewrite Hid. simpl.
    destruct Hbij as [Hrange _]. by eapply Hrange. }
  assert (Hbound : 0 ≤ mask < 2 ^ N_ s).
  { rewrite Hmask. apply mask_below; [done|done|].
    split; [done|]. apply pow2_pos. lia. }
  assert (Hpow : 2 ^ N_ s ≤ 2 ^ 63) by (apply Z.pow_le_mono_r; lia).
  assert (Hfull : mask = 2 ^ N_ s - 1 ↔ permutation_of_allocated (map_ s) ids).
  { rewrite Hmask, mask_full by done. rewrite positions_cover by done.
    unfold permutation_of_allocated. rewrite Forall_forall in Hmapped.
    split; [|intros [_ Hp] id Hid; by apply Hp].
    intros Hcover. split; [done|]. intros id. split; [apply Hmapped|apply Hcover]. }
  simpl.
  rewrite wrap_size_t_small by (change (2 ^ 64) with (2 * 2 ^ 63); lia).
  destruct (decide (mask + 1 ≠ 2 ^ N_ s)) as [Hne|Heq]; simpl.
  - split_and!; [| |done|done|done|apply run_nothing_pending].
    + split; [|eauto]. intros _ Hperm. apply Hfull in Hperm. lia.
    + split; [|eauto]. intros _. lia.
  - split_and!; [| |done|done|done|apply run_nothing_pending].
    + split; [by intros [? ?]|]. intros Hperm. exfalso. apply Hperm, Hfull. lia.
    + split; [by intros [? ?]|]. intros Hm. lia.
Qed.
End Amplitude.

(** ** The qubit map as a bijection *)

Section MapBijection.

Lemma map_bijection_delete_top (m : Map) (n id : Z) :
  0 ≤ n → map_bijection m (n + 1) → m !! id = Some n →
  map_bijection (delete id m) n.
Proof.
  intros Hn (Hrange & Hinj & Hsurj) Hid. split_and!.
  - intros id' p Hp. apply lookup_delete_Some in Hp as [Hne Hp].
    pose proof (Hrange _ _ Hp). destruct (decide (p = n)) as [->|]; [|lia].
    destruct Hne. by apply (Hinj id id' n).
  - intros id1 id2 p H1 H2.
    apply lookup_delete_Some in H1 as [_ H1], H2 as [_ H2]. by apply (Hinj _ _ p).
  - intros p Hp. destruct (Hsurj p ltac:(lia)) as [id' Hid'].
    exists id'. apply lookup_delete_Some. split; [|done].
    intros <-. rewrite Hid in Hid'. injection Hid'. lia.
Qed.

(** A bijection onto [0 .. n-1] has [n] keys. *)
Lemma map_bijection_size (m : Map) (n : Z) :
  0 ≤ n → map_bijection m n → Z.of_nat (size m) = n.
Proof.
  intros Hn. revert m. pattern n. apply natlike_ind; [| |done]; clear n Hn.
  - intros m (Hrange & _ & _). replace m with (∅ : Map); [by rewrite map_size_empty|].
    symmetry. apply map_empty. intros id.
    destruct (m !! id) as [p|] eqn:E; [|done]. apply Hrange in E. lia.
  - intros n Hn IH m Hbij. replace (Z.succ n) with (n + 1) in * by lia.
    destruct Hbij as (Hrange & Hinj & Hsurj).
    destruct (Hsurj n ltac:(lia)) as [id Hid].
    rewrite <- (insert_delete_id m id n Hid).
    rewrite map_size_insert_None by apply lookup_delete_eq.
    rewrite Nat2Z.inj_succ, (IH (delete id m)); [lia|].
    by apply map_bijection_delete_top.
Qed.

(** [map_[id] = N_++] keeps the bijection. *)
Lemma map_bijection_allocate (m : Map) (n id : Z) :
  0 ≤ n → map_bijection m n → m !! id = None →
  map_bijection (<[id := n]> m) (n + 1).
Proof.
  intros Hn (Hrange & Hinj & Hsurj) Hid. split_and!.
  - intros id' p Hp. apply lookup_insert_Some in Hp as [[_ <-]|[_ Hp]]; [lia|].
    apply Hrange in Hp. lia.
  - intros id1 id2 p H1 H2.
    apply lookup_insert_Some in H1 as [[<- <-]|[Hn1 H1]];
      apply lookup_insert_Some in H2 as [[<- H2]|[Hn2 H2]]; try done.
    + apply Hrange in H2. lia.
    + apply Hrange in H1. lia.
    + by apply (Hinj _ _ p).
  - intros p Hp. destruct (decide (p = n)) as [->|Hne].
    + exists id. apply lookup_insert_eq.
    + destruct (Hsurj p ltac:(lia)) as [id' Hid']. exists id'.
      rewrite lookup_insert_ne; [done|]. intros <-. congruence.
Qed.

(** The map update of the shrinking collapse keeps the bijection. *)
Lemma map_bijection_shrink (m : Map) (n id pos : Z) :
  0 ≤ n < 2 ^ 32 → map_bijection m n → m !! id = Some pos →
  map_bijection
    (delete id ((λ p, if decide (pos < p) then wrap_unsigned (p - 1) else p) <$> m))
    (n - 1).
Proof.
  intros Hn (Hrange & Hinj & Hsurj) Hid. pose proof (Hrange _ _ Hid) as Hpos.
  assert (Hdec : ∀ id' p', delete id ((λ p, if decide (pos < p) then wrap_unsigned (p - 1)
                                       else p) <$> m) !! id' = Some p'
            ↔ id ≠ id' ∧ ∃ p, m !! id' = Some p
                              ∧ p' = if decide (pos < p) then p - 1 else p).
  { intros id' p'. rewrite lookup_delete_Some, lookup_fmap_Some.
    split; intros [Hne (p & H1 & H2)]; (split; [done|]); exists p.
    - split; [done|]. subst p'. case_decide; [|done].
      apply Hrange in H2. apply wrap_unsigned_small. lia.
    - split; [|done]. subst p'. case_decide; [|done].
      apply Hrange in H1. apply wrap_unsigned_small. lia. }
  split_and!.
  - intros id' p' Hp. apply Hdec in Hp as (Hne & p & Hp & ->).
    pose proof (Hrange _ _ Hp).
    assert (p ≠ pos) by (intros ->; destruct Hne; by apply (Hinj id id' pos)).
    case_decide; lia.
  - intros id1 id2 p' H1 H2.
    apply Hdec in H1 as (Hn1 & p1 & H1 & E1), H2 as (Hn2 & p2 & H2 & E2).
    assert (p1 ≠ pos) by (intros ->; destruct Hn1; by apply (Hinj id id1 pos)).
    assert (p2 ≠ pos) by (intros ->; destruct Hn2; by apply (Hinj id id2 pos)).
    apply (Hinj _ _ p1); [done|]. replace p1 with p2; [done|].
    repeat case_decide; lia.
  - intros q Hq.
    destruct (decide (q < pos)) as [Hlt|Hge].
    + destruct (Hsurj q ltac:(lia)) as [id' Hid']. exists id'. apply Hdec.
      split; [intros <-; rewrite Hid in Hid'; injection Hid'; lia|].
      exists q. split; [done|]. rewrite decide_False; lia.
    + destruct (Hsurj (q + 1) ltac:(lia)) as [id' Hid']. exists id'. apply Hdec.
      split; [intros <-; rewrite Hid in Hid'; injection Hid'; lia|].
      exists (q + 1). split; [done|]. rewrite decide_True; lia.
Qed.

(** The loop [map_[ordering[i]] = i] over a list without repeats. *)
Lemma set_ordering (m : Map) (ordering : list Z) :
  NoDup ordering →
  (∀ i id, ordering !! i = Some id →
     foldl (λ m '(i, id), <[id := Z.of_nat i]> m) m
           (imap (λ i id, (i, id)) ordering) !! id = Some (Z.of_nat i))
  ∧ (∀ id, id ∉ ordering →
       foldl (λ m '(i, id), <[id := Z.of_nat i]> m) m
             (imap (λ i id, (i, id)) ordering) !! id = m !! id).
Proof.
  induction ordering as [|x l IH] using rev_ind; intros Hnodup.
  { split; [by intros i id Hi|done]. }
  apply NoDup_app in Hnodup as (Hl & Hx & _). destruct (IH Hl) as [IH1 IH2].
  rewrite imap_app, foldl_app. simpl. rewrite Nat.add_0_r. split.
  - intros i id Hi. apply lookup_app_Some in Hi as [Hi|[Hlen Hi]].
    + rewrite lookup_insert_ne; [by apply IH1|].
      intros ->. apply (Hx id); [|by left]. by eapply list_elem_of_lookup_2.
    + apply list_lookup_singleton_Some in Hi as [Hi ->].
      rewrite lookup_insert_eq. do 2 f_equal. lia.
  - intros id Hid. rewrite not_elem_of_app in Hid. destruct Hid as [Hid Hne].
    rewrite lookup_insert_ne; [by apply IH2|].
    intros ->. apply Hne. by left.
Qed.

(** After [set_wavefunction] has accepted a list without repeats, the map
    is the bijection that sends the [i]-th listed id to position [i]. *)
Lemma map_bijection_set_ordering (m : Map) (n : Z) (ordering : list Z) :
  0 ≤ n → map_bijection m n → NoDup ordering →
  size m = length ordering →
  Forall (λ id, is_Some (m !! id)) ordering →
  map_bijection
    (foldl (λ m '(i, id), <[id := Z.of_nat i]> m) m (imap (λ i id, (i, id)) ordering)) n.
Proof.
  intros Hn Hbij Hnodup Hsize Hmapped.
  pose proof (map_bijection_size m n Hn Hbij) as Hcount.
  destruct (set_ordering m ordering Hnodup) as [Hin Hout].
  assert (Hkeys : ∀ id, is_Some (m !! id) → id ∈ ordering).
  { assert (Heq : list_to_set ordering = dom m :> gset Z).
    { apply set_subseteq_size_eq.
      - intros id Hid. apply elem_of_list_to_set in Hid. apply elem_of_dom.
        rewrite Forall_forall in Hmapped. by apply Hmapped.
      - rewrite size_dom, size_list_to_set by done. lia. }
    intros id Hid. apply elem_of_dom in Hid. rewrite <- Heq in Hid.
    by apply elem_of_list_to_set in Hid. }
  assert (Hlookup : ∀ id p,
            foldl (λ m '(i, id), <[id := Z.of_nat i]> m) m
                  (imap (λ i id, (i, id)) ordering) !! id = Some p
            ↔ ∃ i, ordering !! i = Some id ∧ p = Z.of_nat i).
  { intros id p. split.
    - intros Hp. destruct (decide (id ∈ ordering)) as [Hid|Hid].
      + apply list_elem_of_lookup in Hid as [i Hi]. exists i. split; [done|].
        rewrite (Hin _ _ Hi) in Hp. congruence.
      + rewrite (Hout _ Hid) in Hp. destruct Hid. apply Hkeys. eauto.
    - intros (i & Hi & ->). by apply Hin. }
  split_and!.
  - intros id p Hp. apply Hlookup in Hp as (i & Hi & ->).
    apply lookup_lt_Some in Hi. lia.
  - intros id1 id2 p H1 H2.
    apply Hlookup in H1 as (i1 & H1 & ->), H2 as (i2 & H2 & E).
    apply Nat2Z.inj in E. subst i2. congruence.
  - intros p Hp.
    destruct (lookup_lt_is_Some_2 ordering (Z.to_nat p) ltac:(lia)) as [id Hid].
    exists id. apply Hlookup. exists (Z.to_nat p). split; [done|lia].
Qed.
End MapBijection.

(** ** The invariant of the qubit map *)

Section Invariant.
Context `{FusionModel}.

Lemma is_classical_state (id : Z) (tol : calc_type) (s : Simulator) :
  ∃ c, is_classical id tol s = Returns c (set_map (run s) (map_index (map_ s) id).1).
Proof.
  unfold is_classical. rewrite run_map.
  destruct (map_index (map_ s) id) as [m pos]. eauto.
Qed.

Lemma get_classical_value_state (id : Z) (tol : calc_type) (s : Simulator) :
  final_state (get_classical_value id tol s)
  = set_map (run s) (map_index (map_ s) id).1.
Proof.
  unfold get_classical_value. rewrite run_map.
  destruct (map_index (map_ s) id) as [m pos]. by destruct (classical_scan _ _ _ _).
Qed.

Lemma collapse_vector_state (id : Z) (value shrink : bool) (s : Simulator) :
  ∃ s', collapse_vector id value shrink s = Returns () s'
        ∧ N_ s' = (if shrink then wrap_unsigned (N_ s - 1) else N_ s)
        ∧ map_ s'
          = if shrink
            then delete id ((λ p, if decide ((map_index (map_ s) id).2 < p)
                                  then wrap_unsigned (p - 1) else p)
                              <$> (map_index (map_ s) id).1)
            else (map_index (map_ s) id).1.
Proof.
  unfold collapse_vector. rewrite run_map, run_N.
  destruct (map_index (map_ s) id) as [m pos].
  destruct shrink; simpl; eexists; (split; [reflexivity|]); simpl;
    by rewrite ?run_N.
Qed.

Lemma completed_final {A} (o : outcome Simulator A) (s' : Simulator) :
  completed o = Some s' → final_state o = s'.
Proof. destruct o; simpl; congruence. Qed.

Lemma map_invariant_frame (s s' : Simulator) :
  N_ s' = N_ s → map_ s' = map_ s → map_invariant s → map_invariant s'.
Proof. unfold map_invariant. by intros -> ->. Qed.

Lemma map_invariant_run (s : Simulator) : map_invariant s → map_invariant (run s).
Proof. apply map_invariant_frame; [apply run_N|apply run_map]. Qed.

Lemma map_invariant_shrink (id : Z) (value : bool) (s s' : Simulator) :
  map_invariant s → is_Some (map_ s !! id) →
  completed (collapse_vector id value true s) = Some s' → map_invariant s'.
Proof.
  intros [HN Hbij] [pos Hid] Hdone.
  destruct (collapse_vector_state id value true s) as (s1 & Heq & HN1 & Hmap1).
  rewrite Heq in Hdone. simpl in Hdone. injection Hdone as <-.
  rewrite map_index_mapped in Hmap1 by eauto. simpl in Hmap1.
  unfold position_of in Hmap1. rewrite Hid in Hmap1. simpl in Hmap1.
  destruct Hbij as (Hrange & Hinj & Hsurj). pose proof (Hrange _ _ Hid).
  unfold map_invariant. rewrite HN1, Hmap1.
  rewrite wrap_unsigned_small by lia. split; [lia|].
  by apply map_bijection_shrink.
Qed.

End Invariant.

(** ** Overwriting the wavefunction *)

Section SetWavefunction.
Context `{FusionModel}.

(** The copy loop of [set_wavefunction] replaces a vector of the same
    length entry by entry. *)
Lemma set_wavefunction_loop (wavefunction v : StateVector) :
  length v = length wavefunction →
  for_each_index (vsize wavefunction) (λ i w, vset w i (amp wavefunction i)) v
  = wavefunction.
Proof.
  intros Hlen. unfold for_each_index, vsize. rewrite <- Hlen.
  pose proof (inplace_loop (λ i _, amp wavefunction i)
                (λ i w, vset w i (amp wavefunction i))) as L.
  specialize (L ltac:(done) v []). etrans; [exact L|]. simpl.
  apply list_eq. intros k. rewrite list_lookup_imap.
  destruct (decide (k < length v)%nat) as [Hk|Hk].
  - rewrite (lookup_amp v k Hk). simpl. symmetry. apply lookup_amp. lia.
  - rewrite !lookup_ge_None_2; [done|lia|lia].
Qed.

(** [set_wavefunction] throws exactly on a size mismatch, on an ordering
    whose length is not the number of keys, or on an unmapped id: an
    ordering that repeats an id and omits another passes these checks. *)
Lemma set_wavefunction_throws (wavefunction : StateVector) (ordering : list Z)
    (s : Simulator) :
  thrown (set_wavefunction wavefunction ordering s) = None
  ↔ vsize wavefunction = shl_size_t 1 (Z.of_nat (length ordering))
    ∧ size (map_ s) = length ordering
    ∧ Forall (λ id, is_Some (map_ s !! id)) ordering.
Proof.
  unfold set_wavefunction. rewrite run_map.
  case_decide as Hsize; simpl; [split; [done|tauto]|].
  destruct (bool_decide _) eqn:Hcount; simpl.
  { apply bool_decide_eq_true in Hcount. split; [done|]. intros (_ & ? & _). lia. }
  apply bool_decide_eq_false in Hcount.
  destruct (check_ids (map_ s) ordering) eqn:Hchk; simpl.
  - apply check_ids_true in Hchk. split; [|done]. intros _. split_and!; [done|lia|done].
  - split; [done|]. intros (_ & _ & Hall). apply check_ids_true in Hall. congruence.
Qed.

(** On a well-formed engine an accepted ordering without repeats installs
    the new vector and maps the [i]-th listed id to position [i]. *)
Lemma set_wavefunction_accepts (wavefunction : StateVector) (ordering : list Z)
    (s : Simulator) :
  0 ≤ N_ s < 64 → vsize (vec_ s) = 2 ^ N_ s → map_bijection (map_ s) (N_ s) →
  NoDup ordering →
  thrown (set_wavefunction wavefunction ordering s) = None →
  ∃ m, set_wavefunction wavefunction ordering s
       = Returns () (set_vec (set_map (run s) m) wavefunction)
       ∧ (∀ i id, ordering !! i = Some id → m !! id = Some (Z.of_nat i)).
Proof.
  intros HN Hsize Hbij Hnodup Hok.
  apply set_wavefunction_throws in Hok as (Hlen & Hcount & Hmapped).
  pose proof (map_bijection_size (map_ s) (N_ s) ltac:(lia) Hbij) as Hkeys.
  unfold set_wavefunction. rewrite run_map.
  rewrite decide_False by (intros Hne; by apply Hne).
  rewrite bool_decide_eq_false_2 by lia.
  rewrite (proj2 (check_ids_true _ _) Hmapped). simpl.
  eexists. split.
  - f_equal. f_equal. apply set_wavefunction_loop.
    rewrite shl_size_t_one in Hlen by lia.
    rewrite run_vec_length. unfold vsize in *.
    apply Nat2Z.inj. rewrite Hsize, Hlen. f_equal. lia.
  - apply set_ordering. done.
Qed.
End SetWavefunction.

(** ** Queries and measurements without ids *)

Section Queries.
Context `{FusionModel}.

Lemma sum_over_indices (pre v : StateVector) (a0 : calc_type) :
  foldl (λ n i, calc_add n (norm (amp (pre ++ v) i))) a0
        (seqZ (Z.of_nat (length pre)) (Z.of_nat (length v)))
  = foldl calc_add a0 (norm <$> v).
Proof.
  revert pre a0. induction v as [|x v IH]; intros pre a0; [done|].
  rewrite seqZ_cons by (simpl; lia). simpl foldl.
  rewrite amp_app_middle.
  replace (Z.succ (Z.of_nat (length pre))) with (Z.of_nat (length (pre ++ [x])))
    by (rewrite length_app; simpl; lia).
  replace (Z.pred (Z.of_nat (S (length v)))) with (Z.of_nat (length v)) by lia.
  replace (pre ++ x :: v) with ((pre ++ [x]) ++ v) by (by rewrite <- app_assoc).
  apply IH.
Qed.

(** With an empty mask every index matches: the sum runs over the whole
    vector. *)
Lemma matching_norm_all (v : StateVector) :
  matching_norm 0 0 v = running_sum v (length v).
Proof.
  unfold matching_norm, for_each_index, running_sum. rewrite firstn_all.
  rewrite <- (sum_over_indices [] v). simpl. unfold vsize.
  apply foldl_agree. intros a i _. rewrite Z.land_0_r. by rewrite decide_True.
Qed.

Lemma zeroed_all (v : StateVector) : zeroed 0 0 v = v.
Proof.
  unfold zeroed. apply list_eq. intros i. rewrite list_lookup_imap.
  destruct (v !! i); [|done]. simpl. rewrite Z.land_0_r.
  rewrite decide_False; [done|]. intros Hne. by apply Hne.
Qed.

(** *** Sums under a schedule *)

(** A loop that adds a term at the indices that pass a test adds up the
    terms of those indices. *)
Lemma conditional_sum (P : Z → Prop) `{∀ i, Decision (P i)} (g : Z → calc_type)
    (l : list Z) (a : calc_type) :
  foldl (λ x i, if decide (P i) then calc_add x (g i) else x) a l
  = foldl calc_add a (g <$> filter P l).
Proof.
  revert a. induction l as [|i l IH]; intros a; simpl; [done|].
  rewrite IH. destruct (decide (P i)) as [Hi|Hi].
  - by rewrite filter_cons_True.
  - by rewrite filter_cons_False.
Qed.

Lemma foldl_added_up (pre xs : list calc_type) (a : calc_type) :
  added_up pre a → added_up (pre ++ xs) (foldl calc_add a xs).
Proof.
  revert pre a. induction xs as [|x xs IH]; intros pre a Ha; simpl.
  - by rewrite app_nil_r.
  - replace (pre ++ x :: xs) with ((pre ++ [x]) ++ xs) by (by rewrite <- app_assoc).
    apply IH. apply added_two; [done|apply added_one].
Qed.

(** Whatever the schedule, the loop adds up the terms of the iterations
    that the threads run and that pass the test. *)
Lemma reduction_added_up (P : Z → Prop) `{∀ i, Decision (P i)} (g : Z → calc_type)
    (t : schedule) :
  added_up (g <$> filter P (iterations t))
           (reduction (λ i x, if decide (P i) then calc_add x (g i) else x) t).
Proof.
  induction t as [|first len|l IHl r IHr]; simpl.
  - apply added_none.
  - rewrite conditional_sum. apply (foldl_added_up []). apply added_none.
  - rewrite filter_app, fmap_app. by apply added_two.
Qed.

Lemma matching_norm_parallel_added_up (t : schedule) (mask val : Z) (v : StateVector) :
  covers t (vsize v) →
  added_up (norm <$> matching mask val v) (matching_norm_parallel t mask val v).
Proof.
  intros Hcovers. unfold matching, matching_norm_parallel.
  rewrite <- list_fmap_compose.
  apply (added_in_any_order
           ((λ i, norm (amp v i)) <$> filter (λ i, Z.land i mask = val) (iterations t))).
  - unfold covers in Hcovers. by rewrite Hcovers.
  - apply (reduction_added_up (λ i, Z.land i mask = val) (λ i, norm (amp v i))).
Qed.

(** Where addition is associative and commutative and zero is neutral, as
    for exact numbers, adding up in any order and grouping gives the sum
    from the left. *)
Lemma added_up_exact (xs : list calc_type) (a : calc_type) :
  (∀ x y z, calc_add x (calc_add y z) = calc_add (calc_add x y) z) →
  (∀ x y, calc_add x y = calc_add y x) →
  (∀ x, calc_add calc_zero x = x) →
  added_up xs a → a = foldl calc_add calc_zero xs.
Proof.
  intros Hassoc Hcomm Hzero.
  assert (Hfrom : ∀ l b, foldl calc_add b l
                         = calc_add b (foldl calc_add calc_zero l)).
  { induction l as [|x l IH]; intros b; simpl.
    - by rewrite Hcomm, Hzero.
    - rewrite (IH (calc_add b x)), (IH (calc_add calc_zero x)), Hzero.
      by rewrite Hassoc. }
  assert (Hperm : ∀ l l', l ≡ₚ l' →
                          foldl calc_add calc_zero l = foldl calc_add calc_zero l').
  { induction 1 as [|x l l' _ IH|x y l|l l' l'' _ IH1 _ IH2]; simpl.
    - done.
    - rewrite (Hfrom l), (Hfrom l'). by rewrite IH.
    - rewrite !Hzero, (Hcomm y x). done.
    - by rewrite IH1. }
  induction 1 as [|x|l r b c _ IHl _ IHr|l l' b Hl _ IH]; simpl.
  - done.
  - by rewrite Hzero.
  - rewrite foldl_app, Hfrom. by rewrite <- IHl, <- IHr.
  - rewrite IH. by apply Hperm.
Qed.

(** One thread that runs every iteration adds from the left. *)
Lemma matching_norm_one_thread (mask val : Z) (v : StateVector) :
  matching_norm_parallel (Thread 0 (vsize v)) mask val v = matching_norm mask val v.
Proof. done. Qed.

Lemma matching_all (v : StateVector) : matching 0 0 v = v.
Proof.
  unfold matching.
  assert (Hall : ∀ l : list Z, filter (λ i, Z.land i 0 = 0) l = l).
  { induction l as [|i l IH]; [done|].
    rewrite filter_cons_True by apply Z.land_0_r. by rewrite IH. }
  rewrite Hall. apply list_eq. intros i. rewrite list_lookup_fmap. unfold vsize.
  destruct (decide (i < length v)%nat) as [Hi|Hi].
  - rewrite lookup_seqZ_lt by lia. simpl. rewrite Z.add_0_l.
    unfold amp. rewrite Nat2Z.id.
    destruct (lookup_lt_is_Some_2 v i Hi) as [a ->]. done.
  - rewrite lookup_seqZ_ge by lia. simpl. by rewrite lookup_ge_None_2 by lia.
Qed.

(** X1.  [get_probability] names its failure and otherwise only reads.  For
    a bit string as long as the id list and any schedule of the loop that
    gives every index to one thread: the call throws exactly when some id
    is not in the map, leaving the engine as the flush left it; when every
    id is mapped it returns the squared magnitudes of the flushed entries
    whose index carries the requested bits at the ids' positions, added up
    in the order and grouping of the schedule, and the engine is again just
    the flushed one.  On one thread the call is [get_probability], which
    adds from the left. *)
Theorem get_probability_spec (t : schedule) (bit_string : list bool) (ids : list Z)
    (s : Simulator) :
  length bit_string = length ids →
  covers t (vsize (vec_ (run s))) →
  (Forall (λ id, is_Some (map_ s !! id)) ids →
   ∃ p, get_probability_parallel t bit_string ids s = Returns p (run s)
        ∧ added_up (norm <$> matching
                      (mask_val (position_of (map_ s) <$> ids) bit_string).1
                      (mask_val (position_of (map_ s) <$> ids) bit_string).2
                      (vec_ (run s)))
                   p)
  ∧ (¬ Forall (λ id, is_Some (map_ s !! id)) ids →
     get_probability_parallel t bit_string ids s
     = Throws (runtime_error
         "get_probability(): Unknown qubit id. Please make sure you have called eng.flush().")
         (run s))
  ∧ get_probability_parallel (Thread 0 (vsize (vec_ (run s)))) bit_string ids s
    = get_probability bit_string ids s.
Proof.
  intros _ Hcovers. unfold get_probability_parallel, get_probability.
  rewrite run_map. split_and!.
  - intros Hids. rewrite (proj2 (check_ids_true _ _) Hids). simpl.
    rewrite lookup_positions_mapped by done.
    destruct (mask_val _ _) as [mask val]. simpl.
    eexists. split; [by rewrite <- (run_map s), set_map_same|].
    by apply matching_norm_parallel_added_up.
  - intros Hids. destruct (check_ids (map_ s) ids) eqn:E; [|done].
    by apply check_ids_true in E.
  - destruct (negb _); [done|]. destruct (lookup_positions _ _) as [m positions].
    destruct (mask_val _ _) as [mask val]. by rewrite matching_norm_one_thread.
Qed.

(** X2.  A probability query that names no qubit never throws: whatever bit
    string comes with it, and for any schedule that gives every index to
    one thread, it returns the squared magnitudes of all entries of the
    flushed wavefunction, added up in the order and grouping of the
    schedule, and leaves the flushed engine. *)
Theorem get_probability_no_ids (t : schedule) (bit_string : list bool) (s : Simulator) :
  covers t (vsize (vec_ (run s))) →
  ∃ p, get_probability_parallel t bit_string [] s = Returns p (run s)
       ∧ added_up (norm <$> vec_ (run s)) p.
Proof.
  intros Hcovers. unfold get_probability_parallel. simpl. rewrite set_map_same.
  eexists. split; [done|].
  rewrite <- (matching_all (vec_ (run s))) at 1.
  by apply matching_norm_parallel_added_up.
Qed.

(** X3.  Measuring no qubit still rescales the state: nothing is zeroed, no
    outcome is reported, and every amplitude of the flushed wavefunction is
    multiplied by one over the square root of its total squared norm. *)
Theorem measure_qubits_no_ids (rnd : calc_type) (s : Simulator) :
  measure_qubits [] rnd s
  = Returns []
      (set_vec (run s)
         ((λ a, cscale a (calc_div calc_one
                            (calc_sqrt (running_sum (vec_ (run s))
                                                    (length (vec_ (run s)))))))
            <$> vec_ (run s))).
Proof.
  rewrite measure_qubits_unfold. unfold measurement_result. simpl.
  rewrite matching_norm_all, zeroed_all. by rewrite set_map_same.
Qed.

(** X4.  [collapse_wavefunction] and [get_probability] on the same ids and
    bits, each loop under a schedule of its own that gives every index to
    one thread.  When the query throws for an unknown id so does the
    collapse.  Otherwise the query returns, and the collapse computes, a sum
    of the same squared magnitudes, each in the order and grouping of its
    own schedule, so the two need not be the same number; they are when the
    two schedules are the same.  The collapse refuses when its own sum is
    below the tolerance, and else rescales the surviving amplitudes by one
    over the square root of its own sum. *)
Theorem collapse_wavefunction_probability (t1 t2 : schedule) (ids : list Z)
    (values : list bool) (s : Simulator) :
  length ids = length values →
  covers t1 (vsize (vec_ (run s))) →
  covers t2 (vsize (vec_ (run s))) →
  let mask := (mask_val (position_of (map_ s) <$> ids) values).1 in
  let val := (mask_val (position_of (map_ s) <$> ids) values).2 in
  match get_probability_parallel t2 values ids s with
  | Throws _ _ =>
      collapse_wavefunction_parallel t1 ids values s
      = Throws (runtime_error
          "collapse_wavefunction(): Unknown qubit id(s) provided. Try calling eng.flush() before invoking this function.")
          (run s)
  | Returns p _ =>
      ∃ P, added_up (norm <$> matching mask val (vec_ (run s))) P
           ∧ added_up (norm <$> matching mask val (vec_ (run s))) p
           ∧ (t1 = t2 → P = p)
           ∧ collapse_wavefunction_parallel t1 ids values s
             = if calc_ltb P default_tol_ then
                 Throws (runtime_error
                   "collapse_wavefunction(): Invalid collapse! Probability is ~0.")
                   (run s)
               else
                 Returns ()
                   (set_vec (run s)
                      (collapsed mask val (calc_div calc_one (calc_sqrt P))
                                 (vec_ (run s))))
  end.
Proof.
  intros Hlen Hc1 Hc2 mask val. subst mask val.
  unfold get_probability_parallel, collapse_wavefunction_parallel.
  rewrite decide_False by (intros ?; done). rewrite run_map.
  destruct (check_ids (map_ s) ids) eqn:E; simpl; [|done].
  apply check_ids_true in E. rewrite lookup_positions_mapped by done.
  destruct (mask_val _ _) as [mask val]. simpl.
  rewrite <- (run_map s), set_map_same.
  exists (matching_norm_parallel t1 mask val (vec_ (run s))).
  split_and!.
  - by apply matching_norm_parallel_added_up.
  - by apply matching_norm_parallel_added_up.
  - by intros ->.
  - destruct (calc_ltb _ _); [done|]. by rewrite collapse_loop.
Qed.

Lemma collapsed_all (x : calc_type) (v : StateVector) :
  collapsed 0 0 x v = (λ a, cscale a x) <$> v.
Proof.
  unfold collapsed. apply list_eq. intros i.
  rewrite list_lookup_imap, list_lookup_fmap.
  destruct (v !! i); [|done]. simpl. rewrite Z.land_0_r.
  rewrite decide_False; [done|]. intros Hne. by apply Hne.
Qed.

(** X5.  Collapsing onto no qubit is not a no-op: it refuses with the
    zero-probability error when the squared norm of the whole flushed
    wavefunction is below the tolerance, and otherwise multiplies every
    amplitude by one over the square root of that norm. *)
Theorem collapse_wavefunction_no_ids (s : Simulator) :
  collapse_wavefunction [] [] s
  = if calc_ltb (running_sum (vec_ (run s)) (length (vec_ (run s)))) default_tol_ then
      Throws (runtime_error
        "collapse_wavefunction(): Invalid collapse! Probability is ~0.") (run s)
    else
      Returns ()
        (set_vec (run s)
           ((λ a, cscale a (calc_div calc_one
                              (calc_sqrt (running_sum (vec_ (run s))
                                                      (length (vec_ (run s)))))))
              <$> vec_ (run s))).
Proof.
  unfold collapse_wavefunction. simpl. rewrite set_map_same.
  rewrite matching_norm_all. destruct (calc_ltb _ _); [done|].
  by rewrite collapse_loop, collapsed_all.
Qed.
End Queries.

(** ** Reading a classical qubit *)

Section ClassicalReads.
Context `{FusionModel}.

Lemma xorb_exactly_one (a b : bool) (P Q : Prop) :
  (a = true ↔ P) → (b = true ↔ Q) → (xorb a b = true ↔ (P ↔ ¬ Q)).
Proof.
  intros Ha Hb. rewrite <- Ha, <- Hb.
  destruct a, b; simpl; intuition congruence.
Qed.

(** The two flags of [is_classical] on a well-sized vector say which halves
    have mass. *)
Lemma flags_are_halves (pos : Z) (tol : calc_type) (s : Simulator) :
  0 ≤ N_ s < 64 → vsize (vec_ s) = 2 ^ N_ s → 0 ≤ pos < N_ s →
  (has_mass tol (vec_ (run s)) 0 (stride_pairs (vsize (vec_ (run s))) (2 ^ pos)) = true
   ↔ half_has_mass tol (vec_ (run s)) pos false)
  ∧ (has_mass tol (vec_ (run s)) (2 ^ pos)
       (stride_pairs (vsize (vec_ (run s))) (2 ^ pos)) = true
     ↔ half_has_mass tol (vec_ (run s)) pos true).
Proof.
  intros HN Hsize Hpos.
  assert (Hsplit : vsize (vec_ (run s)) = 2 ^ (N_ s - pos - 1) * (2 * 2 ^ pos))
    by (rewrite run_vsize, Hsize; by apply pow2_split).
  assert (Hn : 0 ≤ 2 ^ (N_ s - pos - 1)) by (apply Z.pow_nonneg; lia).
  split.
  - rewrite <- (has_mass_half _ _ (2 ^ (N_ s - pos - 1)) pos false) by (done || lia).
    simpl. done.
  - rewrite <- (has_mass_half _ _ (2 ^ (N_ s - pos - 1)) pos true) by (done || lia).
    simpl. by rewrite Z.mul_1_l.
Qed.

(** X6.  [is_classical] on a mapped qubit of a well-sized engine answers
    true exactly when one and only one of the two halves of the flushed
    wavefunction, split along the qubit's position, has an amplitude whose
    squared magnitude exceeds the tolerance; the engine is left as the
    flush left it. *)
Theorem is_classical_spec (id pos : Z) (tol : calc_type) (s : Simulator) :
  0 ≤ N_ s < 64 →
  vsize (vec_ s) = 2 ^ N_ s →
  map_ s !! id = Some pos →
  0 ≤ pos < N_ s →
  ∃ b, is_classical id tol s = Returns b (run s)
       ∧ (b = true
          ↔ (half_has_mass tol (vec_ (run s)) pos false
             ↔ ¬ half_has_mass tol (vec_ (run s)) pos true)).
Proof.
  intros HN Hsize Hid Hpos.
  rewrite (is_classical_mapped id pos) by (done || lia).
  eexists. split; [reflexivity|].
  destruct (flags_are_halves pos tol s HN Hsize Hpos) as [Hup Hdown].
  by apply xorb_exactly_one.
Qed.

(** X7.  [get_classical_value] on a mapped qubit of a well-sized engine: a
    returned bit names a half of the flushed wavefunction that has mass
    above the tolerance; when exactly one half has mass the call returns
    that half's bit; the internal error is thrown exactly when neither half
    has mass.  In every case the engine is left as the flush left it. *)
Theorem get_classical_value_spec (id pos : Z) (tol : calc_type) (s : Simulator) :
  0 ≤ N_ s < 64 →
  vsize (vec_ s) = 2 ^ N_ s →
  map_ s !! id = Some pos →
  0 ≤ pos < N_ s →
  final_state (get_classical_value id tol s) = run s
  ∧ (∀ b, returned (get_classical_value id tol s) = Some b →
          half_has_mass tol (vec_ (run s)) pos b)
  ∧ (∀ b, half_has_mass tol (vec_ (run s)) pos b →
          ¬ half_has_mass tol (vec_ (run s)) pos (negb b) →
          get_classical_value id tol s = Returns b (run s))
  ∧ (is_Some (thrown (get_classical_value id tol s))
     ↔ ¬ half_has_mass tol (vec_ (run s)) pos false
       ∧ ¬ half_has_mass tol (vec_ (run s)) pos true).
Proof.
  intros HN Hsize Hid Hpos.
  rewrite (get_classical_value_mapped id pos) by (done || lia).
  destruct (flags_are_halves pos tol s HN Hsize Hpos) as [Hup Hdown].
  pose proof (classical_scan_spec tol (vec_ (run s)) (2 ^ pos)
                (stride_pairs (vsize (vec_ (run s))) (2 ^ pos))) as Hscan.
  pose proof (classical_scan_classical tol (vec_ (run s)) (2 ^ pos)
                (stride_pairs (vsize (vec_ (run s))) (2 ^ pos))) as Hone.
  set (up := has_mass _ _ 0 _) in *. set (down := has_mass _ _ (2 ^ pos) _) in *.
  split_and!.
  - by destruct (classical_scan _ _ _ _).
  - intros b. destruct (classical_scan _ _ _ _) as [[|]|]; simpl; [| |done].
    + intros [= <-]. by apply Hdown.
    + intros [= <-]. by apply Hup.
  - intros b Hb Hnb.
    assert (Hx : xorb up down = true ∧ down = b).
    { destruct b; simpl in *.
      - apply Hdown in Hb. rewrite Hb.
        destruct up; [|done]. exfalso. by apply Hnb, Hup.
      - apply Hup in Hb. rewrite Hb.
        destruct down; [|done]. exfalso. by apply Hnb, Hdown. }
    destruct Hx as [Hx <-]. by rewrite (Hone Hx).
  - destruct (classical_scan _ _ _ _) as [[|]|]; simpl.
    + split; [by intros [? ?]|]. intros [_ Hno]. exfalso. by apply Hno, Hdown.
    + split; [by intros [? ?]|]. intros [Hno _]. exfalso. by apply Hno, Hup.
    + destruct Hscan as [Hu Hd]. split; [|by eauto]. intros _. split.
      * intros Hhalf. apply Hup in Hhalf. congruence.
      * intros Hhalf. apply Hdown in Hhalf. congruence.
Qed.

(** X8.  Neither [is_classical] nor [get_classical_value] checks its id: for
    an id that the map does not hold, both answer exactly as for the qubit
    at position 0, and both leave the id in the map, at position 0, beside
    the qubit that already lives there. *)
Theorem unmapped_id_reads_position_zero (id id0 : Z) (tol : calc_type) (s : Simulator) :
  map_ s !! id = None →
  map_ s !! id0 = Some 0 →
  returned (is_classical id tol s) = returned (is_classical id0 tol s)
  ∧ returned (get_classical_value id tol s) = returned (get_classical_value id0 tol s)
  ∧ final_state (is_classical id tol s) = set_map (run s) (<[id := 0]> (map_ s))
  ∧ final_state (get_classical_value id tol s)
    = set_map (run s) (<[id := 0]> (map_ s))
  ∧ final_state (is_classical id0 tol s) = run s
  ∧ final_state (get_classical_value id0 tol s) = run s.
Proof.
  intros Hid Hid0.
  rewrite (is_classical_mapped id0 0), (get_classical_value_mapped id0 0) by (done || lia).
  unfold is_classical, get_classical_value, map_index.
  rewrite run_map, Hid. simpl. rewrite shl_size_t_one by lia.
  split_and!; try done; by destruct (classical_scan _ _ _ _).
Qed.
End ClassicalReads.

(** ** Removing a qubit, and the size of the wavefunction *)

Section Shrinking.
Context `{FusionModel}.

Lemma amp_shrunk (pos : Z) (value : bool) (v : StateVector) (k : Z) :
  0 ≤ k < vsize v / 2 →
  amp (shrunk pos value v) k = amp v (insert_bit pos value k).
Proof.
  intros Hk. unfold shrunk. unfold amp at 1. rewrite list_lookup_fmap.
  rewrite lookup_seqZ_lt by lia. simpl. rewrite ?Z.add_0_l.
  by rewrite Z2Nat.id by lia.
Qed.

Lemma amp_all (v : StateVector) : amp v <$> seqZ 0 (vsize v) = v.
Proof.
  apply list_eq. intros i. rewrite list_lookup_fmap.
  destruct (decide (i < length v)%nat) as [Hi|Hi].
  - rewrite lookup_seqZ_lt by (unfold vsize; lia). simpl.
    rewrite Z.add_0_l. by rewrite <- lookup_amp.
  - rewrite lookup_seqZ_ge by (unfold vsize; lia). simpl.
    symmetry. apply lookup_ge_None_2. lia.
Qed.

Lemma half_of_pow2 (n : Z) : 0 < n → 2 ^ n / 2 = 2 ^ (n - 1).
Proof.
  intros Hn. replace n with (Z.succ (n - 1)) at 1 by lia.
  rewrite Z.pow_succ_r by lia. rewrite Z.mul_comm. apply Z.div_mul. lia.
Qed.

(** X9.  The shrinking collapse, for either value: on a well-formed engine
    and a mapped qubit at position [pos] it returns; the wavefunction
    halves; entry [k] of the new wavefunction is the flushed entry whose
    index is [k] with the bit [value] inserted at [pos], so exactly the
    entries whose index carries [value] at [pos] survive, in order; the id
    leaves the map; every other id keeps its position if it was below
    [pos] and moves down by one if it was above; and the map is again a
    bijection onto the positions below the new qubit count. *)
Theorem collapse_vector_shrink_spec (id pos : Z) (value : bool) (s : Simulator) :
  0 ≤ N_ s < 64 →
  vsize (vec_ s) = 2 ^ N_ s →
  map_bijection (map_ s) (N_ s) →
  map_ s !! id = Some pos →
  ∃ s', collapse_vector id value true s = Returns () s'
    ∧ N_ s' = N_ s - 1
    ∧ vsize (vec_ s') = 2 ^ (N_ s - 1)
    ∧ (∀ k, 0 ≤ k < 2 ^ (N_ s - 1) →
         amp (vec_ s') k = amp (vec_ (run s)) (insert_bit pos value k)
         ∧ Z.testbit (insert_bit pos value k) pos = value)
    ∧ map_ s' !! id = None
    ∧ (∀ id' p, id' ≠ id → map_ s !! id' = Some p →
         map_ s' !! id' = Some (if decide (pos < p) then p - 1 else p))
    ∧ map_bijection (map_ s') (N_ s - 1).
Proof.
  intros HN Hsize Hbij Hid.
  pose proof (proj1 Hbij) as Hrange. pose proof (Hrange _ _ Hid) as Hpos.
  rewrite (collapse_vector_shrink id pos) by done.
  eexists. split; [reflexivity|]. simpl.
  assert (Hhalf : vsize (vec_ (run s)) / 2 = 2 ^ (N_ s - 1))
    by (rewrite run_vsize, Hsize; apply half_of_pow2; lia).
  split_and!.
  - done.
  - by rewrite shrunk_vsize.
  - intros k Hk. split; [|apply insert_bit_testbit; lia].
    apply amp_shrunk. by rewrite Hhalf.
  - apply lookup_delete_eq.
  - intros id' p Hne Hp. rewrite lookup_delete_ne by done.
    by rewrite lookup_fmap, Hp.
  - replace ((λ p, if decide (pos < p) then p - 1 else p) <$> map_ s)
      with ((λ p, if decide (pos < p) then wrap_unsigned (p - 1) else p) <$> map_ s).
    + apply map_bijection_shrink; [lia|done..].
    + apply map_fmap_ext. intros id' p Hp. simpl. case_decide; [|done].
      apply wrap_unsigned_small. specialize (Hrange _ _ Hp). lia.
Qed.

(** Deallocating a qubit with exactly one massive half keeps that half. *)
Lemma deallocate_qubit_returns (id pos : Z) (value : bool) (s : Simulator) :
  0 ≤ N_ s < 64 →
  vsize (vec_ s) = 2 ^ N_ s →
  (∀ id p, map_ s !! id = Some p → 0 ≤ p < N_ s) →
  map_ s !! id = Some pos →
  half_has_mass default_tol_ (vec_ (run s)) pos value →
  ¬ half_has_mass default_tol_ (vec_ (run s)) pos (negb value) →
  deallocate_qubit id s
  = Returns ()
      (MkSimulator _ _ (N_ s - 1) (shrunk pos value (vec_ (run s)))
         (delete id ((λ p, if decide (pos < p) then p - 1 else p) <$> map_ s))
         (fused_gates_ (run s)) (fusion_qubits_min_ s) (fusion_qubits_max_ s)).
Proof.
  intros HN Hsize Hrange Hid Hhas Hnot.
  pose proof (Hrange _ _ Hid) as Hpos.
  unfold deallocate_qubit, map_count. rewrite run_map, Hid.
  rewrite decide_False by (intros Hne; by apply Hne).
  rewrite (is_classical_mapped id pos) by (rewrite ?run_map; (done || lia)).
  rewrite run_idempotent.
  destruct (flags_are_halves pos default_tol_ s HN Hsize Hpos) as [Hup Hdown].
  set (up := has_mass _ _ 0 _) in *. set (down := has_mass _ _ (2 ^ pos) _) in *.
  assert (Hx : xorb up down = true ∧ down = value).
  { destruct value; simpl in *.
    - apply Hdown in Hhas. rewrite Hhas.
      destruct up; [|done]. exfalso. by apply Hnot, Hup.
    - apply Hup in Hhas. rewrite Hhas.
      destruct down; [|done]. exfalso. by apply Hnot, Hdown. }
  destruct Hx as [Hx Hv]. rewrite Hx. simpl.
  rewrite (get_classical_value_mapped id pos) by (rewrite ?run_map; (done || lia)).
  rewrite run_idempotent.
  fold up down. rewrite (classical_scan_classical _ _ _ _ Hx). fold down.
  rewrite Hv.
  rewrite (collapse_vector_shrink id pos)
    by (rewrite ?run_N, ?run_vsize, ?run_map; done).
  by rewrite run_idempotent, run_N, run_map, run_min, run_max.
Qed.

Lemma testbit_below (k n : Z) : 0 ≤ k < 2 ^ n → Z.testbit k n = false.
Proof.
  intros Hk. destruct (decide (0 ≤ n)) as [Hn|Hn].
  - apply (testbit_div k n false Hn). rewrite Z.div_small by done. done.
  - apply Z.testbit_neg_r. lia.
Qed.

(** X10.  Allocation and deallocation undo each other.  On a well-formed
    engine with nothing pending whose wavefunction has some amplitude above
    the tolerance (and a scalar type in which zero is not above the
    tolerance), allocating a fresh id and deallocating it again returns
    the engine exactly as it was: the same wavefunction, map, qubit count
    and buffer. *)
Theorem allocate_deallocate_round_trip (id : Z) (s : Simulator) :
  0 ≤ N_ s < 63 →
  vsize (vec_ s) = 2 ^ N_ s →
  (∀ id p, map_ s !! id = Some p → 0 ≤ p < N_ s) →
  map_ s !! id = None →
  fusion_is_empty (fused_gates_ s) = true →
  calc_ltb default_tol_ (norm czero) = false →
  (∃ k, 0 ≤ k < vsize (vec_ s) ∧ calc_ltb default_tol_ (norm (amp (vec_ s) k)) = true) →
  ∃ s1, allocate_qubit id s = Returns () s1
        ∧ map_ s1 !! id = Some (N_ s)
        ∧ deallocate_qubit id s1 = Returns () s.
Proof.
  intros HN Hsize Hrange Hid Hempty Hzero (k & Hk & Hmass).
  assert (Hpow : 0 < 2 ^ N_ s) by (apply pow2_pos; lia).
  assert (Hdouble : 2 ^ (N_ s + 1) = 2 ^ N_ s + 2 ^ N_ s)
    by (rewrite Z.pow_add_r by lia; lia).
  unfold allocate_qubit, map_count. rewrite Hid. rewrite decide_True by done.
  rewrite wrap_unsigned_small by lia.
  rewrite shl_size_t_one by lia.
  rewrite Hdouble.
  replace (2 ^ N_ s + 2 ^ N_ s) with (vsize (vec_ s) + 2 ^ N_ s) by lia.
  rewrite allocate_fill by lia.
  eexists. split; [reflexivity|].
  set (s1 := set_vec _ _).
  assert (Hrun : run s1 = s1) by (by apply run_nothing_pending).
  assert (HW : vec_ s1 = vec_ s ++ replicate (Z.to_nat (2 ^ N_ s)) czero) by done.
  assert (Hlen : length (vec_ s) = Z.to_nat (2 ^ N_ s))
    by (unfold vsize in Hsize; lia).
  split; [subst s1; simpl; apply lookup_insert_eq|].
  rewrite (deallocate_qubit_returns id (N_ s) false s1).
  - rewrite Hrun. subst s1. destruct s as [N v m F lo hi]. simpl in *.
    f_equal. f_equal.
    + lia.
    + apply list_eq. intros i. unfold shrunk. rewrite list_lookup_fmap.
      assert (Hsz : vsize (v ++ replicate (Z.to_nat (2 ^ N)) czero) / 2 = 2 ^ N).
      { unfold vsize. rewrite length_app, length_replicate, Hlen.
        replace (Z.of_nat (Z.to_nat (2 ^ N) + Z.to_nat (2 ^ N))) with (2 ^ N * 2) by lia.
        apply Z.div_mul. lia. }
      rewrite Hsz.
      destruct (decide (i < length v)%nat) as [Hi|Hi].
      * rewrite lookup_seqZ_lt by lia. simpl. rewrite Z.add_0_l.
        unfold insert_bit. rewrite Z.div_small, Z.mod_small by lia. simpl.
        rewrite Z.add_0_l. unfold amp. rewrite Nat2Z.id.
        rewrite lookup_app_l by done.
        destruct (v !! i) eqn:E; [done|]. apply lookup_ge_None_1 in E. lia.
      * rewrite lookup_seqZ_ge by lia. simpl. symmetry. apply lookup_ge_None_2. lia.
    + rewrite fmap_insert, delete_insert_eq.
      rewrite <- (map_fmap_id m) at 2. rewrite delete_id by (by rewrite lookup_fmap, Hid).
      apply map_fmap_ext. intros id' p Hp. simpl.
      rewrite decide_False; [done|]. specialize (Hrange _ _ Hp). lia.
  - subst s1. simpl. lia.
  - rewrite HW. unfold vsize. rewrite length_app, length_replicate, Hlen.
    subst s1. simpl. lia.
  - intros id' p. subst s1. simpl. intros Hp.
    destruct (decide (id' = id)) as [->|Hne].
    + rewrite lookup_insert_eq in Hp. injection Hp as <-. lia.
    + rewrite lookup_insert_ne in Hp by done. specialize (Hrange _ _ Hp). lia.
  - subst s1. simpl. apply lookup_insert_eq.
  - rewrite Hrun, HW. exists k. split; [|split].
    + unfold vsize in *. rewrite length_app. lia.
    + apply testbit_below. unfold vsize in Hk. lia.
    + unfold amp in *. rewrite lookup_app_l by (unfold vsize in Hk; lia). done.
  - rewrite Hrun, HW. simpl. intros (j & Hj & Hbit & Hj_mass).
    assert (Hhigh : 2 ^ N_ s ≤ j).
    { destruct (decide (2 ^ N_ s ≤ j)) as [|Hlow]; [done|].
      rewrite testbit_below in Hbit by lia. done. }
    unfold amp in Hj_mass.
    rewrite lookup_app_r in Hj_mass by lia.
    unfold vsize in Hj. rewrite length_app, length_replicate in Hj.
    rewrite lookup_replicate_2 in Hj_mass by lia.
    simpl in Hj_mass. congruence.
Qed.
End Shrinking.

(** ** The wavefunction has one entry per basis state *)

Section SizeInvariant.
Context `{FusionModel}.

Lemma apply_controlled_gate_keeps (m : Matrix) (ids ctrl : list Z) (s : Simulator) :
  ∃ s', apply_controlled_gate m ids ctrl s = Returns () s'
        ∧ N_ s' = N_ s ∧ map_ s' = map_ s
        ∧ length (vec_ s') = length (vec_ s)
        ∧ fusion_qubits_min_ s' = fusion_qubits_min_ s
        ∧ fusion_qubits_max_ s' = fusion_qubits_max_ s.
Proof.
  unfold apply_controlled_gate.
  destruct (_ && _); [|destruct (_ || _)];
    (eexists; split; [reflexivity|]);
    rewrite ?run_N, ?run_map, ?run_vec_length, ?run_min, ?run_max; simpl;
    by rewrite ?run_N, ?run_map, ?run_vec_length, ?run_min, ?run_max.
Qed.

Lemma collapse_vector_keeps_size (id : Z) (value : bool) (s : Simulator) :
  ∃ v m, collapse_vector id value false s = Returns () (set_vec (set_map (run s) m) v)
         ∧ length v = length (vec_ s).
Proof.
  unfold collapse_vector. destruct (map_index _ _) as [m pos]. simpl.
  eexists _, _. split; [reflexivity|].
  rewrite (foldl_vset_length _
             (λ '(i, j), i + j + bit (negb value) * shl_size_t 1 pos) (λ _, czero)).
  - apply run_vec_length.
  - by intros w [i j].
Qed.

Lemma collapse_wavefunction_size (ids : list Z) (values : list bool) (s s' : Simulator) :
  completed (collapse_wavefunction ids values s) = Some s' →
  N_ s' = N_ s ∧ length (vec_ s') = length (vec_ s).
Proof.
  unfold collapse_wavefunction.
  destruct (decide _); [done|]. destruct (negb _); [done|].
  destruct (lookup_positions _ _) as [m positions].
  destruct (mask_val _ _) as [mask val].
  destruct (calc_ltb _ _); [done|]. simpl. intros [= <-]. simpl.
  rewrite run_N. split; [done|].
  rewrite collapse_loop. unfold collapsed. by rewrite length_imap, run_vec_length.
Qed.

End SizeInvariant.

(** ** Installing a wavefunction and reading it back *)

Section ReadBack.
Context `{FusionModel}.

Lemma lor_disjoint_add (a b k : Z) :
  0 ≤ k → 0 ≤ a < 2 ^ k → Z.lor a (b * 2 ^ k) = a + b * 2 ^ k.
Proof.
  intros Hk Ha.
  assert (Hdisjoint : Z.land a (b * 2 ^ k) = 0).
  { apply Z.bits_inj'. intros n Hn. rewrite Z.land_spec, Z.bits_0.
    destruct (decide (n < k)) as [Hlow|Hhigh].
    - rewrite Z.mul_pow2_bits_low by lia. apply andb_false_r.
    - rewrite <- (Z.mod_small a (2 ^ k)) by done.
      rewrite Z.mod_pow2_bits_high by lia. done. }
  rewrite Z.add_nocarry_lxor by done. by rewrite Z.lxor_lor.
Qed.

Lemma bits_value_bound (bits : list bool) :
  0 ≤ bits_value bits < 2 ^ Z.of_nat (length bits).
Proof.
  induction bits as [|b bits IH]; simpl; [lia|].
  rewrite Nat2Z.inj_succ, Z.pow_succ_r by lia. destruct b; simpl; lia.
Qed.

(** Or-ing the bits into place, lowest position first, builds the number
    that the bit string spells. *)
Lemma val_of_bits (bits : list bool) (k val0 : Z) :
  0 ≤ k → k + Z.of_nat (length bits) ≤ 64 → 0 ≤ val0 < 2 ^ k →
  foldl (λ val '(p, b), Z.lor val (shl_size_t (bit b) p)) val0
        (zip (seqZ k (Z.of_nat (length bits))) bits)
  = val0 + 2 ^ k * bits_value bits.
Proof.
  revert k val0. induction bits as [|b bits IH]; intros k val0 Hk Hlen Hval; simpl.
  - lia.
  - rewrite seqZ_cons by lia. simpl in *.
    replace (Z.pred (Z.of_nat (S (length bits)))) with (Z.of_nat (length bits)) by lia.
    assert (Hpow : 2 ^ Z.succ k = 2 * 2 ^ k) by (rewrite Z.pow_succ_r; lia).
    rewrite IH.
    + rewrite shl_size_t_bit by lia.
      replace (if b then 2 ^ k else 0) with (bit b * 2 ^ k) by (destruct b; simpl; lia).
      rewrite lor_disjoint_add by done. rewrite Hpow. lia.
    + lia.
    + lia.
    + rewrite shl_size_t_bit by lia. rewrite Hpow.
      pose proof (pow2_pos k Hk).
      destruct b; [|rewrite Z.lor_0_r; lia].
      assert (E : Z.lor val0 (2 ^ k) = val0 + 1 * 2 ^ k)
        by (rewrite <- lor_disjoint_add by done; f_equal; lia).
      rewrite E. lia.
Qed.

Lemma positions_of_ordering (m : Map) (ordering : list Z) :
  (∀ i id, ordering !! i = Some id → m !! id = Some (Z.of_nat i)) →
  position_of m <$> ordering = seqZ 0 (Z.of_nat (length ordering)).
Proof.
  intros Hm. apply list_eq. intros i. rewrite list_lookup_fmap.
  destruct (ordering !! i) as [id|] eqn:E; simpl.
  - rewrite lookup_seqZ_lt by (apply lookup_lt_Some in E; lia).
    unfold position_of. rewrite (Hm _ _ E). simpl. f_equal; lia.
  - rewrite lookup_seqZ_ge; [done|]. apply lookup_ge_None_1 in E. lia.
Qed.

(** What an accepted [set_wavefunction] leaves behind. *)
Lemma set_wavefunction_installed (wavefunction : StateVector) (ordering : list Z)
    (s s' : Simulator) :
  0 ≤ N_ s < 64 → vsize (vec_ s) = 2 ^ N_ s → map_bijection (map_ s) (N_ s) →
  NoDup ordering →
  set_wavefunction wavefunction ordering s = Returns () s' →
  vec_ s' = wavefunction
  ∧ N_ s' = N_ s
  ∧ Z.of_nat (length ordering) = N_ s
  ∧ vsize wavefunction = 2 ^ N_ s
  ∧ run s' = s'
  ∧ (∀ i id, ordering !! i = Some id → map_ s' !! id = Some (Z.of_nat i)).
Proof.
  intros HN Hsize Hbij Hnodup Hset.
  assert (Hok : thrown (set_wavefunction wavefunction ordering s) = None)
    by (by rewrite Hset).
  destruct (set_wavefunction_accepts wavefunction ordering s HN Hsize Hbij Hnodup Hok)
    as (m & E & Hm).
  apply set_wavefunction_throws in Hok as (Hpsi & Hcount & _).
  assert (Hn : Z.of_nat (length ordering) = N_ s).
  { rewrite <- Hcount. apply map_bijection_size; [lia|done]. }
  rewrite E in Hset. injection Hset as <-. simpl.
  split_and!; try done.
  - apply run_N.
  - rewrite Hpsi, Hn. apply shl_size_t_one. lia.
  - apply run_nothing_pending. simpl. apply run_fused_empty.
Qed.

(** X12.  Round trip through [set_wavefunction] and [get_amplitude].  After
    a well-formed engine accepted a wavefunction with an ordering without
    repeats, asking for the amplitude of a bit string over the same
    ordering returns the entry of the installed wavefunction whose index is
    the number the bit string spells, bit [i] being the bit of
    [ordering_i]; the query changes nothing. *)
Theorem set_wavefunction_get_amplitude (wavefunction : StateVector) (ordering : list Z)
    (bit_string : list bool) (s s' : Simulator) :
  0 ≤ N_ s < 64 →
  vsize (vec_ s) = 2 ^ N_ s →
  map_bijection (map_ s) (N_ s) →
  NoDup ordering →
  length bit_string = length ordering →
  set_wavefunction wavefunction ordering s = Returns () s' →
  get_amplitude bit_string ordering s'
  = Returns (amp wavefunction (bits_value bit_string)) s'.
Proof.
  intros HN Hsize Hbij Hnodup Hlen Hset.
  destruct (set_wavefunction_installed _ _ _ _ HN Hsize Hbij Hnodup Hset)
    as (Hvec & HN' & Hn & Hpsi & Hrun & Hm).
  unfold get_amplitude. rewrite Hrun.
  rewrite amplitude_index_mapped.
  2:{ apply Forall_forall. intros id Hin.
      apply list_elem_of_lookup in Hin as [i Hi]. rewrite (Hm _ _ Hi). eauto. }
  2:{ simpl. lia. }
  rewrite drop_0, (positions_of_ordering _ _ Hm), mask_val_from.
  rewrite <- Hlen in *.
  rewrite val_of_bits by (simpl; lia).
  rewrite take_ge by (rewrite length_seqZ; lia).
  assert (Hmask : foldl (λ mask p, Z.lor mask (shl_size_t 1 p)) 0
                        (seqZ 0 (Z.of_nat (length bit_string))) = 2 ^ N_ s - 1).
  { apply mask_full; [lia| |].
    - apply Forall_forall. intros p Hp. apply elem_of_seqZ in Hp. lia.
    - intros b Hb. apply elem_of_seqZ. lia. }
  rewrite Hmask, Hvec, Hpsi.
  replace (2 ^ N_ s - 1 + 1) with (2 ^ N_ s) by lia.
  rewrite wrap_size_t_small.
  - rewrite decide_False by (intros Hne; by apply Hne).
    by rewrite Z.pow_0_r, Z.mul_1_l, Z.add_0_l.
  - split; [apply Z.pow_nonneg; lia|]. apply Z.pow_lt_mono_r; lia.
Qed.

(** X13.  Round trip through [set_wavefunction] and [cheat].  After a
    well-formed engine accepted a wavefunction with an ordering without
    repeats, [cheat] hands back exactly that wavefunction, together with a
    map that sends the [i]-th id of the ordering to position [i]; the
    engine stays as it is. *)
Theorem set_wavefunction_cheat (wavefunction : StateVector) (ordering : list Z)
    (s s' : Simulator) :
  0 ≤ N_ s < 64 →
  vsize (vec_ s) = 2 ^ N_ s →
  map_bijection (map_ s) (N_ s) →
  NoDup ordering →
  set_wavefunction wavefunction ordering s = Returns () s' →
  ∃ m, cheat s' = Returns (m, wavefunction) s'
       ∧ (∀ i id, ordering !! i = Some id → m !! id = Some (Z.of_nat i))
       ∧ (∀ id, is_Some (m !! id) ↔ id ∈ ordering).
Proof.
  intros HN Hsize Hbij Hnodup Hset.
  destruct (set_wavefunction_installed _ _ _ _ HN Hsize Hbij Hnodup Hset)
    as (Hvec & HN' & Hn & Hpsi & Hrun & Hm).
  exists (map_ s'). unfold cheat. rewrite Hrun, Hvec.
  split_and!; [done..|].
  intros id. split.
  - intros Hid.
    assert (Hok : thrown (set_wavefunction wavefunction ordering s) = None)
      by (by rewrite Hset).
    pose proof Hok as Hacc.
    apply set_wavefunction_throws in Hacc as (_ & Hcount & Hmapped).
    destruct (set_wavefunction_accepts wavefunction ordering s HN Hsize Hbij Hnodup Hok)
      as (m & E & _).
    destruct (decide (id ∈ ordering)) as [|Hout]; [done|]. exfalso.
    unfold set_wavefunction in Hset.
    destruct (decide _); [done|]. destruct (_ || _); [done|].
    injection Hset as <-. simpl in Hid.
    rewrite (proj2 (set_ordering (map_ (run s)) ordering Hnodup) id Hout) in Hid.
    rewrite run_map in Hid.
    assert (Hsub : ordering ⊆ (map_to_list (map_ s)).*1).
    { intros x Hx. rewrite Forall_forall in Hmapped.
      destruct (Hmapped x Hx) as [p Hp].
      apply list_elem_of_fmap. exists (x, p). split; [done|].
      by apply elem_of_map_to_list. }
    assert (Hperm : ordering ≡ₚ (map_to_list (map_ s)).*1).
    { apply submseteq_length_Permutation.
      - apply NoDup_submseteq; [done|]. intros x Hx. by apply Hsub.
      - rewrite length_fmap, length_map_to_list. lia. }
    apply Hout. rewrite Hperm. destruct Hid as [p Hp].
    apply list_elem_of_fmap. exists (id, p). split; [done|].
    by apply elem_of_map_to_list.
  - intros Hin. apply list_elem_of_lookup in Hin as [i Hi]. rewrite (Hm _ _ Hi). eauto.
Qed.
End ReadBack.

(** ** The control mask *)

Section ControlMask.
Context `{FusionModel}.

Lemma get_control_mask_from (ctrls : list Z) (m : Map) (mask0 : Z) :
  foldl (λ '(m, ctrlmask) c,
           let '(m', p) := map_index m c in
           (m', Z.lor ctrlmask (shl_size_t 1 p)))
        (m, mask0) ctrls
  = ((lookup_positions m ctrls).1,
     foldl (λ mask p, Z.lor mask (shl_size_t 1 p)) mask0 (position_of m <$> ctrls)).
Proof.
  revert m mask0. induction ctrls as [|c ctrls IH]; intros m mask0; simpl; [done|].
  pose proof (map_index_position m c) as Hp.
  destruct (map_index m c) as [m1 p] eqn:E. simpl in Hp. subst p.
  rewrite IH.
  pose proof (lookup_positions_snd m1 ctrls) as Hsnd.
  destruct (lookup_positions m1 ctrls) as [m2 ps]. simpl in *.
  f_equal. f_equal. apply list_fmap_ext. intros _ c' _.
  replace m1 with (map_index m c).1 by (by rewrite E).
  apply position_of_map_index.
Qed.

Lemma get_control_mask_fold (ctrls : list Z) (m : Map) :
  get_control_mask ctrls m
  = ((lookup_positions m ctrls).1,
     foldl (λ mask p, Z.lor mask (shl_size_t 1 p)) 0 (position_of m <$> ctrls)).
Proof. apply get_control_mask_from. Qed.

(** X14.  The control mask has exactly the bits of the controls' positions,
    and an index passes the control test [(ctrlmask & i) == ctrlmask]
    exactly when it has a one at the position of every control.  This
    holds when every control id is mapped to a position below 64; the map
    is then left alone (and an empty control list gives the mask 0, which
    every index passes). *)
Theorem get_control_mask_spec (ctrls : list Z) (m : Map) :
  Forall (λ c, ∃ p, m !! c = Some p ∧ 0 ≤ p < 64) ctrls →
  ∃ ctrlmask,
    get_control_mask ctrls m = (m, ctrlmask)
    ∧ (∀ b, 0 ≤ b →
         (Z.testbit ctrlmask b = true ↔ ∃ c, c ∈ ctrls ∧ m !! c = Some b))
    ∧ (∀ i, Z.land ctrlmask i = ctrlmask
            ↔ Forall (λ c, Z.testbit i (position_of m c) = true) ctrls).
Proof.
  intros Hctrls. rewrite get_control_mask_fold.
  assert (Hmapped : Forall (λ c, is_Some (m !! c)) ctrls).
  { eapply Forall_impl; [exact Hctrls|]. intros c (p & Hp & _). eauto. }
  assert (Hps : Forall (λ p, 0 ≤ p < 64) (position_of m <$> ctrls)).
  { apply Forall_fmap. eapply Forall_impl; [exact Hctrls|].
    intros c (p & Hp & Hrange). unfold position_of. simpl. by rewrite Hp. }
  rewrite lookup_positions_mapped by done. simpl.
  eexists. split; [reflexivity|].
  assert (Hbits : ∀ b, 0 ≤ b →
            (Z.testbit (foldl (λ mask p, Z.lor mask (shl_size_t 1 p)) 0
                              (position_of m <$> ctrls)) b = true
             ↔ ∃ c, c ∈ ctrls ∧ m !! c = Some b)).
  { intros b Hb. rewrite mask_testbit by done. rewrite Z.bits_0. simpl.
    rewrite bool_decide_eq_true, list_elem_of_fmap. split.
    - intros (c & -> & Hin). exists c. split; [done|].
      rewrite Forall_forall in Hmapped. destruct (Hmapped c Hin) as [p Hp].
      unfold position_of. by rewrite Hp.
    - intros (c & Hin & Hp). exists c. split; [|done].
      unfold position_of. by rewrite Hp. }
  split; [exact Hbits|].
  intros i. set (mask := foldl _ _ _) in *. split.
  - intros Hland. apply Forall_forall. intros c Hin.
    rewrite Forall_forall in Hctrls. destruct (Hctrls c Hin) as (p & Hp & Hrange).
    unfold position_of. rewrite Hp. simpl.
    assert (Hset : Z.testbit mask p = true) by (apply Hbits; [lia|eauto]).
    rewrite <- Hland, Z.land_spec in Hset. by apply andb_true_iff in Hset as [_ ?].
  - intros Hall. apply Z.bits_inj'. intros b Hb. rewrite Z.land_spec.
    destruct (Z.testbit mask b) eqn:E; [|done]. simpl.
    apply Hbits in E as (c & Hin & Hp); [|done].
    rewrite Forall_forall in Hall. specialize (Hall c Hin).
    unfold position_of in Hall. by rewrite Hp in Hall.
Qed.
End ControlMask.

(** ** Register arithmetic: bits in, bits out *)

Section RegisterBits.

Lemma to_int_testbit (x n : Z) :
  0 ≤ n < 32 → Z.testbit (to_int x) n = Z.testbit x n.
Proof.
  intros Hn. unfold to_int.
  rewrite <- (Z.mod_pow2_bits_low ((x + 2 ^ 31) mod 2 ^ 32 - 2 ^ 31) 32 n) by lia.
  rewrite <- (Z.mod_pow2_bits_low x 32 n) by lia.
  f_equal. rewrite Zminus_mod_idemp_l. f_equal. lia.
Qed.

Lemma testbit_bit (b : bool) (j : Z) :
  Z.testbit (bit b) j = b && bool_decide (j = 0).
Proof.
  destruct b; simpl; [|apply Z.bits_0].
  change 1 with (2 ^ 0). destruct (decide (0 ≤ j)) as [Hj|Hj].
  - rewrite Z.pow2_bits_eqb by lia. case_bool_decide; subst; simpl; [done|].
    by destruct j.
  - rewrite Z.testbit_neg_r by lia. rewrite bool_decide_eq_false_2; [done|lia].
Qed.

Lemma land_shiftr_bit (x q : Z) : Z.land (Z.shiftr x q) 1 = bit (Z.testbit x q).
Proof.
  destruct (decide (0 ≤ q)) as [Hq|Hq]; [by apply land_shiftr_one|].
  rewrite (Z.testbit_neg_r x q) by lia. simpl.
  change 1 with (Z.ones 1). rewrite Z.land_ones by lia.
  change (2 ^ 1) with 2. rewrite <- Z.bit0_mod, Z.shiftr_spec by lia.
  rewrite Z.testbit_neg_r by lia. done.
Qed.

(** [1UL << q] has no bit other than bit [q]. *)
Lemma shl_one_other (q b : Z) : b ≠ q → Z.testbit (shl_size_t 1 q) b = false.
Proof.
  intros Hne. unfold shl_size_t, wrap_size_t.
  destruct (decide (0 ≤ b)) as [Hb|Hb]; [|apply Z.testbit_neg_r; lia].
  destruct (decide (b < 64)) as [Hlow|Hhigh].
  - rewrite Z.mod_pow2_bits_low, Z.shiftl_spec by lia.
    rewrite (testbit_bit true). simpl. rewrite bool_decide_eq_false_2; [done|lia].
  - apply Z.mod_pow2_bits_high. lia.
Qed.

Lemma shl_bit_testbit (b : bool) (qb n : Z) :
  0 ≤ n < 64 → Z.testbit (shl_size_t (bit b) qb) n = b && bool_decide (n = qb).
Proof.
  intros Hn. unfold shl_size_t, wrap_size_t.
  rewrite Z.mod_pow2_bits_low, Z.shiftl_spec by lia.
  rewrite testbit_bit. f_equal. apply bool_decide_ext. lia.
Qed.

(** Bit [n] of the value read from a register is the bit of the index at
    the position of the register's [n]-th qubit. *)
Lemma read_register_testbit (i : Z) (qureg : list Z) (n : nat) :
  (n < 32)%nat →
  Z.testbit (read_register i qureg) (Z.of_nat n)
  = default false (Z.testbit i <$> qureg !! n).
Proof.
  intros Hn. unfold read_register.
  induction qureg as [|q l IH] using rev_ind; [by rewrite Z.bits_0|].
  rewrite imap_app, foldl_app. simpl. rewrite Nat.add_0_r.
  rewrite to_int_testbit, Z.lor_spec by lia.
  unfold wrap_size_t at 1. rewrite Z.mod_pow2_bits_low by lia.
  rewrite IH, land_shiftr_bit, shl_bit_testbit by lia.
  destruct (decide (n < length l)%nat) as [Hlow|Hhigh].
  - rewrite lookup_app_l by done.
    rewrite bool_decide_eq_false_2 by lia. by rewrite andb_false_r, orb_false_r.
  - rewrite (lookup_ge_None_2 l n) by lia. simpl.
    destruct (decide (n = length l)) as [->|Hne].
    + rewrite list_lookup_middle by done. simpl.
      rewrite bool_decide_eq_true_2 by done. by rewrite andb_true_r.
    + rewrite lookup_ge_None_2 by (rewrite length_app; simpl; lia). simpl.
      rewrite bool_decide_eq_false_2 by lia. by rewrite andb_false_r.
Qed.

(** One step of the write-back loop. *)
Lemma write_step_other (value new_i q b : Z) (qb_i : nat) :
  b ≠ q →
  Z.testbit (if decide (Z.land (Z.shiftr new_i q) 1
                        = Z.land (Z.shiftr value (Z.of_nat qb_i)) 1)
             then new_i else Z.lxor new_i (shl_size_t 1 q)) b
  = Z.testbit new_i b.
Proof.
  intros Hne. case_decide; [done|].
  by rewrite Z.lxor_spec, shl_one_other, xorb_false_r.
Qed.

Lemma write_step_same (value new_i q : Z) (qb_i : nat) :
  0 ≤ q < 64 →
  Z.testbit (if decide (Z.land (Z.shiftr new_i q) 1
                        = Z.land (Z.shiftr value (Z.of_nat qb_i)) 1)
             then new_i else Z.lxor new_i (shl_size_t 1 q)) q
  = Z.testbit value (Z.of_nat qb_i).
Proof.
  intros Hq. rewrite !land_shiftr_bit. case_decide as Hbits.
  - by destruct (Z.testbit new_i q), (Z.testbit value (Z.of_nat qb_i)).
  - rewrite Z.lxor_spec, shl_size_t_one, Z.pow2_bits_eqb, Z.eqb_refl by lia.
    by destruct (Z.testbit new_i q), (Z.testbit value (Z.of_nat qb_i)).
Qed.



(** Writing a register back touches no bit outside the register. *)
Lemma write_register_other (value : Z) (qureg : list Z) (new_i b : Z) :
  b ∉ qureg → Z.testbit (write_register value qureg new_i) b = Z.testbit new_i b.
Proof.
  unfold write_register.
  induction qureg as [|q l IH] using rev_ind; intros Hb; [done|].
  rewrite not_elem_of_app in Hb. destruct Hb as [Hl Hq].
  rewrite imap_app, foldl_app. simpl.
  rewrite write_step_other by (intros ->; apply Hq; by left).
  by apply IH.
Qed.

(** Writing a register back leaves bit [k] of the value at the position of
    the register's [k]-th qubit. *)
Lemma write_register_same (value : Z) (qureg : list Z) (new_i q : Z) (k : nat) :
  NoDup qureg → Forall (λ q, 0 ≤ q < 64) qureg →
  qureg !! k = Some q →
  Z.testbit (write_register value qureg new_i) q = Z.testbit value (Z.of_nat k).
Proof.
  unfold write_register.
  induction qureg as [|q' l IH] using rev_ind; intros Hnodup Hrange Hk; [done|].
  apply NoDup_app in Hnodup as (Hl & Hfresh & _).
  apply Forall_app in Hrange as [Hrange Hq'].
  rewrite imap_app, foldl_app. simpl. rewrite Nat.add_0_r.
  apply lookup_app_Some in Hk as [Hk|[Hlen Hk]].
  - rewrite write_step_other; [by apply IH|].
    intros ->. apply (Hfresh q'); [by eapply list_elem_of_lookup_2|by left].
  - apply list_lookup_singleton_Some in Hk as [Hk ->].
    replace k with (length l) by lia.
    apply write_step_same. by inversion Hq'.
Qed.

Lemma elem_of_concat (x : Z) (ls : list (list Z)) (l : list Z) :
  x ∈ l → l ∈ ls → x ∈ concat ls.
Proof.
  intros Hx Hl. induction ls as [|l' ls IH]; [by apply elem_of_nil in Hl|].
  simpl. apply elem_of_app. apply elem_of_cons in Hl as [->|Hl]; [by left|].
  right. by apply IH.
Qed.


Lemma write_registers_other (res : list Z) (quregs : list (list Z)) (i b : Z) :
  b ∉ concat quregs → Z.testbit (write_registers res quregs i) b = Z.testbit i b.
Proof.
  unfold write_registers.
  induction quregs as [|qureg l IH] using rev_ind; intros Hb; [done|].
  rewrite concat_app, not_elem_of_app in Hb. simpl in Hb. rewrite app_nil_r in Hb.
  destruct Hb as [Hl Hq].
  rewrite imap_app, foldl_app. simpl.
  rewrite write_register_other by done. by apply IH.
Qed.

Lemma write_registers_same (res : list Z) (quregs : list (list Z)) (i q : Z)
    (qureg : list Z) (r k : nat) :
  NoDup (concat quregs) → Forall (Forall (λ q, 0 ≤ q < 64)) quregs →
  quregs !! r = Some qureg → qureg !! k = Some q →
  Z.testbit (write_registers res quregs i) q
  = Z.testbit (default 0 (res !! r)) (Z.of_nat k).
Proof.
  unfold write_registers.
  induction quregs as [|qureg' l IH] using rev_ind;
    intros Hnodup Hrange Hr Hk; [done|].
  rewrite concat_app in Hnodup. simpl in Hnodup. rewrite app_nil_r in Hnodup.
  apply NoDup_app in Hnodup as (Hl & Hfresh & Hlast).
  apply Forall_app in Hrange as [Hrange Hlast_range].
  rewrite imap_app, foldl_app. simpl. rewrite Nat.add_0_r.
  apply lookup_app_Some in Hr as [Hr|[Hlen Hr]].
  - rewrite write_register_other; [by apply IH|].
    apply (Hfresh q).
    apply (elem_of_concat q l qureg); by eapply list_elem_of_lookup_2.
  - apply list_lookup_singleton_Some in Hr as [Hr ->].
    replace r with (length l) by lia.
    apply write_register_same; [done|by inversion Hlast_range|done].
Qed.

(** With one slot per register, the read loop overwrites every slot. *)
Lemma read_registers_from (i : Z) (quregs : list (list Z)) (res : list Z) :
  (length quregs ≤ length res)%nat →
  read_registers i quregs res
  = (read_register i <$> quregs) ++ drop (length quregs) res.
Proof.
  unfold read_registers.
  induction quregs as [|qureg l IH] using rev_ind; intros Hlen; [done|].
  rewrite length_app in Hlen. simpl in Hlen.
  rewrite imap_app, foldl_app. simpl. rewrite Nat.add_0_r.
  rewrite IH by lia. rewrite fmap_app, length_app. simpl.
  destruct (lookup_lt_is_Some_2 res (length l) ltac:(lia)) as [x Hx].
  rewrite insert_app_r_alt by (rewrite length_fmap; lia).
  rewrite length_fmap, Nat.sub_diag, (drop_S _ _ _ Hx). simpl.
  rewrite <- app_assoc. simpl. do 3 f_equal. lia.
Qed.

Lemma read_registers_all (i : Z) (quregs : list (list Z)) (res : list Z) :
  length res = length quregs →
  read_registers i quregs res = read_register i <$> quregs.
Proof.
  intros Hlen. rewrite read_registers_from by lia.
  rewrite drop_ge by lia. apply app_nil_r.
Qed.
End RegisterBits.

(** ** Emulated arithmetic *)

Section EmulateMath.
Context `{FusionModel}.

Lemma lookup_positions_position (m : Map) (ids : list Z) (id' : Z) :
  position_of (lookup_positions m ids).1 id' = position_of m id'.
Proof.
  revert m. induction ids as [|id ids IH]; intros m; simpl; [done|].
  destruct (map_index m id) as [m1 p] eqn:E.
  specialize (IH m1). destruct (lookup_positions m1 ids) as [m2 ps]. simpl in *.
  rewrite IH. replace m1 with (map_index m id).1 by (by rewrite E).
  apply position_of_map_index.
Qed.

Lemma lookup_quregs_position (m : Map) (quregs : list (list Z)) (id' : Z) :
  position_of (lookup_quregs m quregs).1 id' = position_of m id'.
Proof.
  revert m. induction quregs as [|qureg quregs IH]; intros m; simpl; [done|].
  pose proof (lookup_positions_position m qureg id') as Hq.
  destruct (lookup_positions m qureg) as [m1 ps].
  specialize (IH m1). destruct (lookup_quregs m1 quregs) as [m2 pss]. simpl in *.
  by rewrite IH.
Qed.

Lemma lookup_quregs_snd (m : Map) (quregs : list (list Z)) :
  (lookup_quregs m quregs).2 = register_positions m quregs.
Proof.
  revert m. induction quregs as [|qureg quregs IH]; intros m; simpl; [done|].
  pose proof (lookup_positions_snd m qureg) as Hq.
  pose proof (λ id', lookup_positions_position m qureg id') as Hpos.
  destruct (lookup_positions m qureg) as [m1 ps].
  specialize (IH m1). destruct (lookup_quregs m1 quregs) as [m2 pss]. simpl in *.
  rewrite Hq, IH. unfold register_positions. simpl. f_equal.
  apply list_fmap_ext. intros _ reg _. apply list_fmap_ext. intros _ id' _. apply Hpos.
Qed.

Lemma lookup_quregs_mapped (m : Map) (quregs : list (list Z)) :
  Forall (Forall (λ id, is_Some (m !! id))) quregs → (lookup_quregs m quregs).1 = m.
Proof.
  induction 1 as [|qureg quregs Hq _ IH]; simpl; [done|].
  rewrite lookup_positions_mapped by done.
  by destruct (lookup_quregs m quregs).
Qed.

(** Looking up mapped ids, or unmapped ones, never moves a mapped id. *)
Lemma lookup_positions_keeps (m : Map) (ids : list Z) (id p : Z) :
  m !! id = Some p → (lookup_positions m ids).1 !! id = Some p.
Proof.
  revert m. induction ids as [|id' ids IH]; intros m Hid; simpl; [done|].
  destruct (map_index m id') as [m1 p'] eqn:E.
  assert (Hid1 : m1 !! id = Some p).
  { unfold map_index in E. destruct (m !! id') eqn:E'; injection E as <- <-; [done|].
    rewrite lookup_insert_ne; [done|]. intros ->. congruence. }
  specialize (IH m1 Hid1). by destruct (lookup_positions m1 ids).
Qed.

Lemma lookup_quregs_keeps (m : Map) (quregs : list (list Z)) (id p : Z) :
  m !! id = Some p → (lookup_quregs m quregs).1 !! id = Some p.
Proof.
  revert m. induction quregs as [|qureg quregs IH]; intros m Hid; simpl; [done|].
  pose proof (lookup_positions_keeps m qureg id p Hid) as Hq.
  destruct (lookup_positions m qureg) as [m1 ps].
  specialize (IH m1 Hq). by destruct (lookup_quregs m1 quregs).
Qed.

Lemma emulate_math_unfold (f : list Z → list Z) (quregs : list (list Z))
    (ctrl : list Z) (s : Simulator) :
  emulate_math f quregs ctrl s
  = Returns ()
      (set_vec
         (set_map (run s) (lookup_quregs (get_control_mask ctrl (map_ s)).1 quregs).1)
         (foldl (λ a i, emulate_body f (register_positions (map_ s) quregs)
                          (get_control_mask ctrl (map_ s)).2 (vec_ (run s)) i a)
                (replicate (length (vec_ (run s))) czero,
                 replicate (length quregs) 0)
                (seqZ 0 (vsize (vec_ (run s))))).1).
Proof.
  unfold emulate_math, for_each_index. rewrite run_map.
  rewrite get_control_mask_fold. simpl.
  pose proof (lookup_quregs_snd (lookup_positions (map_ s) ctrl).1 quregs) as Hps.
  destruct (lookup_quregs _ quregs) as [m ps]. simpl in *. subst ps.
  replace (register_positions (lookup_positions (map_ s) ctrl).1 quregs)
    with (register_positions (map_ s) quregs).
  - unfold register_positions. rewrite length_fmap. unfold emulate_body.
    by destruct (foldl _ _ _).
  - unfold register_positions.
    apply list_fmap_ext. intros _ reg _. apply list_fmap_ext. intros _ id' _.
    symmetry. apply lookup_positions_position.
Qed.

Lemma emulate_body_length (f : list Z → list Z) (quregs : list (list Z))
    (ctrlmask : Z) (v : StateVector) (l : list Z) (a : StateVector * list Z) :
  length (foldl (λ a i, emulate_body f quregs ctrlmask v i a) a l).1 = length a.1.
Proof.
  revert a. induction l as [|i l IH]; intros [newvec res]; simpl; [done|].
  rewrite IH. case_decide; simpl; unfold vset; by rewrite length_insert.
Qed.

Lemma emulate_body_moves (f : list Z → list Z) (quregs : list (list Z))
    (ctrlmask : Z) (v : StateVector) (l : list Z) (newvec : StateVector) (res : list Z) :
  (∀ res, length (f res) = length res) →
  length res = length quregs →
  (foldl (λ a i, emulate_body f quregs ctrlmask v i a) (newvec, res) l).1
  = foldl (move (emulate_target f quregs ctrlmask) v) newvec l.
Proof.
  intros Hf. revert newvec res.
  induction l as [|i l IH]; intros newvec res Hres; simpl; [done|].
  unfold move at 2. unfold emulate_target at 2 3.
  rewrite read_registers_all by done.
  case_decide; apply IH; [|done].
  by rewrite Hf, length_fmap.
Qed.




(** What the model of [emulate_math] leaves behind. *)
Lemma emulate_math_state (f : list Z → list Z) (quregs : list (list Z))
    (ctrl : list Z) (s : Simulator) :
  ∃ v m,
    emulate_math f quregs ctrl s = Returns () (set_vec (set_map (run s) m) v)
    ∧ length v = length (vec_ s)
    ∧ (∀ id p, map_ s !! id = Some p → m !! id = Some p)
    ∧ (Forall (λ id, is_Some (map_ s !! id)) ctrl →
       Forall (Forall (λ id, is_Some (map_ s !! id))) quregs →
       m = map_ s).
Proof.
  rewrite emulate_math_unfold. eexists _, _. split; [reflexivity|].
  rewrite get_control_mask_fold. simpl. split_and!.
  - rewrite emulate_body_length. simpl.
    by rewrite length_replicate, run_vec_length.
  - intros id p Hid. by apply lookup_quregs_keeps, lookup_positions_keeps.
  - intros Hctrl Hquregs. rewrite lookup_positions_mapped by done. simpl.
    by apply lookup_quregs_mapped.
Qed.



(** X17.  Where [emulate_math] sends an index, for registers given by their
    bit positions: pairwise distinct positions below 64, at most 32 per
    register.  An index that fails the control test stays.  For any other
    index, bit [k] of the value read for a register is the bit of the
    index at the position of the register's [k]-th qubit; after the
    callback, the target carries bit [k] of the register's new value at
    that position; and the target agrees with the index on every bit that
    belongs to no register. *)
Theorem emulate_target_spec (f : list Z → list Z) (quregs : list (list Z))
    (ctrlmask i : Z) :
  NoDup (concat quregs) →
  Forall (Forall (λ q, 0 ≤ q < 64)) quregs →
  Forall (λ qureg, (length qureg ≤ 32)%nat) quregs →
  (Z.land ctrlmask i ≠ ctrlmask → emulate_target f quregs ctrlmask i = i)
  ∧ (Z.land ctrlmask i = ctrlmask →
     (∀ r qureg k q, quregs !! r = Some qureg → qureg !! k = Some q →
        Z.testbit (default 0 ((read_register i <$> quregs) !! r)) (Z.of_nat k)
        = Z.testbit i q
        ∧ Z.testbit (emulate_target f quregs ctrlmask i) q
          = Z.testbit (default 0 (f (read_register i <$> quregs) !! r)) (Z.of_nat k))
     ∧ (∀ b, b ∉ concat quregs →
          Z.testbit (emulate_target f quregs ctrlmask i) b = Z.testbit i b)).
Proof.
  intros Hnodup Hrange Hwidth. unfold emulate_target. split.
  - intros Hfail. by rewrite decide_False.
  - intros Hpass. rewrite decide_True by done. split.
    + intros r qureg k q Hr Hk. split.
      * rewrite list_lookup_fmap, Hr. simpl.
        rewrite Forall_forall in Hwidth.
        pose proof (Hwidth qureg (list_elem_of_lookup_2 _ _ _ Hr)) as Hw.
        pose proof (lookup_lt_Some _ _ _ Hk) as Hlt.
        rewrite read_register_testbit by lia. by rewrite Hk.
      * by apply (write_registers_same _ _ _ _ qureg).
    + intros b Hb. by apply write_registers_other.
Qed.

(** A callback that does not change the low 32 bits of any register
    leaves every index in place. *)
Lemma write_register_fixed (value : Z) (qureg : list Z) (i : Z) :
  (∀ k q, qureg !! k = Some q → Z.testbit value (Z.of_nat k) = Z.testbit i q) →
  write_register value qureg i = i.
Proof.
  unfold write_register.
  induction qureg as [|q l IH] using rev_ind; intros Hbits; [done|].
  rewrite imap_app, foldl_app. simpl. rewrite Nat.add_0_r.
  rewrite IH.
  - rewrite !land_shiftr_bit, (Hbits (length l) q) by (by apply list_lookup_middle).
    by rewrite decide_True.
  - intros k q' Hk. apply Hbits. by apply lookup_app_l_Some.
Qed.

Lemma write_registers_fixed (res : list Z) (quregs : list (list Z)) (i : Z) :
  (∀ r qureg k q, quregs !! r = Some qureg → qureg !! k = Some q →
     Z.testbit (default 0 (res !! r)) (Z.of_nat k) = Z.testbit i q) →
  write_registers res quregs i = i.
Proof.
  unfold write_registers.
  induction quregs as [|qureg l IH] using rev_ind; intros Hbits; [done|].
  rewrite imap_app, foldl_app. simpl. rewrite Nat.add_0_r.
  rewrite IH.
  - apply write_register_fixed. intros k q Hk.
    apply (Hbits (length l) qureg); [by apply list_lookup_middle|done].
  - intros r qureg' k q Hr Hk. apply (Hbits r qureg'); [|done].
    by apply lookup_app_l_Some.
Qed.

Lemma emulate_math_fixed (f : list Z → list Z) (quregs : list (list Z))
    (ctrl : list Z) (s : Simulator) :
  (∀ res, length (f res) = length res) →
  (∀ res r n, 0 ≤ n < 32 →
     Z.testbit (default 0 (f res !! r)) n = Z.testbit (default 0 (res !! r)) n) →
  Forall (λ qureg, (length qureg ≤ 32)%nat) quregs →
  vec_ (final_state (emulate_math f quregs ctrl s)) = cadd czero <$> vec_ (run s).
Proof.
  intros Hf Hbits Hwidth. rewrite emulate_math_unfold. simpl.
  rewrite emulate_body_moves by (by (unfold register_positions; rewrite ?length_replicate, ?length_fmap)).
  set (ps := register_positions (map_ s) quregs).
  assert (Hps : ps = (λ qureg : list Z, position_of (map_ s) <$> qureg) <$> quregs)
    by done.
  set (mask := (get_control_mask ctrl (map_ s)).2).
  set (v := vec_ (run s)).
  rewrite (foldl_agree _ (λ w i, vset w i (cadd (amp w i) (amp v i)))).
  - pose proof (inplace_loop (λ i a, cadd a (amp v i))
                  (λ i w, vset w i (cadd (amp w i) (amp v i)))
                  ltac:(done) (replicate (length v) czero) []) as Hloop.
    simpl in Hloop. rewrite length_replicate in Hloop. unfold vsize.
    change (Z.of_nat 0) with 0 in Hloop.
    rewrite Hloop. apply list_eq. intros i.
    rewrite list_lookup_imap, list_lookup_fmap.
    destruct (decide (i < length v)%nat) as [Hi|Hi].
    + rewrite lookup_replicate_2 by done. simpl.
      rewrite (lookup_amp v i Hi). done.
    + rewrite (lookup_ge_None_2 (replicate _ _)) by (rewrite length_replicate; lia).
      simpl. by rewrite lookup_ge_None_2 by lia.
  - intros w i _. unfold move. replace (emulate_target f ps mask i) with i; [done|].
    unfold emulate_target. case_decide; [|done]. symmetry.
    apply write_registers_fixed. intros r qureg k q Hr Hk.
    assert (Hw : (length qureg ≤ 32)%nat).
    { rewrite Hps, list_lookup_fmap in Hr.
      destruct (quregs !! r) as [reg|] eqn:E; [|done]. injection Hr as <-.
      rewrite length_fmap. rewrite Forall_forall in Hwidth.
      apply Hwidth. by eapply list_elem_of_lookup_2. }
    pose proof (lookup_lt_Some _ _ _ Hk) as Hlt.
    rewrite Hbits by lia. rewrite list_lookup_fmap, Hr. simpl.
    rewrite read_register_testbit by lia. by rewrite Hk.
Qed.

(** X18.  A callback that keeps the number of registers and the low 32
    bits of every register value moves nothing: with registers of at most
    32 qubits, [emulate_math] leaves every amplitude at its index, as the
    sum of zero and the flushed amplitude. *)
Theorem emulate_math_fixed_registers (f : list Z → list Z) (quregs : list (list Z))
    (ctrl : list Z) (s : Simulator) :
  (∀ res, length (f res) = length res) →
  (∀ res r n, 0 ≤ n < 32 →
     Z.testbit (default 0 (f res !! r)) n = Z.testbit (default 0 (res !! r)) n) →
  Forall (λ qureg, (length qureg ≤ 32)%nat) quregs →
  emulate_math f quregs ctrl s
  = Returns ()
      (set_vec (set_map (run s)
                  (lookup_quregs (get_control_mask ctrl (map_ s)).1 quregs).1)
               (cadd czero <$> vec_ (run s))).
Proof.
  intros Hf Hbits Hwidth.
  pose proof (emulate_math_fixed f quregs ctrl s Hf Hbits Hwidth) as Hvec.
  rewrite emulate_math_unfold in *. simpl in Hvec. by rewrite Hvec.
Qed.

(** X19.  Adding the constant 0 is the identity on the registers: with
    registers of at most 32 qubits, [emulate_math_addConstant] with [a = 0]
    leaves every amplitude at its index, as the sum of zero and the
    flushed amplitude, under any controls. *)
Theorem emulate_math_addConstant_zero (quregs : list (list Z)) (ctrl : list Z)
    (s : Simulator) :
  Forall (λ qureg, (length qureg ≤ 32)%nat) quregs →
  vec_ (final_state (emulate_math_addConstant 0 quregs ctrl s))
  = cadd czero <$> vec_ (run s).
Proof.
  intros Hwidth. unfold emulate_math_addConstant.
  apply emulate_math_fixed; [|
   |done].
  - intros res. apply length_fmap.
  - intros res r n Hn. rewrite list_lookup_fmap.
    destruct (res !! r) as [x|]; simpl; [|done].
    by rewrite to_int_testbit, Z.add_0_r.
Qed.
End EmulateMath.

(** ** Expectation values and operator sums *)

Section ObservableFacts.
Context `{ExternalOps}.

(** The loop that reads the transformed vector and puts the saved one
    back leaves the saved vector, whatever it accumulates on the way. *)
Lemma restore_loop {A} (g : Z → complex_type → A → A) (saved v : StateVector) (a0 : A) :
  length v = length saved →
  (for_each_index (vsize v)
     (λ i '(w, acc), (vset w i (amp saved i), g i (amp w i) acc)) (v, a0)).1
  = saved.
Proof.
  intros Hlen. unfold for_each_index, vsize.
  pose proof (inplace_loop_acc (λ i _, amp saved i) g
                (λ i '(w, acc), (vset w i (amp saved i), g i (amp w i) acc))
                ltac:(done) v [] a0) as Hloop.
  simpl in Hloop. change (Z.of_nat 0) with 0 in Hloop. rewrite Hloop. simpl.
  apply list_eq. intros i. rewrite list_lookup_imap.
  destruct (decide (i < length v)%nat) as [Hi|Hi].
  - rewrite (lookup_amp v i Hi). simpl. rewrite <- lookup_amp by lia. done.
  - rewrite !lookup_ge_None_2 by lia. done.
Qed.

Lemma pauli_gate_defined (c : Z) : 88 ≤ c ≤ 90 → is_Some (pauli_gate c).
Proof.
  intros Hc. unfold pauli_gate. rewrite decide_True by lia.
  apply lookup_lt_is_Some_2. simpl. lia.
Qed.

(** The gates of a term go through [apply_controlled_gate], which touches
    neither the map nor the qubit count nor the size of the vector. *)
Lemma apply_local_ops_frame (term : Term) (ids ctrl : list Z) (s s' : Simulator) :
  apply_local_ops term ids ctrl s = Some s' →
  N_ s' = N_ s ∧ map_ s' = map_ s
  ∧ length (vec_ s') = length (vec_ s)
  ∧ fusion_qubits_min_ s' = fusion_qubits_min_ s
  ∧ fusion_qubits_max_ s' = fusion_qubits_max_ s.
Proof.
  revert s. induction term as [|[first second] term IH]; intros s; simpl.
  - by intros [= <-].
  - destruct (if decide (0 ≤ first) then ids !! Z.to_nat first else None) as [id|];
      simpl; [|done].
    destruct (pauli_gate second) as [g|]; simpl; [|done].
    destruct (apply_controlled_gate_keeps g [id] ctrl s)
      as (s1 & E & HN & Hmap & Hlen & Hmin & Hmax).
    rewrite E. simpl. intros Hrest.
    destruct (IH _ Hrest) as (IHN & IHmap & IHlen & IHmin & IHmax).
    split_and!; congruence.
Qed.

Lemma apply_local_ops_defined (term : Term) (ids ctrl : list Z) (s : Simulator) :
  valid_term ids term → is_Some (apply_local_ops term ids ctrl s).
Proof.
  intros Hvalid. revert s.
  induction Hvalid as [|[first second] term [Hfirst Hsecond] _ IH]; intros s; simpl in *.
  - by eexists.
  - rewrite decide_True by lia.
    destruct (lookup_lt_is_Some_2 ids (Z.to_nat first) ltac:(lia)) as [id ->]. simpl.
    destruct (pauli_gate_defined second Hsecond) as [g ->]. simpl. apply IH.
Qed.

(** The model of [apply_term] has a result exactly for the terms for which
    the C++ is defined. *)
Lemma apply_local_ops_valid (term : Term) (ids ctrl : list Z) (s : Simulator) :
  is_Some (apply_local_ops term ids ctrl s) → valid_term ids term.
Proof.
  revert s. induction term as [|[first second] term IH]; intros s; simpl.
  - intros _. constructor.
  - destruct (decide (0 ≤ first)) as [Hfirst|]; simpl; [|by intros [? ?]].
    destruct (ids !! Z.to_nat first) as [id|] eqn:Hid; simpl; [|by intros [? ?]].
    unfold pauli_gate. destruct (decide (88 ≤ second)) as [Hsecond|]; [|by intros [? ?]].
    destruct (gates !! Z.to_nat (second - 88)) as [g|] eqn:Hg; simpl; [|by intros [? ?]].
    intros Hrest. constructor; [|by eapply IH].
    apply lookup_lt_Some in Hid, Hg. simpl in *. lia.
Qed.

Lemma apply_term_frame (term : Term) (ids ctrl : list Z) (s : Simulator)
    (o : outcome Simulator ()) :
  apply_term term ids ctrl s = Some o →
  ∃ s', o = Returns () s'
        ∧ N_ s' = N_ s ∧ map_ s' = map_ s
        ∧ length (vec_ s') = length (vec_ s)
        ∧ fusion_qubits_min_ s' = fusion_qubits_min_ s
        ∧ fusion_qubits_max_ s' = fusion_qubits_max_ s
        ∧ fusion_is_empty (fused_gates_ s') = true.
Proof.
  unfold apply_term. destruct (apply_local_ops term ids ctrl s) as [s1|] eqn:E;
    simpl; [|done].
  intros [= <-]. eexists. split; [reflexivity|].
  destruct (apply_local_ops_frame _ _ _ _ _ E) as (HN & Hmap & Hlen & Hmin & Hmax).
  rewrite run_N, run_map, run_vec_length, run_min, run_max, run_fused_empty.
  by split_and!.
Qed.

Lemma apply_term_defined (term : Term) (ids ctrl : list Z) (s : Simulator) :
  valid_term ids term → is_Some (apply_term term ids ctrl s).
Proof.
  intros Hvalid. unfold apply_term.
  destruct (apply_local_ops_defined term ids ctrl s Hvalid) as [s' ->].
  by eexists.
Qed.

(** Every round of the loop over the terms ends with the saved vector back
    in place. *)
Lemma expectation_terms_frame (td : list (Term * calc_type)) (ids : list Z)
    (saved : StateVector) (s s' : Simulator) (e e' : calc_type) :
  expectation_terms td ids saved s e = Some (s', e') →
  vec_ s = saved →
  fusion_is_empty (fused_gates_ s) = true →
  vec_ s' = saved ∧ map_ s' = map_ s ∧ N_ s' = N_ s
  ∧ fusion_qubits_min_ s' = fusion_qubits_min_ s
  ∧ fusion_qubits_max_ s' = fusion_qubits_max_ s
  ∧ fusion_is_empty (fused_gates_ s') = true.
Proof.
  revert s e. induction td as [|[term coefficient] td IH]; intros s e; simpl.
  - by intros [= <- <-].
  - destruct (apply_term term ids [] s) as [o|] eqn:E; simpl; [|done].
    destruct (apply_term_frame _ _ _ _ _ E)
      as (s2 & -> & HN2 & Hmap2 & Hlen2 & Hmin2 & Hmax2 & Hempty2).
    simpl. intros Hrest Hvec Hempty.
    pose proof (restore_loop
                  (λ i x delta,
                     calc_add delta
                       (calc_sub (calc_mul (real (amp saved i)) (real x))
                                 (calc_mul (calc_opp (imag (amp saved i))) (imag x))))
                  saved (vec_ s2) calc_zero ltac:(congruence)) as Hrestore.
    destruct (for_each_index _ _ _) as [v delta]. simpl in Hrestore. subst v.
    destruct (IH _ _ Hrest) as (IHvec & IHmap & IHN & IHmin & IHmax & IHempty);
      [done..|].
    simpl in *. split_and!; congruence.
Qed.

Lemma expectation_terms_defined (td : list (Term * calc_type)) (ids : list Z)
    (saved : StateVector) (s : Simulator) (e : calc_type) :
  Forall (λ t, valid_term ids t.1) td →
  is_Some (expectation_terms td ids saved s e).
Proof.
  intros Hvalid. revert s e.
  induction Hvalid as [|[term coefficient] td Hterm _ IH]; intros s e; simpl in *.
  - by eexists.
  - destruct (apply_term_defined term ids [] s Hterm) as [o ->]. simpl.
    destruct (for_each_index _ _ _) as [v delta]. apply IH.
Qed.

Lemma get_expectation_value_frame (td : list (Term * calc_type)) (ids : list Z)
    (s : Simulator) (o : outcome Simulator calc_type) :
  get_expectation_value td ids s = Some o →
  ∃ e s', o = Returns e s'
          ∧ vec_ s' = vec_ (run s)
          ∧ map_ s' = map_ s
          ∧ N_ s' = N_ s
          ∧ fusion_qubits_min_ s' = fusion_qubits_min_ s
          ∧ fusion_qubits_max_ s' = fusion_qubits_max_ s
          ∧ fusion_is_empty (fused_gates_ s') = true.
Proof.
  unfold get_expectation_value.
  destruct (expectation_terms _ _ _ _ _) as [[s' e]|] eqn:E; simpl; [|done].
  intros [= <-]. exists e, s'. split; [done|].
  destruct (expectation_terms_frame _ _ _ _ _ _ _ E eq_refl (run_fused_empty s))
    as (Hvec & Hmap & HN & Hmin & Hmax & Hempty).
  rewrite run_map, run_N, run_min, run_max in *. by split_and!.
Qed.

(** X20.  [get_expectation_value] is a query.  For terms that only name
    local indices inside [ids] and operators among X, Y and Z, it returns,
    and the engine it leaves has the wavefunction that the flush at its
    start produced, the map, the qubit count and the fusion limits it
    found, and nothing pending.  With no terms it returns 0. *)
Theorem get_expectation_value_restores (td : list (Term * calc_type)) (ids : list Z)
    (s : Simulator) :
  Forall (λ t, valid_term ids t.1) td →
  ∃ e s', get_expectation_value td ids s = Some (Returns e s')
          ∧ vec_ s' = vec_ (run s)
          ∧ map_ s' = map_ s
          ∧ N_ s' = N_ s
          ∧ fusion_qubits_min_ s' = fusion_qubits_min_ s
          ∧ fusion_qubits_max_ s' = fusion_qubits_max_ s
          ∧ fusion_is_empty (fused_gates_ s') = true
          ∧ (td = [] → e = calc_zero).
Proof.
  intros Hvalid.
  destruct (get_expectation_value td ids s) as [o|] eqn:E.
  - destruct (get_expectation_value_frame _ _ _ _ E) as (e & s' & -> & Hframe).
    exists e, s'. split; [done|].
    destruct Hframe as (? & ? & ? & ? & ? & ?). split_and!; try done.
    intros ->. unfold get_expectation_value in E. simpl in E. by injection E as <-.
  - unfold get_expectation_value in E.
    destruct (expectation_terms_defined td ids (vec_ (run s)) (run s) calc_zero Hvalid)
      as [[s' e] Hsome].
    rewrite Hsome in E. done.
Qed.

Lemma operator_terms_frame (td : list (Term * complex_type)) (ids : list Z)
    (saved : StateVector) (s s' : Simulator) (new_state new_state' : StateVector) :
  operator_terms td ids saved s new_state = Some (s', new_state') →
  vec_ s = saved →
  vec_ s' = saved ∧ length new_state' = length new_state
  ∧ map_ s' = map_ s ∧ N_ s' = N_ s
  ∧ fusion_qubits_min_ s' = fusion_qubits_min_ s
  ∧ fusion_qubits_max_ s' = fusion_qubits_max_ s
  ∧ (td ≠ [] → fusion_is_empty (fused_gates_ s') = true).
Proof.
  revert s new_state. induction td as [|[term coefficient] td IH];
    intros s new_state; simpl.
  - intros [= <- <-] Hvec. by split_and!.
  - destruct (apply_term term ids [] s) as [o|] eqn:E; simpl; [|done].
    destruct (apply_term_frame _ _ _ _ _ E)
      as (s2 & -> & HN2 & Hmap2 & Hlen2 & Hmin2 & Hmax2 & Hempty2).
    simpl. intros Hrest Hvec.
    pose proof (restore_loop
                  (λ i x (acc : StateVector),
                     vset acc i (cadd (amp acc i) (complex_times coefficient x)))
                  saved (vec_ s2) new_state ltac:(congruence)) as Hrestore.
    assert (Hkeeps : length (for_each_index (vsize (vec_ s2))
                       (λ i '(w, acc),
                          (vset w i (amp saved i),
                           vset acc i (cadd (amp acc i)
                                            (complex_times coefficient (amp w i)))))
                       (vec_ s2, new_state)).2 = length new_state).
    { unfold for_each_index. generalize (seqZ 0 (vsize (vec_ s2))).
      generalize (vec_ s2). generalize new_state. clear.
      intros acc w l. revert acc w.
      induction l as [|i l IHl]; intros acc w; simpl; [done|].
      rewrite IHl. unfold vset. by rewrite length_insert. }
    destruct (for_each_index _ _ _) as [v acc]. simpl in Hrestore, Hkeeps. subst v.
    destruct (IH _ _ Hrest) as (IHvec & IHlen & IHmap & IHN & IHmin & IHmax & IHempty);
      [done|].
    simpl in *. split_and!; try congruence.
    intros _. destruct td as [|t td]; [|by apply IHempty].
    simpl in Hrest. by injection Hrest as <- _.
Qed.

Lemma operator_terms_defined (td : list (Term * complex_type)) (ids : list Z)
    (saved : StateVector) (s : Simulator) (new_state : StateVector) :
  Forall (λ t, valid_term ids t.1) td →
  is_Some (operator_terms td ids saved s new_state).
Proof.
  intros Hvalid. revert s new_state.
  induction Hvalid as [|[term coefficient] td Hterm _ IH]; intros s new_state;
    simpl in *.
  - by eexists.
  - destruct (apply_term_defined term ids [] s Hterm) as [o ->]. simpl.
    destruct (for_each_index _ _ _) as [v acc]. apply IH.
Qed.

Lemma apply_qubit_operator_state (td : list (Term * complex_type)) (ids : list Z)
    (s : Simulator) (o : outcome Simulator ()) :
  apply_qubit_operator td ids s = Some o →
  ∃ s', o = Returns () s'
        ∧ length (vec_ s') = length (vec_ s)
        ∧ map_ s' = map_ s
        ∧ N_ s' = N_ s
        ∧ fusion_qubits_min_ s' = fusion_qubits_min_ s
        ∧ fusion_qubits_max_ s' = fusion_qubits_max_ s
        ∧ fusion_is_empty (fused_gates_ s') = true.
Proof.
  unfold apply_qubit_operator.
  destruct (operator_terms _ _ _ _ _) as [[s' new_state]|] eqn:E; simpl; [|done].
  intros [= <-]. eexists. split; [reflexivity|].
  destruct (operator_terms_frame _ _ _ _ _ _ _ E eq_refl)
    as (Hvec & Hlen & Hmap & HN & Hmin & Hmax & Hempty).
  rewrite length_replicate, run_vec_length in Hlen.
  rewrite run_map, run_N, run_min, run_max in *. simpl. split_and!; try done.
  destruct td as [|t td]; [|by apply Hempty].
  simpl in E. injection E as <- _. apply run_fused_empty.
Qed.

(** X21.  [apply_qubit_operator] keeps the shape of the engine.  For terms
    that only name local indices inside [ids] and operators among X, Y and
    Z, it returns and replaces the wavefunction by one of the same size;
    the map, the qubit count and the fusion limits stay, and nothing is
    left pending.  An operator with no terms leaves the zero vector. *)
Theorem apply_qubit_operator_frame (td : list (Term * complex_type)) (ids : list Z)
    (s : Simulator) :
  Forall (λ t, valid_term ids t.1) td →
  ∃ s', apply_qubit_operator td ids s = Some (Returns () s')
        ∧ length (vec_ s') = length (vec_ s)
        ∧ map_ s' = map_ s
        ∧ N_ s' = N_ s
        ∧ fusion_qubits_min_ s' = fusion_qubits_min_ s
        ∧ fusion_qubits_max_ s' = fusion_qubits_max_ s
        ∧ fusion_is_empty (fused_gates_ s') = true
        ∧ (td = [] → vec_ s' = replicate (length (vec_ s)) czero).
Proof.
  intros Hvalid.
  destruct (apply_qubit_operator td ids s) as [o|] eqn:E.
  - destruct (apply_qubit_operator_state _ _ _ _ E) as (s' & -> & Hframe).
    exists s'. split; [done|].
    destruct Hframe as (? & ? & ? & ? & ? & ?). split_and!; try done.
    intros ->. unfold apply_qubit_operator in E. simpl in E. injection E as <-.
    simpl. by rewrite run_vec_length.
  - unfold apply_qubit_operator in E.
    destruct (operator_terms_defined td ids (vec_ (run s)) (run s)
                (replicate (length (vec_ (run s))) czero) Hvalid)
      as [[s' new_state] Hsome].
    rewrite Hsome in E. done.
Qed.
End ObservableFacts.

(** ** The one-target kernel *)

Section Kernel1Facts.
Context `{CalcType}.

Lemma amp_vset_same (w : StateVector) (j : Z) (a : complex_type) :
  0 ≤ j < vsize w → amp (vset w j a) j = a.
Proof.
  intros Hj. unfold amp, vset, vsize in *. by rewrite list_lookup_insert_eq by lia.
Qed.

Lemma amp_vset_other (w : StateVector) (j k : Z) (a : complex_type) :
  0 ≤ j → 0 ≤ k → j ≠ k → amp (vset w j a) k = amp w k.
Proof.
  intros Hj Hk Hne. unfold amp, vset. by rewrite list_lookup_insert_ne by lia.
Qed.

Lemma core_pair (add mul : complex_type → complex_type → complex_type)
    (psi : StateVector) (I d0 : Z) (m : list (list complex_type)) :
  0 ≤ I → 0 < d0 → I + d0 < vsize psi →
  amp (core add mul psi I d0 m) I
  = add (mul (amp psi I) (entry m 0 0)) (mul (amp psi (I + d0)) (entry m 0 1))
  ∧ amp (core add mul psi I d0 m) (I + d0)
    = add (mul (amp psi I) (entry m 1 0)) (mul (amp psi (I + d0)) (entry m 1 1)).
Proof.
  intros HI Hd Hin. unfold core. split.
  - rewrite amp_vset_other by lia. apply amp_vset_same. lia.
  - apply amp_vset_same. unfold vset, vsize in *. rewrite length_insert. lia.
Qed.

(** X22.  [kernel1::core] updates one pair in place.  For a pair of distinct
    indices [I] and [I + d0] inside the vector, whatever [add] and [mul]
    are: the size stays; both new entries are computed from the two old
    entries, the second one too although the first has been overwritten by
    then; and every other entry is untouched. *)
Theorem core_spec (add mul : complex_type → complex_type → complex_type)
    (psi : StateVector) (I d0 : Z) (m : list (list complex_type)) :
  0 ≤ I → 0 < d0 → I + d0 < vsize psi →
  length (core add mul psi I d0 m) = length psi
  ∧ amp (core add mul psi I d0 m) I
    = add (mul (amp psi I) (entry m 0 0)) (mul (amp psi (I + d0)) (entry m 0 1))
  ∧ amp (core add mul psi I d0 m) (I + d0)
    = add (mul (amp psi I) (entry m 1 0)) (mul (amp psi (I + d0)) (entry m 1 1))
  ∧ (∀ k, 0 ≤ k → k ≠ I → k ≠ I + d0 →
          amp (core add mul psi I d0 m) k = amp psi k).
Proof.
  intros HI Hd Hin.
  destruct (core_pair add mul psi I d0 m HI Hd Hin) as [Hfirst Hsecond].
  split_and!; [|done..|].
  - unfold core, vset. by rewrite !length_insert.
  - intros k Hk HkI Hkd. unfold core. by rewrite !amp_vset_other by lia.
Qed.

Lemma pow2_testbit (p n : Z) : 0 ≤ p → Z.testbit (2 ^ p) n = bool_decide (n = p).
Proof.
  intros Hp. destruct (decide (0 ≤ n)) as [Hn|Hn].
  - rewrite Z.pow2_bits_eqb by done. case_bool_decide as E.
    + subst. apply Z.eqb_refl.
    + apply Z.eqb_neq. lia.
  - rewrite Z.testbit_neg_r by lia. rewrite bool_decide_eq_false_2; [done|lia].
Qed.

Lemma set_clear_bit (I p : Z) :
  0 ≤ p → Z.testbit I p = false → Z.lor I (2 ^ p) = I + 2 ^ p.
Proof.
  intros Hp Hbit.
  assert (Hdisjoint : Z.land I (2 ^ p) = 0).
  { apply Z.bits_inj'. intros n Hn. rewrite Z.land_spec, Z.bits_0, pow2_testbit by done.
    case_bool_decide; subst; [by rewrite Hbit|apply andb_false_r]. }
  rewrite Z.add_nocarry_lxor by done. by rewrite Z.lxor_lor.
Qed.

Lemma ldiff_clear_bit (I p : Z) :
  0 ≤ p → Z.testbit I p = false → Z.ldiff I (2 ^ p) = I.
Proof.
  intros Hp Hbit. apply Z.bits_inj'. intros n Hn.
  rewrite Z.ldiff_spec, pow2_testbit by done.
  case_bool_decide; subst; simpl; [by rewrite Hbit|apply andb_true_r].
Qed.

Lemma ldiff_set_bit (I p : Z) :
  0 ≤ p → Z.testbit I p = false → Z.ldiff (Z.lor I (2 ^ p)) (2 ^ p) = I.
Proof.
  intros Hp Hbit. apply Z.bits_inj'. intros n Hn.
  rewrite Z.ldiff_spec, Z.lor_spec, pow2_testbit by done.
  case_bool_decide; subst; simpl; [by rewrite Hbit|].
  by rewrite orb_false_r, andb_true_r.
Qed.

Lemma land_superset (I J mask : Z) :
  Z.land I mask = mask → Z.land (Z.lor I J) mask = mask.
Proof.
  intros Hmask. apply Z.bits_inj'. intros n Hn.
  rewrite Z.land_spec, Z.lor_spec. rewrite <- Hmask at 2. rewrite Z.land_spec.
  destruct (Z.testbit mask n) eqn:E; [|by rewrite !andb_false_r].
  rewrite !andb_true_r.
  assert (Hset : Z.testbit (Z.land I mask) n = true) by (by rewrite Hmask).
  rewrite Z.land_spec in Hset. apply andb_true_iff in Hset as [-> _]. done.
Qed.

Lemma amp_apply_gate (M : Map) (g : Gate) (W : StateVector) (i : Z) :
  0 ≤ i < vsize W →
  amp (apply_gate M g W) i
  = if decide (Z.land i (foldl (λ acc c, Z.lor acc (shl_size_t 1 (default 0 (M !! c))))
                               0 (gate_ctrl g))
               = foldl (λ acc c, Z.lor acc (shl_size_t 1 (default 0 (M !! c))))
                       0 (gate_ctrl g))
    then
      match imap (λ c m_rc,
                    cmul (amp W (scatter i ((λ id, default 0 (M !! id)) <$> gate_ids g)
                                         (Z.of_nat c))) m_rc)
                 (default [] (gate_matrix g
                                !! Z.to_nat (gather i ((λ id, default 0 (M !! id))
                                                         <$> gate_ids g)))) with
      | [] => czero
      | t :: ts => foldl cadd t ts
      end
    else amp W i.
Proof.
  intros Hi. unfold apply_gate. unfold amp at 1. rewrite list_lookup_fmap.
  rewrite lookup_seqZ_lt by lia. simpl. rewrite Z.add_0_l, Z2Nat.id by lia. done.
Qed.

(** X23.  The kernel for any number of targets, modelled from the
    specification, does on one target what [kernel1::core] does.  For a
    2 x 2 matrix, a target at position [p], and a pair of indices [I] and
    [I + 2^p] inside the vector where [I] has bit [p] clear and passes the
    control mask, the two entries that the generic kernel produces at the
    pair are the two entries that [kernel1::core] writes, with complex
    addition and multiplication for its [add] and [mul]. *)
Theorem apply_gate_is_kernel1 (M : Map) (a b c d : complex_type) (id : Z)
    (ctrl : list Z) (W : StateVector) (I : Z) :
  let p := default 0 (M !! id) in
  let m := [[a; b]; [c; d]] in
  let ctrlmask :=
    foldl (λ acc c, Z.lor acc (shl_size_t 1 (default 0 (M !! c)))) 0 ctrl in
  0 ≤ p →
  0 ≤ I →
  I + 2 ^ p < vsize W →
  Z.testbit I p = false →
  Z.land I ctrlmask = ctrlmask →
  amp (apply_gate M (MkGate m [id] ctrl) W) I
  = amp (core cadd cmul W I (2 ^ p) m) I
  ∧ amp (apply_gate M (MkGate m [id] ctrl) W) (I + 2 ^ p)
    = amp (core cadd cmul W I (2 ^ p) m) (I + 2 ^ p).
Proof.
  intros p m ctrlmask Hp HI Hin Hbit Hctrl.
  assert (Hpow : 0 < 2 ^ p) by (by apply pow2_pos).
  destruct (core_pair cadd cmul W I (2 ^ p) m HI Hpow Hin) as [-> ->].
  rewrite !amp_apply_gate by lia.
  rewrite <- (set_clear_bit I p Hp Hbit).
  simpl. fold p ctrlmask. rewrite !Z.shiftl_1_l.
  rewrite (land_superset I (2 ^ p) ctrlmask Hctrl), Hctrl.
  rewrite !decide_True by done.
  rewrite Hbit. rewrite Z.lor_spec, pow2_testbit, bool_decide_eq_true_2 by done.
  rewrite orb_true_r. simpl.
  rewrite (ldiff_clear_bit I p Hp Hbit), (ldiff_set_bit I p Hp Hbit).
  by rewrite <- Z.lor_assoc, Z.lor_diag.
Qed.
End Kernel1Facts.

(** ** The compiler ABI probe *)

Section AbiProbe.

(** X24.  The pointer-size probe spells the size in decimal: for a pointer
    of fewer than 100 bytes, the two characters between the brackets of
    [INFO:sizeof_dptr[..]] are decimal digits, tens first, whose value is
    the size. *)
Theorem info_sizeof_dptr_digits (n : Z) :
  0 ≤ n < 100 →
  ∃ tens units,
    info_sizeof_dptr n = chars "INFO:sizeof_dptr[" ++ [48 + tens; 48 + units; 93; 0]
    ∧ 0 ≤ tens ≤ 9 ∧ 0 ≤ units ≤ 9
    ∧ 10 * tens + units = n.
Proof.
  intros Hn. exists ((n / 10) mod 10), (n mod 10). split; [done|].
  assert (Htens : (n / 10) mod 10 = n / 10).
  { apply Z.mod_small. split; [apply Z.div_pos; lia|].
    apply Z.div_lt_upper_bound; lia. }
  pose proof (Z.mod_pos_bound n 10 ltac:(lia)).
  pose proof (Z.mod_pos_bound (n / 10) 10 ltac:(lia)).
  pose proof (Z.div_mod n 10 ltac:(lia)).
  lia.
Qed.

(** X25.  The byte-order probe detects the byte order.  On either kind of
    machine, the array named after the machine's byte order lies in memory
    as the string [INFO:byte_order[BIG_ENDIAN]] or
    [INFO:byte_order[LITTLE_ENDIAN]] followed by zero bytes, and the other
    array does not even begin with [INFO]. *)
Theorem info_byte_order_detects (big_endian : bool) :
  memory_bytes big_endian
    (if big_endian then info_byte_order_big_endian else info_byte_order_little_endian)
  = chars (if big_endian then "INFO:byte_order[BIG_ENDIAN]"
           else "INFO:byte_order[LITTLE_ENDIAN]")
    ++ (if big_endian then [0; 0; 0] else [0; 0])
  ∧ take 4 (memory_bytes big_endian
              (if big_endian then info_byte_order_little_endian
               else info_byte_order_big_endian))
    ≠ chars "INFO".
Proof. destruct big_endian; (split; [by vm_compute|by vm_compute]). Qed.
End AbiProbe.

(** ** Probabilities and amplitudes of basis states *)

Section BasisStates.
Context `{FusionModel}.

Lemma land_all_ones (i n : Z) : 0 ≤ n → 0 ≤ i < 2 ^ n → Z.land i (2 ^ n - 1) = i.
Proof.
  intros Hn Hi. replace (2 ^ n - 1) with (Z.ones n) by (rewrite Z.ones_equiv; lia).
  rewrite Z.land_ones by done. by apply Z.mod_small.
Qed.

Lemma no_match_fold (mask val : Z) (v : StateVector) (l : list Z) (a : calc_type) :
  (∀ i, i ∈ l → Z.land i mask ≠ val) →
  foldl (λ n i, if decide (Z.land i mask = val) then calc_add n (norm (amp v i)) else n)
        a l = a.
Proof.
  revert a. induction l as [|i l IH]; intros a Hl; simpl; [done|].
  rewrite decide_False by (apply Hl; by left).
  apply IH. intros j Hj. apply Hl. by right.
Qed.

(** Under a mask that keeps every index, only the entry at [val] counts. *)
Lemma single_match (mask val : Z) (v : StateVector) :
  (∀ i, 0 ≤ i < vsize v → Z.land i mask = i) →
  0 ≤ val < vsize v →
  matching_norm mask val v = calc_add calc_zero (norm (amp v val)).
Proof.
  intros Hmask Hval. unfold matching_norm, for_each_index.
  replace (vsize v) with (val + (1 + (vsize v - val - 1))) at 1 by lia.
  rewrite seqZ_app, seqZ_app by lia. rewrite !foldl_app.
  rewrite (no_match_fold mask val v (seqZ 0 val)).
  - change (seqZ (0 + val) 1) with [0 + val]. simpl.
    rewrite decide_True by (apply Hmask; lia).
    apply no_match_fold. intros i Hi. apply elem_of_seqZ in Hi.
    rewrite Hmask by lia. lia.
  - intros i Hi. apply elem_of_seqZ in Hi. rewrite Hmask by lia. lia.
Qed.

Lemma val_below (positions : list Z) (values : list bool) (val0 n : Z) :
  0 ≤ n < 64 → Forall (λ p, 0 ≤ p < n) positions → 0 ≤ val0 < 2 ^ n →
  0 ≤ foldl (λ val '(p, b), Z.lor val (shl_size_t (bit b) p)) val0
            (zip positions values) < 2 ^ n.
Proof.
  intros Hn Hps. revert values val0.
  induction Hps as [|p ps Hp _ IH]; intros [|b values] val0 Hval; simpl; [done..|].
  apply IH. apply lor_below; [lia|done|].
  rewrite shl_size_t_bit by lia. destruct b.
  - split; [apply Z.pow_nonneg; lia|apply Z.pow_lt_mono_r; lia].
  - split; [done|apply pow2_pos; lia].
Qed.

(** X26.  The two queries agree on basis states.  On a well-formed engine,
    for ids that list every allocated qubit exactly once and one bit per
    id, [get_amplitude] returns an amplitude [a] and [get_probability]
    returns [0 + |a|^2] for the same arguments: the probability of a
    complete bit string is the squared magnitude of its amplitude.  Both
    leave the engine as the flush left it. *)
Theorem probability_of_basis_state (bit_string : list bool) (ids : list Z)
    (s : Simulator) :
  0 ≤ N_ s < 64 →
  vsize (vec_ s) = 2 ^ N_ s →
  map_bijection (map_ s) (N_ s) →
  permutation_of_allocated (map_ s) ids →
  length bit_string = length ids →
  ∃ a, get_amplitude bit_string ids s = Returns a (run s)
       ∧ get_probability bit_string ids s
         = Returns (calc_add calc_zero (norm a)) (run s).
Proof.
  intros HN Hsize Hbij [Hnodup Hall] Hlen.
  assert (Hmapped : Forall (λ id, is_Some (map_ s !! id)) ids).
  { apply Forall_forall. intros id Hin. by apply Hall. }
  assert (Hrange : Forall (λ p, 0 ≤ p < N_ s) (position_of (map_ s) <$> ids)).
  { apply Forall_fmap, Forall_forall. intros id Hin. simpl.
    destruct (proj1 (Hall id) Hin) as [p Hp]. unfold position_of. rewrite Hp. simpl.
    by apply (proj1 Hbij id). }
  assert (Hmask : foldl (λ mask p, Z.lor mask (shl_size_t 1 p)) 0
                        (position_of (map_ s) <$> ids) = 2 ^ N_ s - 1).
  { apply mask_full; [done..|]. apply (positions_cover _ _ _ Hbij Hmapped).
    intros id Hid. by apply Hall. }
  pose proof (val_below (position_of (map_ s) <$> ids) bit_string 0 (N_ s)
                HN Hrange ltac:(split; [done|apply pow2_pos; lia])) as Hval.
  assert (Hpow : 0 ≤ 2 ^ N_ s < 2 ^ 64).
  { split; [apply Z.pow_nonneg; lia|apply Z.pow_lt_mono_r; lia]. }
  exists (amp (vec_ (run s))
            (mask_val (position_of (map_ s) <$> ids) bit_string).2).
  unfold get_amplitude, get_probability. rewrite run_map.
  rewrite amplitude_index_mapped by (done || (simpl; lia)).
  rewrite drop_0. fold (mask_val (position_of (map_ s) <$> ids) bit_string).
  rewrite (proj2 (check_ids_true _ _) Hmapped). simpl.
  rewrite lookup_positions_mapped by done.
  unfold mask_val. rewrite mask_val_from. simpl.
  rewrite take_ge by (rewrite length_fmap; lia). rewrite Hmask.
  replace (2 ^ N_ s - 1 + 1) with (2 ^ N_ s) by lia.
  rewrite wrap_size_t_small, run_vsize, Hsize by done.
  rewrite decide_False by (intros Hne; by apply Hne).
  split; [done|].
  replace (set_map (run s) (map_ s)) with (run s)
    by (by rewrite <- (run_map s), set_map_same).
  f_equal. apply single_match.
  - intros i Hi. rewrite run_vsize, Hsize in Hi. apply land_all_ones; lia.
  - rewrite run_vsize, Hsize. exact Hval.
Qed.
End BasisStates.

(** ** A measured qubit is classical *)

Section Measured.
Context `{FusionModel}.

Lemma land_pow2 (k p : Z) :
  0 ≤ p → Z.land k (2 ^ p) = if Z.testbit k p then 2 ^ p else 0.
Proof.
  intros Hp. apply Z.bits_inj'. intros n Hn.
  rewrite Z.land_spec, pow2_testbit by done.
  destruct (Z.testbit k p) eqn:E.
  - rewrite pow2_testbit by done. case_bool_decide; subst; [by rewrite E|].
    apply andb_false_r.
  - rewrite Z.bits_0. case_bool_decide; subst; [by rewrite E|]. apply andb_false_r.
Qed.

(** What measuring one mapped qubit leaves: the entries whose index has the
    other bit at the qubit's position are zeroed, and then every entry is
    multiplied by the same factor. *)
Lemma measure_one_qubit (id pos : Z) (rnd : calc_type) (s : Simulator) :
  map_ s !! id = Some pos → 0 ≤ pos < 64 →
  ∃ (out : bool) (x : calc_type),
    measure_qubits [id] rnd s
    = Returns [out]
        (set_vec (run s)
           ((λ a, cscale a x)
              <$> zeroed (2 ^ pos) (if out then 2 ^ pos else 0) (vec_ (run s)))).
Proof.
  intros Hid Hpos. rewrite measure_qubits_unfold. unfold measurement_result.
  rewrite run_map. simpl. unfold map_index, position_of. rewrite Hid. simpl.
  unfold mask_val. simpl.
  rewrite !Z.lor_0_l, shl_size_t_one, shl_size_t_bit by done.
  eexists _, _. rewrite <- (run_map s) at 1. rewrite set_map_same. reflexivity.
Qed.

Lemma other_half_zeroed (pos k : Z) (out : bool) (x : calc_type) (v : StateVector) :
  0 ≤ pos → 0 ≤ k < vsize v → Z.testbit k pos = negb out →
  amp ((λ a, cscale a x) <$> zeroed (2 ^ pos) (if out then 2 ^ pos else 0) v) k
  = cscale czero x.
Proof.
  intros Hpos Hk Hbit. unfold amp, zeroed, vsize in *.
  rewrite list_lookup_fmap, list_lookup_imap.
  destruct (lookup_lt_is_Some_2 v (Z.to_nat k) ltac:(lia)) as [a Ha].
  rewrite Ha. simpl. rewrite Z2Nat.id by lia.
  rewrite land_pow2, Hbit by done.
  pose proof (pow2_pos pos Hpos).
  rewrite decide_True; [done|]. destruct out; simpl; lia.
Qed.

Lemma deallocate_qubit_no_mass (id pos : Z) (s : Simulator) :
  0 ≤ N_ s < 64 →
  vsize (vec_ s) = 2 ^ N_ s →
  map_ s !! id = Some pos →
  0 ≤ pos < N_ s →
  ¬ half_has_mass default_tol_ (vec_ (run s)) pos false →
  ¬ half_has_mass default_tol_ (vec_ (run s)) pos true →
  is_classical id default_tol_ s = Returns false (run s)
  ∧ deallocate_qubit id s = Throws not_classical_error (run s).
Proof.
  intros HN Hsize Hid Hpos Hno0 Hno1.
  destruct (flags_are_halves pos default_tol_ s HN Hsize Hpos) as [Hup Hdown].
  unfold deallocate_qubit, map_count. rewrite run_map, Hid.
  rewrite decide_False by (intros Hne; by apply Hne).
  rewrite !(is_classical_mapped id pos) by (rewrite ?run_map; (done || lia)).
  rewrite run_idempotent.
  destruct (has_mass _ _ 0 _); [exfalso; by apply Hno0, Hup|].
  destruct (has_mass _ _ (2 ^ pos) _); [exfalso; by apply Hno1, Hdown|].
  done.
Qed.

(** X27.  A measured qubit is classical, and reads as it was measured.  On
    an engine with 2^N amplitudes and positions below [N < 64], after
    [measure_qubits] on one mapped id reported the outcome [out] (and for a
    scalar type in which a zero amplitude times any factor is not above the
    tolerance): the half of the wavefunction on the other side of the
    qubit has no mass above the default tolerance.  If the half on the
    side of [out] has mass, [is_classical] is true, [get_classical_value]
    returns [out], and [deallocate_qubit] succeeds and lowers the qubit
    count by one; if it has none, [is_classical] is false and
    [deallocate_qubit] refuses with the not-measured error. *)
Theorem measured_qubit_is_classical (id pos : Z) (rnd : calc_type) (s : Simulator) :
  0 ≤ N_ s < 64 →
  vsize (vec_ s) = 2 ^ N_ s →
  (∀ id p, map_ s !! id = Some p → 0 ≤ p < N_ s) →
  map_ s !! id = Some pos →
  (∀ x, calc_ltb default_tol_ (norm (cscale czero x)) = false) →
  ∃ (out : bool) (s' : Simulator),
    measure_qubits [id] rnd s = Returns [out] s'
    ∧ ¬ half_has_mass default_tol_ (vec_ s') pos (negb out)
    ∧ (half_has_mass default_tol_ (vec_ s') pos out →
       is_classical id default_tol_ s' = Returns true s'
       ∧ get_classical_value id default_tol_ s' = Returns out s'
       ∧ ∃ s'', deallocate_qubit id s' = Returns () s'' ∧ N_ s'' = N_ s - 1)
    ∧ (¬ half_has_mass default_tol_ (vec_ s') pos out →
       is_classical id default_tol_ s' = Returns false s'
       ∧ deallocate_qubit id s' = Throws not_classical_error s').
Proof.
  intros HN Hsize Hrange Hid Hzero.
  pose proof (Hrange _ _ Hid) as Hpos.
  destruct (measure_one_qubit id pos rnd s Hid ltac:(lia)) as (out & x & Hmeasure).
  eexists out, _. split; [exact Hmeasure|].
  set (s' := set_vec (run s) _).
  assert (Hrun : run s' = s') by (apply run_nothing_pending, run_fused_empty).
  assert (HN' : 0 ≤ N_ s' < 64) by (subst s'; simpl; by rewrite run_N).
  assert (Hmap' : map_ s' = map_ s) by (subst s'; simpl; apply run_map).
  assert (Hsize' : vsize (vec_ s') = 2 ^ N_ s').
  { subst s'. simpl. unfold vsize in *.
    by rewrite length_fmap, zeroed_length, run_vec_length, run_N. }
  assert (Hid' : map_ s' !! id = Some pos) by (by rewrite Hmap').
  assert (Hpos' : 0 ≤ pos < N_ s') by (subst s'; simpl; by rewrite run_N).
  assert (Hother : ¬ half_has_mass default_tol_ (vec_ s') pos (negb out)).
  { intros (k & Hk & Hbit & Hmass). subst s'. simpl in *.
    rewrite other_half_zeroed in Hmass.
    - rewrite Hzero in Hmass. done.
    - lia.
    - unfold vsize in *.
      by rewrite length_fmap, zeroed_length in Hk.
    - done. }
  split; [exact Hother|]. split.
  - intros Hmass.
    destruct (flags_are_halves pos default_tol_ s' HN' Hsize' Hpos') as [Hup Hdown].
    pose proof (classical_scan_classical default_tol_ (vec_ (run s')) (2 ^ pos)
                  (stride_pairs (vsize (vec_ (run s'))) (2 ^ pos))) as Hscan.
    rewrite (is_classical_mapped id pos), (get_classical_value_mapped id pos)
      by (done || lia).
    rewrite Hrun in *.
    set (up := has_mass _ _ 0 _) in *. set (down := has_mass _ _ (2 ^ pos) _) in *.
    assert (Hx : xorb up down = true ∧ down = out).
    { destruct out; simpl in *.
      - apply Hdown in Hmass. rewrite Hmass.
        destruct up; [|done]. exfalso. by apply Hother, Hup.
      - apply Hup in Hmass. rewrite Hmass.
        destruct down; [|done]. exfalso. by apply Hother, Hdown. }
    destruct Hx as [Hx Hout]. rewrite Hx, (Hscan Hx), Hout.
    split_and!; [done..|].
    rewrite (deallocate_qubit_returns id pos out s');
      [|done|done|by rewrite Hmap'; intros id' p Hp; specialize (Hrange _ _ Hp);
                  subst s'; simpl; rewrite run_N
       |done|by rewrite Hrun..].
    eexists. split; [reflexivity|]. subst s'. simpl. by rewrite run_N.
  - intros Hnone.
    rewrite <- Hrun at 2 4.
    apply (deallocate_qubit_no_mass id pos s' HN' Hsize' Hid' Hpos');
      rewrite Hrun; by destruct out.
Qed.
End Measured.

(** ** What every operation keeps *)

Section OperationFacts.
Context `{ExternalOps}.

(** A loop whose rounds keep the length of a vector keeps it. *)
Lemma for_each_index_length {A} (proj : A → StateVector) (size : Z)
    (body : Z → A → A) (a : A) :
  (∀ i a, length (proj (body i a)) = length (proj a)) →
  length (proj (for_each_index size body a)) = length (proj a).
Proof.
  intros Hbody. unfold for_each_index. generalize (seqZ 0 size). intros l.
  revert a. induction l as [|i l IH]; intros a; simpl; [done|].
  by rewrite IH, Hbody.
Qed.

Lemma add_terms_frame (td : list (Term * calc_type)) (ids : list Z)
    (current_state : StateVector) (s s' : Simulator) (update update' : StateVector) :
  add_terms td ids current_state s update = Some (s', update') →
  N_ s' = N_ s ∧ map_ s' = map_ s ∧ length (vec_ s') = length (vec_ s).
Proof.
  revert s update. induction td as [|[term c] td IH]; intros s update; simpl.
  - by intros [= <- <-].
  - destruct (apply_term term ids [] s) as [o|] eqn:E; simpl; [|done].
    destruct (apply_term_frame _ _ _ _ _ E)
      as (s2 & -> & HN2 & Hmap2 & Hlen2 & _).
    simpl.
    match goal with
    | |- context [for_each_index ?size ?body ?a] =>
        pose proof (for_each_index_length fst size body a) as Hlen
    end.
    destruct (for_each_index _ _ _) as [v u]. simpl in Hlen.
    intros Hrest. destruct (IH _ _ Hrest) as (IHN & IHmap & IHlen). simpl in *.
    rewrite Hlen in IHlen.
    + split_and!; congruence.
    + intros i [w acc]. simpl. unfold vset. by rewrite length_insert.
Qed.

Lemma taylor_term_frame (s_steps k : Z) (time : calc_type)
    (td : list (Term * calc_type)) (ids : list Z) (ctrlmask : Z)
    (s s' : Simulator) (output_state output_state' : StateVector)
    (nrm_change : calc_type) :
  taylor_term s_steps k time td ids ctrlmask s output_state
  = Some (s', output_state', nrm_change) →
  N_ s' = N_ s ∧ map_ s' = map_ s ∧ length (vec_ s') = length (vec_ s).
Proof.
  unfold taylor_term.
  destruct (add_terms _ _ _ _ _) as [[s1 update]|] eqn:E; simpl; [|done].
  destruct (add_terms_frame _ _ _ _ _ _ _ E) as (HN & Hmap & Hlen).
  match goal with
  | |- context [for_each_index ?size ?body ?a] =>
      pose proof (for_each_index_length (λ r, r.1.1.1) size body a) as Hloop
  end.
  destruct (for_each_index _ _ _) as [[[v u] o] n]. simpl in Hloop.
  intros [= <- <- <-]. simpl. rewrite Hloop; [by split_and!|].
  intros i [[[w u'] o'] n']. simpl.
  case_decide; simpl; unfold vset; by rewrite length_insert.
Qed.

Lemma taylor_series_frame (fuel : nat) (s_steps k : Z) (time : calc_type)
    (td : list (Term * calc_type)) (ids : list Z) (ctrlmask : Z)
    (nrm_change : calc_type) (s s' : Simulator)
    (output_state output_state' : StateVector) :
  taylor_series fuel s_steps k time td ids ctrlmask nrm_change s output_state
  = Some (s', output_state') →
  N_ s' = N_ s ∧ map_ s' = map_ s ∧ length (vec_ s') = length (vec_ s).
Proof.
  revert k nrm_change s output_state.
  induction fuel as [|fuel IH]; intros k nrm_change s output_state; simpl.
  - destruct (calc_ltb _ _); [done|]. by intros [= <- <-].
  - destruct (calc_ltb _ _); [|by intros [= <- <-]].
    destruct (taylor_term _ _ _ _ _ _ _ _) as [[[s1 o1] n1]|] eqn:E; simpl; [|done].
    destruct (taylor_term_frame _ _ _ _ _ _ _ _ _ _ _ E) as (HN & Hmap & Hlen).
    intros Hrest. destruct (IH _ _ _ _ Hrest) as (IHN & IHmap & IHlen).
    split_and!; congruence.
Qed.

Lemma sub_step_frame (fuel : nat) (s_steps : Z) (time : calc_type)
    (td : list (Term * calc_type)) (ids : list Z) (ctrlmask : Z)
    (correction : complex_type) (s s' : Simulator)
    (output_state output_state' : StateVector) :
  sub_step fuel s_steps time td ids ctrlmask correction s output_state
  = Some (s', output_state') →
  N_ s' = N_ s ∧ map_ s' = map_ s ∧ length (vec_ s') = length (vec_ s).
Proof.
  unfold sub_step.
  destruct (taylor_series _ _ _ _ _ _ _ _ _ _) as [[s1 o1]|] eqn:E; simpl; [|done].
  destruct (taylor_series_frame _ _ _ _ _ _ _ _ _ _ _ _ E) as (HN & Hmap & Hlen).
  match goal with
  | |- context [for_each_index ?size ?body ?a] =>
      pose proof (for_each_index_length fst size body a) as Hloop
  end.
  destruct (for_each_index _ _ _) as [v o]. simpl in Hloop.
  intros [= <- <-]. simpl. rewrite Hloop; [by split_and!|].
  intros i [w o']. simpl. unfold vset. by rewrite length_insert.
Qed.

Lemma sub_steps_frame (fuel : nat) (s_steps : Z) (time : calc_type)
    (td : list (Term * calc_type)) (ids : list Z) (ctrlmask : Z)
    (correction : complex_type) (l : list Z)
    (st : option (Simulator * StateVector)) (s' : Simulator)
    (output_state' : StateVector) :
  foldl (λ st (_ : Z),
           '(s, output_state) ← st;
           sub_step fuel s_steps time td ids ctrlmask correction s output_state)
        st l
  = Some (s', output_state') →
  ∃ s output_state,
    st = Some (s, output_state)
    ∧ N_ s' = N_ s ∧ map_ s' = map_ s ∧ length (vec_ s') = length (vec_ s).
Proof.
  revert st. induction l as [|i l IH]; intros st; simpl.
  - intros ->. by eexists _, _.
  - intros Hrest. destruct (IH _ Hrest) as (s1 & o1 & Hstep & HN & Hmap & Hlen).
    destruct st as [[s o]|]; simpl in Hstep; [|done].
    destruct (sub_step_frame _ _ _ _ _ _ _ _ _ _ _ Hstep) as (HN1 & Hmap1 & Hlen1).
    exists s, o. split_and!; congruence.
Qed.

(** What [emulate_time_evolution] leaves behind when it returns: the qubit
    count and the size of the vector as they were, and the map with the
    controls looked up. *)
Lemma emulate_time_evolution_frame (fuel : nat) (tdict : list (Term * calc_type))
    (time : calc_type) (ids ctrl : list Z) (s : Simulator) (o : outcome Simulator ()) :
  emulate_time_evolution fuel tdict time ids ctrl s = Some o →
  ∃ s', o = Returns () s'
        ∧ N_ s' = N_ s
        ∧ map_ s' = (lookup_positions (map_ s) ctrl).1
        ∧ length (vec_ s') = length (vec_ s).
Proof.
  unfold emulate_time_evolution.
  destruct (split_terms tdict) as [[tr op_nrm] td].
  destruct (to_unsigned _) as [s_steps|]; simpl; [|done].
  rewrite get_control_mask_fold, run_map.
  unfold for_each_index.
  match goal with
  | |- context [foldl ?step ?a ?l] => destruct (foldl step a l) as [[s2 o2]|] eqn:E
  end; simpl; [|done].
  intros [= <-]. exists s2. split; [done|].
  apply sub_steps_frame in E as (s0 & o0 & [= <- <-] & HN & Hmap & Hlen).
  simpl in *. rewrite run_N, run_vec_length in *. by split_and!.
Qed.

(** More fuel changes nothing once the fuel suffices. *)
Lemma taylor_series_more_fuel (fuel fuel' : nat) (s_steps k : Z) (time : calc_type)
    (td : list (Term * calc_type)) (ids : list Z) (ctrlmask : Z)
    (nrm_change : calc_type) (s : Simulator) (output_state : StateVector)
    (r : Simulator * StateVector) :
  (fuel ≤ fuel')%nat →
  taylor_series fuel s_steps k time td ids ctrlmask nrm_change s output_state = Some r →
  taylor_series fuel' s_steps k time td ids ctrlmask nrm_change s output_state = Some r.
Proof.
  revert fuel' k nrm_change s output_state.
  induction fuel as [|fuel IH]; intros fuel' k nrm_change s output_state Hle; simpl.
  - destruct (calc_ltb default_tol_ nrm_change) eqn:E; [done|].
    intros <-. destruct fuel'; simpl; by rewrite E.
  - destruct fuel' as [|fuel']; [lia|]. simpl.
    destruct (calc_ltb default_tol_ nrm_change); [|done].
    destruct (taylor_term _ _ _ _ _ _ _ _) as [[[s1 o1] n1]|]; simpl; [|done].
    apply IH. lia.
Qed.

Lemma sub_step_more_fuel (fuel fuel' : nat) (s_steps : Z) (time : calc_type)
    (td : list (Term * calc_type)) (ids : list Z) (ctrlmask : Z)
    (correction : complex_type) (s : Simulator) (output_state : StateVector)
    (r : Simulator * StateVector) :
  (fuel ≤ fuel')%nat →
  sub_step fuel s_steps time td ids ctrlmask correction s output_state = Some r →
  sub_step fuel' s_steps time td ids ctrlmask correction s output_state = Some r.
Proof.
  intros Hle. unfold sub_step.
  destruct (taylor_series fuel _ _ _ _ _ _ _ _ _) as [r1|] eqn:E; simpl; [|done].
  by rewrite (taylor_series_more_fuel fuel fuel' _ _ _ _ _ _ _ _ _ _ Hle E).
Qed.

Lemma sub_steps_more_fuel (fuel fuel' : nat) (s_steps : Z) (time : calc_type)
    (td : list (Term * calc_type)) (ids : list Z) (ctrlmask : Z)
    (correction : complex_type) (l : list Z)
    (st : option (Simulator * StateVector)) (r : Simulator * StateVector) :
  (fuel ≤ fuel')%nat →
  foldl (λ st (_ : Z),
           '(s, output_state) ← st;
           sub_step fuel s_steps time td ids ctrlmask correction s output_state)
        st l
  = Some r →
  foldl (λ st (_ : Z),
           '(s, output_state) ← st;
           sub_step fuel' s_steps time td ids ctrlmask correction s output_state)
        st l
  = Some r.
Proof.
  intros Hle. revert st. induction l as [|i l IH]; intros st; simpl; [done|].
  intros Hrest. destruct r as [s' o'].
  destruct (sub_steps_frame _ _ _ _ _ _ _ _ _ _ _ Hrest) as (s1 & o1 & Hstep & _).
  destruct st as [[s o]|]; simpl in Hstep; [|done]. simpl.
  rewrite (sub_step_more_fuel fuel fuel' _ _ _ _ _ _ _ _ _ Hle Hstep).
  apply IH. simpl in Hrest. by rewrite Hstep in Hrest.
Qed.

(** The fuel only bounds the model: a call that returns with some fuel
    returns the same with any more. *)
Lemma emulate_time_evolution_more_fuel (fuel fuel' : nat)
    (tdict : list (Term * calc_type)) (time : calc_type) (ids ctrl : list Z)
    (s : Simulator) (o : outcome Simulator ()) :
  (fuel ≤ fuel')%nat →
  emulate_time_evolution fuel tdict time ids ctrl s = Some o →
  emulate_time_evolution fuel' tdict time ids ctrl s = Some o.
Proof.
  intros Hle. unfold emulate_time_evolution.
  destruct (split_terms tdict) as [[tr op_nrm] td].
  destruct (to_unsigned _) as [s_steps|]; simpl; [|done].
  destruct (get_control_mask ctrl (map_ (run s))) as [m ctrlmask].
  unfold for_each_index.
  match goal with
  | |- context [foldl ?step ?a ?l] => destruct (foldl step a l) as [r|] eqn:E
  end; simpl; [|done].
  apply (sub_steps_more_fuel fuel fuel' _ _ _ _ _ _ _ _ _ Hle) in E.
  by rewrite E.
Qed.

(** The calls that have no constructor of their own are calls of one that
    has: the arithmetic shortcuts are [emulate_math] at their callbacks,
    which keep the number of registers. *)
Lemma shortcuts_are_emulate_math (a N : Z) (quregs : list (list Z)) (ctrl : list Z)
    (s : Simulator) :
  completed (emulate_math_addConstant a quregs ctrl s)
  = perform (EmulateMath (fmap (λ x, to_int (x + a))) quregs ctrl) s
  ∧ completed (emulate_math_addConstantModN a N quregs ctrl s)
    = perform (EmulateMath (fmap (λ x, Z.rem (to_int (x + a)) N)) quregs ctrl) s
  ∧ completed (emulate_math_multiplyByConstantModN a N quregs ctrl s)
    = perform (EmulateMath (fmap (λ x, Z.rem (to_int (x * a)) N)) quregs ctrl) s
  ∧ ∀ (g : Z → Z) (res : list Z), length (g <$> res) = length res.
Proof. split_and!; [done..|]. intros g res. apply length_fmap. Qed.

(** C8, as the code has it.  Every operation that returns keeps the qubit
    map a bijection between the allocated ids and the positions
    [0 .. N-1], provided the caller met the obligations the code does not
    check: ids read through [map_[id]] are mapped, the callback of
    [emulate_math] keeps the number of registers, the ordering given to
    [set_wavefunction] has no repeated id, and the counter does not
    overflow. *)
Theorem map_invariant_preserved (op : operation) (s s' : Simulator) :
  map_invariant s →
  caller_obligation op s →
  perform op s = Some s' →
  map_invariant s'.
Proof.
  intros Hinv Hcall Hdone. pose proof Hinv as [HN Hbij].
  destruct op; simpl in *.
  - (* allocate_qubit *)
    unfold allocate_qubit, map_count in Hdone.
    destruct (map_ s !! id) as [p|] eqn:Hid; simpl in Hdone; [done|].
    injection Hdone as <-. unfold map_invariant. simpl.
    rewrite wrap_unsigned_small by lia. split; [lia|].
    apply map_bijection_allocate; (done || lia).
  - (* deallocate_qubit *)
    unfold deallocate_qubit in Hdone.
    destruct (decide (map_count (map_ (run s)) id ≠ 1)) as [|Hcount]; [done|].
    assert (Hid : is_Some (map_ (run s) !! id)).
    { unfold map_count in Hcount. destruct (map_ (run s) !! id); [eauto|].
      by destruct Hcount. }
    destruct (is_classical_state id default_tol_ (run s)) as [c Hc].
    rewrite Hc, run_idempotent, map_index_fst_mapped, set_map_same in Hdone by done.
    simpl in Hdone. destruct c; simpl in Hdone; [|done].
    pose proof (get_classical_value_state id default_tol_ (run s)) as Hg.
    rewrite run_idempotent, map_index_fst_mapped, set_map_same in Hg by done.
    simpl in Hg.
    destruct (get_classical_value id default_tol_ (run s)) as [value s3|];
      simpl in Hg; [subst s3|done].
    eapply map_invariant_shrink; [by apply map_invariant_run|done..].
  - (* collapse_vector *)
    destruct shrink; [by eapply map_invariant_shrink|].
    destruct (collapse_vector_state id value false s) as (s1 & Heq & HN1 & Hmap1).
    rewrite Heq in Hdone. injection Hdone as <-.
    rewrite map_index_fst_mapped in Hmap1 by done.
    by apply (map_invariant_frame s).
  - (* is_classical *)
    destruct (is_classical_state id tol s) as [c Hc].
    rewrite Hc in Hdone. injection Hdone as <-.
    rewrite map_index_fst_mapped by done.
    rewrite <- (run_map s), set_map_same. by apply map_invariant_run.
  - (* get_classical_value *)
    apply completed_final in Hdone.
    rewrite get_classical_value_state, map_index_fst_mapped in Hdone by done.
    subst s'. rewrite <- (run_map s), set_map_same. by apply map_invariant_run.
  - (* measure_qubits *)
    rewrite measure_qubits_unfold in Hdone. unfold measurement_result in Hdone.
    injection Hdone as <-.
    rewrite lookup_positions_mapped by (by rewrite run_map).
    apply (map_invariant_frame s); simpl; [apply run_N|apply run_map|done].
  - (* measure_qubits_return *)
    unfold measure_qubits_return in Hdone.
    rewrite measure_qubits_unfold in Hdone. unfold measurement_result in Hdone.
    injection Hdone as <-.
    rewrite lookup_positions_mapped by (by rewrite run_map).
    apply (map_invariant_frame s); simpl; [apply run_N|apply run_map|done].
  - (* apply_controlled_gate *)
    destruct (apply_controlled_gate_frame m ids ctrl s) as (s1 & Heq & HN1 & Hmap1).
    rewrite Heq in Hdone. injection Hdone as <-.
    by apply (map_invariant_frame s).
  - (* emulate_math *)
    destruct Hcall as (Hctrl & Hquregs & _).
    destruct (emulate_math_state f quregs ctrl s) as (v & m & Heq & _ & _ & Hsame).
    rewrite Heq in Hdone. injection Hdone as <-.
    rewrite (Hsame Hctrl Hquregs).
    apply (map_invariant_frame s); simpl; [apply run_N|done..].
  - (* get_expectation_value *)
    destruct (get_expectation_value td ids s) as [o|] eqn:Heq; simpl in Hdone; [|done].
    destruct (get_expectation_value_frame _ _ _ _ Heq)
      as (e & s1 & -> & _ & Hmap1 & HN1 & _).
    injection Hdone as <-. by apply (map_invariant_frame s).
  - (* apply_qubit_operator *)
    destruct (apply_qubit_operator td ids s) as [o|] eqn:Heq; simpl in Hdone; [|done].
    destruct (apply_qubit_operator_state _ _ _ _ Heq)
      as (s1 & -> & _ & Hmap1 & HN1 & _).
    injection Hdone as <-. by apply (map_invariant_frame s).
  - (* get_probability *)
    unfold get_probability in Hdone.
    destruct (check_ids (map_ (run s)) ids) eqn:Hchk; simpl in Hdone; [|done].
    apply check_ids_true in Hchk.
    rewrite lookup_positions_mapped in Hdone by done.
    destruct (mask_val _ _) as [mask val]. injection Hdone as <-.
    rewrite set_map_same. by apply map_invariant_run.
  - (* get_amplitude *)
    unfold get_amplitude in Hdone.
    destruct (amplitude_index _ _ _ _ _ _) as [chk index].
    case_decide; simpl in Hdone; [done|]. injection Hdone as <-.
    by apply map_invariant_run.
  - (* emulate_time_evolution *)
    destruct (emulate_time_evolution fuel tdict time ids ctrl s) as [o|] eqn:Heq;
      simpl in Hdone; [|done].
    destruct (emulate_time_evolution_frame _ _ _ _ _ _ _ Heq)
      as (s1 & -> & HN1 & Hmap1 & _).
    injection Hdone as <-.
    rewrite lookup_positions_mapped in Hmap1 by done.
    by apply (map_invariant_frame s).
  - (* set_wavefunction *)
    unfold set_wavefunction in Hdone.
    case_decide; simpl in Hdone; [done|].
    destruct (bool_decide _) eqn:Hsize; simpl in Hdone; [done|].
    destruct (check_ids _ _) eqn:Hchk; simpl in Hdone; [|done].
    injection Hdone as <-. apply bool_decide_eq_false in Hsize.
    apply check_ids_true in Hchk. rewrite run_map in *.
    unfold map_invariant. simpl. rewrite run_N. split; [done|].
    apply map_bijection_set_ordering; [lia|done|done|lia|done].
  - (* collapse_wavefunction *)
    destruct (collapse_wavefunction_outcome ids values s) as [[e Heq]|[v Heq]];
      rewrite Heq in Hdone; [done|]. injection Hdone as <-.
    apply (map_invariant_frame s); simpl; [apply run_N|apply run_map|done].
  - (* run *)
    injection Hdone as <-. by apply map_invariant_run.
  - (* cheat *)
    injection Hdone as <-. by apply map_invariant_run.
Qed.

(** X11.  The wavefunction always has 2^N entries.  On an engine whose map
    is a bijection onto the positions below the qubit count [N < 63] and
    whose wavefunction has 2^N entries, every operation that returns, called
    as its caller owes it, leaves a wavefunction with 2^N' entries for the
    new qubit count [N']. *)
Theorem vector_size_preserved (op : operation) (s s' : Simulator) :
  map_invariant s →
  vsize (vec_ s) = 2 ^ N_ s →
  N_ s < 63 →
  caller_obligation op s →
  perform op s = Some s' →
  vsize (vec_ s') = 2 ^ N_ s'.
Proof.
  intros [HN Hbij] Hsize Hsmall Hcaller Hperform.
  pose proof (proj1 Hbij) as Hrange.
  assert (Hflushed : vsize (vec_ (run s)) = 2 ^ N_ (run s))
    by (by rewrite run_vsize, run_N).
  destruct op; simpl in *.
  - (* allocate_qubit *)
    unfold allocate_qubit in Hperform. destruct (decide _); [|done].
    injection Hperform as <-. simpl. unfold vsize.
    rewrite length_fmap, length_seqZ, wrap_unsigned_small by lia.
    rewrite shl_size_t_one by lia.
    rewrite Z2Nat.id; [done|]. apply Z.pow_nonneg. lia.
  - (* deallocate_qubit *)
    unfold deallocate_qubit, map_count in Hperform. rewrite run_map in Hperform.
    destruct (map_ s !! id) as [pos|] eqn:Hid;
      [|by rewrite decide_True in Hperform].
    rewrite decide_False in Hperform by (intros Hne; by apply Hne).
    pose proof (Hrange _ _ Hid) as Hpos.
    rewrite (is_classical_mapped id pos) in Hperform
      by (rewrite ?run_map; (done || lia)).
    destruct (xorb _ _); simpl in Hperform; [|done].
    rewrite (get_classical_value_mapped id pos) in Hperform
      by (rewrite ?run_map; (done || lia)).
    destruct (classical_scan _ _ _ _) as [value|]; [|done].
    rewrite (collapse_vector_shrink id pos) in Hperform
      by (rewrite ?run_N, ?run_vsize, ?run_map; (done || lia)).
    injection Hperform as <-. simpl.
    rewrite shrunk_vsize, !run_vsize, !run_N, Hsize. apply half_of_pow2. lia.
  - (* collapse_vector *)
    destruct Hcaller as [pos Hid]. pose proof (Hrange _ _ Hid) as Hpos.
    destruct shrink.
    + rewrite (collapse_vector_shrink id pos) in Hperform by (done || lia).
      injection Hperform as <-. simpl.
      rewrite shrunk_vsize, run_vsize, Hsize. apply half_of_pow2. lia.
    + destruct (collapse_vector_keeps_size id value s) as (v & m & E & Hlen).
      rewrite E in Hperform. injection Hperform as <-. simpl.
      unfold vsize in *. by rewrite Hlen, run_N.
  - (* is_classical *)
    destruct (is_classical_state id tol s) as [c E].
    rewrite E in Hperform. by injection Hperform as <-.
  - (* get_classical_value *)
    apply completed_final in Hperform.
    rewrite get_classical_value_state in Hperform. by subst s'.
  - (* measure_qubits *)
    rewrite measure_qubits_unfold in Hperform. unfold measurement_result in Hperform.
    injection Hperform as <-. simpl. unfold vsize in *.
    by rewrite length_fmap, zeroed_length.
  - (* measure_qubits_return *)
    unfold measure_qubits_return in Hperform.
    rewrite measure_qubits_unfold in Hperform. unfold measurement_result in Hperform.
    injection Hperform as <-. simpl. unfold vsize in *.
    by rewrite length_fmap, zeroed_length.
  - (* apply_controlled_gate *)
    destruct (apply_controlled_gate_keeps m ids ctrl s)
      as (s1 & E & HN1 & _ & Hlen & _).
    rewrite E in Hperform. injection Hperform as <-.
    unfold vsize in *. by rewrite Hlen, HN1.
  - (* emulate_math *)
    destruct (emulate_math_state f quregs ctrl s) as (v & m & E & Hlen & _).
    rewrite E in Hperform. injection Hperform as <-. simpl.
    unfold vsize in *. by rewrite Hlen, run_N.
  - (* get_expectation_value *)
    destruct (get_expectation_value td ids s) as [o|] eqn:E; simpl in Hperform; [|done].
    destruct (get_expectation_value_frame _ _ _ _ E)
      as (e & s1 & -> & Hvec & _ & HN1 & _).
    injection Hperform as <-. by rewrite Hvec, HN1, <- (run_N s).
  - (* apply_qubit_operator *)
    destruct (apply_qubit_operator td ids s) as [o|] eqn:E; simpl in Hperform; [|done].
    destruct (apply_qubit_operator_state _ _ _ _ E)
      as (s1 & -> & Hlen & _ & HN1 & _).
    injection Hperform as <-. unfold vsize in *. by rewrite Hlen, HN1.
  - (* get_probability *)
    unfold get_probability in Hperform. destruct (negb _); [done|].
    destruct (lookup_positions _ _) as [m positions].
    destruct (mask_val _ _) as [mask val]. by injection Hperform as <-.
  - (* get_amplitude *)
    unfold get_amplitude in Hperform. destruct (amplitude_index _ _ _ _ _ _).
    destruct (decide _); [done|]. by injection Hperform as <-.
  - (* emulate_time_evolution *)
    destruct (emulate_time_evolution fuel tdict time ids ctrl s) as [o|] eqn:E;
      simpl in Hperform; [|done].
    destruct (emulate_time_evolution_frame _ _ _ _ _ _ _ E)
      as (s1 & -> & HN1 & _ & Hlen).
    injection Hperform as <-. unfold vsize in *. by rewrite Hlen, HN1.
  - (* set_wavefunction *)
    unfold set_wavefunction in Hperform.
    destruct (decide _); [done|]. destruct (_ || _); [done|].
    injection Hperform as <-. simpl. unfold vsize, for_each_index in *.
    rewrite (foldl_vset_length _ (λ i, i) (λ i, amp wavefunction i)) by done.
    done.
  - (* collapse_wavefunction *)
    apply collapse_wavefunction_size in Hperform as [-> Hlen].
    unfold vsize in *. by rewrite Hlen.
  - (* run *)
    by injection Hperform as <-.
  - (* cheat *)
    by injection Hperform as <-.
Qed.
End OperationFacts.

(** * The theorems at work on concrete engines *)

Section Concrete.
#[local] Existing Instance Binary64.
#[local] Existing Instance GateList.
#[local] Existing Instance DoubleOps.

Lemma one_qubit_positions :
  ∀ id p, map_ one_qubit !! id = Some p → 0 ≤ p < N_ one_qubit.
Proof.
  intros id p Hp. simpl in *. apply lookup_singleton_Some in Hp as [_ <-]. lia.
Qed.

Lemma two_qubits_bijection : map_bijection (map_ two_qubits) (N_ two_qubits).
Proof.
  simpl. split_and!.
  - intros id p Hp. apply lookup_insert_Some in Hp as [[_ <-]|[_ Hp]]; [lia|].
    apply lookup_singleton_Some in Hp as [_ <-]. lia.
  - intros id1 id2 p H1 H2.
    apply lookup_insert_Some in H1 as [[<- <-]|[_ H1]];
      apply lookup_insert_Some in H2 as [[<- E]|[_ H2]]; try done.
    + apply lookup_singleton_Some in H2 as [_ E]. lia.
    + apply lookup_singleton_Some in H1 as [_ E1]. lia.
    + apply lookup_singleton_Some in H1 as [<- _].
      by apply lookup_singleton_Some in H2 as [<- _].
  - intros p Hp. assert (p = 0 ∨ p = 1) as [-> | ->] by lia; [by exists 0|by exists 1].
Qed.

Lemma one_qubit_bijection : map_bijection (map_ one_qubit) (N_ one_qubit).
Proof.
  simpl. split_and!.
  - apply one_qubit_positions.
  - intros id1 id2 p H1 H2. apply lookup_singleton_Some in H1 as [<- _].
    by apply lookup_singleton_Some in H2 as [<- _].
  - intros p Hp. assert (p = 0) as -> by lia. by exists 0.
Qed.

(** Allocating id 1 on the one-qubit engine gives the two-qubit engine. *)
Lemma allocate_qubit_spec_witness :
  0 ≤ N_ one_qubit < 63
  ∧ vsize (vec_ one_qubit) = 2 ^ N_ one_qubit
  ∧ allocate_qubit 1 one_qubit = Returns () two_qubits.
Proof.
  assert (HN : 0 ≤ N_ one_qubit < 63) by (simpl; lia).
  assert (Hsize : vsize (vec_ one_qubit) = 2 ^ N_ one_qubit) by reflexivity.
  split; [exact HN|]. split; [exact Hsize|].
  exact (proj1 (allocate_qubit_spec 1 one_qubit HN Hsize)).
Defined.

(** A draw of exactly 0 on the state |0> reports the outcome 1. *)
Lemma measure_qubits_zero_draw_witness :
  (∀ id p, map_ one_qubit !! id = Some p → 0 ≤ p < 64)
  ∧ returned (measure_qubits [0] calc_zero one_qubit) = Some [true].
Proof.
  assert (Hrange : ∀ id p, map_ one_qubit !! id = Some p → 0 ≤ p < 64).
  { intros id p Hp. apply one_qubit_positions in Hp. simpl in Hp. lia. }
  split; [exact Hrange|].
  exact (proj2 (proj2 (measure_qubits_zero_draw [0] one_qubit Hrange))).
Defined.

(** A draw of 0.5 on the state |0> selects index 0 and reports 0. *)
Lemma measure_qubits_spec_witness :
  calc_ltb calc_zero (f64 0.5) = true
  ∧ 0 < vsize (vec_ one_qubit) < 2 ^ 64
  ∧ measure_qubits [0] (f64 0.5) one_qubit = measurement_result 0 [0] one_qubit.
Proof.
  assert (Hrnd : calc_ltb calc_zero (f64 0.5) = true) by reflexivity.
  assert (Hsize : 0 < vsize (vec_ one_qubit) < 2 ^ 64) by (vm_compute; done).
  split; [exact Hrnd|]. split; [exact Hsize|].
  destruct (measure_qubits_spec [0] (f64 0.5) one_qubit Hrnd Hsize)
    as (pick & Hlt & Hbelow & _ & Heq).
  destruct pick as [|pick]; [exact Heq|].
  specialize (Hbelow 0%nat ltac:(lia)). vm_compute in Hbelow. discriminate.
Defined.

(** Collapsing onto 1 with an X gate pending keeps the flushed |1>. *)
Lemma collapse_vector_no_shrink_witness :
  0 ≤ N_ one_qubit_pending_x < 64
  ∧ vsize (vec_ one_qubit_pending_x) = 2 ^ N_ one_qubit_pending_x
  ∧ map_ one_qubit_pending_x !! 0 = Some 0
  ∧ collapse_vector 0 true false one_qubit_pending_x
    = Returns () (set_vec (run one_qubit_pending_x)
                    (kept 0 true (vec_ (run one_qubit_pending_x)))).
Proof.
  assert (HN : 0 ≤ N_ one_qubit_pending_x < 64) by (simpl; lia).
  assert (Hsize : vsize (vec_ one_qubit_pending_x) = 2 ^ N_ one_qubit_pending_x)
    by reflexivity.
  assert (Hid : map_ one_qubit_pending_x !! 0 = Some 0) by reflexivity.
  assert (Hpos : 0 ≤ 0 < N_ one_qubit_pending_x) by (simpl; lia).
  split; [exact HN|]. split; [exact Hsize|]. split; [exact Hid|].
  exact (proj1 (collapse_vector_no_shrink 0 0 true one_qubit_pending_x HN Hsize Hid Hpos)).
Defined.

(** Deallocating the qubit of the state |0> leaves the empty register. *)
Lemma deallocate_qubit_spec_witness :
  0 ≤ N_ one_qubit < 64
  ∧ vsize (vec_ one_qubit) = 2 ^ N_ one_qubit
  ∧ (∀ id p, map_ one_qubit !! id = Some p → 0 ≤ p < N_ one_qubit)
  ∧ thrown (deallocate_qubit 0 one_qubit) = None
  ∧ vsize (vec_ (final_state (deallocate_qubit 0 one_qubit))) = 1.
Proof.
  assert (HN : 0 ≤ N_ one_qubit < 64) by (simpl; lia).
  assert (Hsize : vsize (vec_ one_qubit) = 2 ^ N_ one_qubit) by reflexivity.
  split; [exact HN|]. split; [exact Hsize|]. split; [exact one_qubit_positions|].
  pose proof (deallocate_qubit_spec 0 one_qubit HN Hsize one_qubit_positions) as Hspec.
  change (map_ one_qubit !! 0) with (Some 0) in Hspec.
  destruct Hspec as [_ Hret].
  destruct (Hret false) as (Heq & Hhalf & _).
  - exists 0. split_and!; try reflexivity; by vm_compute.
  - intros (k & Hk & Hb & Hm). change (vsize (vec_ (run one_qubit))) with 2 in Hk.
    assert (k = 0 ∨ k = 1) as [-> | ->] by lia; vm_compute in Hb, Hm; discriminate.
  - rewrite Heq. split; reflexivity.
Defined.

(** Both ids in order, on the two-qubit engine, read the amplitude of |00>. *)
Lemma get_amplitude_spec_witness :
  0 ≤ N_ two_qubits < 64
  ∧ vsize (vec_ two_qubits) = 2 ^ N_ two_qubits
  ∧ map_bijection (map_ two_qubits) (N_ two_qubits)
  ∧ NoDup [0; 1]
  ∧ returned (get_amplitude [false; false] [0; 1] two_qubits) = Some (c64 1).
Proof.
  assert (HN : 0 ≤ N_ two_qubits < 64) by (simpl; lia).
  assert (Hsize : vsize (vec_ two_qubits) = 2 ^ N_ two_qubits) by reflexivity.
  assert (Hnodup : NoDup [0; 1]).
  { apply NoDup_cons. split; [|apply NoDup_singleton].
    intros Hin. by apply list_elem_of_singleton in Hin. }
  assert (Hmapped : Forall (λ id, is_Some (map_ two_qubits !! id)) [0; 1])
    by (repeat constructor; by eexists).
  split; [exact HN|]. split; [exact Hsize|]. split; [exact two_qubits_bijection|].
  split; [exact Hnodup|].
  destruct (get_amplitude_spec [false; false] [0; 1] two_qubits HN Hsize
              two_qubits_bijection Hnodup Hmapped (le_n 2)) as (_ & _ & Hret & _).
  rewrite Hret; reflexivity.
Defined.

(** Allocation takes the one-qubit engine, which satisfies the invariant,
    to the two-qubit engine, which satisfies it too. *)
Lemma map_invariant_preserved_witness :
  map_invariant one_qubit
  ∧ caller_obligation (AllocateQubit 1) one_qubit
  ∧ perform (AllocateQubit 1) one_qubit = Some two_qubits
  ∧ map_invariant two_qubits.
Proof.
  assert (Hinv : map_invariant one_qubit)
    by (split; [simpl; lia|exact one_qubit_bijection]).
  assert (Hcall : caller_obligation (AllocateQubit 1) one_qubit) by (simpl; lia).
  assert (Hdone : perform (AllocateQubit 1) one_qubit = Some two_qubits) by reflexivity.
  split; [exact Hinv|]. split; [exact Hcall|]. split; [exact Hdone|].
  exact (map_invariant_preserved (AllocateQubit 1) one_qubit two_qubits Hinv Hcall Hdone).
Defined.

(** *** Where the spec and the code part ways *)

Ltac floats_differ E :=
  apply (f_equal (λ v : StateVector, calc_ltb calc_zero (real (amp v 0)))) in E;
  vm_compute in E; discriminate E.

(** C1 as stated fails.  On an equal superposition whose rounded squared
    norms add up to 1 - 2^-52, the draw 1 - 2^-53 is reached by no
    cumulative sum, so there is no index for the spec to select, yet
    [measure_qubits] returns.  And at the draw 0 the spec selects index 0
    where the code decodes the wrapped index. *)
Lemma measure_qubits_spec_counterexample :
  ¬ (∃ pick : nat,
       calc_ltb (running_sum (vec_ (run one_qubit_plus)) (S pick)) almost_one = false
       ∧ measure_qubits [0] almost_one one_qubit_plus
         = measurement_result (Z.of_nat pick) [0] (run one_qubit_plus))
  ∧ ¬ (measure_qubits [0] calc_zero one_qubit
       = measurement_result 0 [0] (run one_qubit)).
Proof.
  split.
  - intros (pick & Hreached & _).
    destruct pick as [|[|pick]]; vm_compute in Hreached; discriminate.
  - intros E. apply (f_equal returned) in E. vm_compute in E. discriminate.
Qed.

(** C3 as stated fails.  With one single-target gate pending and bounds 4
    and 5, a two-target gate brings the buffer to three targets: the gate
    has, and adds, more targets than the buffer held, but the code commits
    the grown buffer and flushes nothing. *)
Lemma apply_controlled_gate_spec_counterexample :
  ¬ (¬ (fusion_qubits_min_ three_qubits_one_pending
          ≤ fusion_num_qubits
              (fusion_insert swap_gate [1; 2] [] (fused_gates_ three_qubits_one_pending))
          ≤ fusion_qubits_max_ three_qubits_one_pending) →
     fusion_num_qubits (fused_gates_ three_qubits_one_pending)
       < fusion_num_qubits
           (fusion_insert swap_gate [1; 2] [] (fused_gates_ three_qubits_one_pending))
         - fusion_num_qubits (fused_gates_ three_qubits_one_pending)
     ∧ fusion_num_qubits (fused_gates_ three_qubits_one_pending)
       < Z.of_nat (length [1; 2]) →
     apply_controlled_gate swap_gate [1; 2] [] three_qubits_one_pending
     = Returns ()
         (set_fused (run three_qubits_one_pending)
            (fusion_insert swap_gate [1; 2] [] fusion_new))).
Proof.
  intros Hclaim.
  assert (E : apply_controlled_gate swap_gate [1; 2] [] three_qubits_one_pending
              = Returns ()
                  (set_fused (run three_qubits_one_pending)
                     (fusion_insert swap_gate [1; 2] [] fusion_new))).
  { apply Hclaim; [intros [Hle _]; vm_compute in Hle; by apply Hle|].
    split; by vm_compute. }
  apply (f_equal (λ o, fusion_num_qubits (fused_gates_ (final_state o)))) in E.
  vm_compute in E. discriminate.
Qed.

(** C5 as stated fails.  With an X gate pending, a call with mismatched
    lengths throws, but only after the flush has turned |0> into |1>. *)
Lemma collapse_wavefunction_spec_counterexample :
  ¬ (is_Some (thrown (collapse_wavefunction [0] [] one_qubit_pending_x)) →
     vec_ (final_state (collapse_wavefunction [0] [] one_qubit_pending_x))
     = vec_ one_qubit_pending_x).
Proof.
  intros Hclaim. specialize (Hclaim ltac:(by eexists)). floats_differ Hclaim.
Qed.

(** C6 as stated fails.  With an X gate pending, [get_amplitude] leaves a
    vector other than the one it found. *)
Lemma get_amplitude_spec_counterexample :
  ¬ (vec_ (final_state (get_amplitude [true] [0] one_qubit_pending_x))
     = vec_ one_qubit_pending_x).
Proof. intros Hclaim. floats_differ Hclaim. Qed.

(** The check of [get_amplitude] also lets through a list that is not a
    permutation of the allocated ids: an unmapped id after a full list,
    or a repeated id. *)
Lemma get_amplitude_accepts_non_permutations :
  thrown (get_amplitude [false; false; true] [0; 1; 99] two_qubits) = None
  ∧ thrown (get_amplitude [false; false; true] [0; 0; 1] two_qubits) = None.
Proof. split; reflexivity. Qed.

(** C7 as stated fails.  A qubit none of whose halves has mass is not
    "above tolerance on both halves", yet [deallocate_qubit] throws. *)
Lemma deallocate_qubit_spec_counterexample :
  ¬ (¬ (half_has_mass default_tol_ (vec_ one_qubit_no_mass) 0 false
        ∧ half_has_mass default_tol_ (vec_ one_qubit_no_mass) 0 true) →
     thrown (deallocate_qubit 0 one_qubit_no_mass) = None).
Proof.
  intros Hclaim.
  assert (E : thrown (deallocate_qubit 0 one_qubit_no_mass) = None).
  { apply Hclaim. intros [(k & Hk & _ & Hm) _].
    change (vsize (vec_ one_qubit_no_mass)) with 2 in Hk.
    assert (k = 0 ∨ k = 1) as [-> | ->] by lia; vm_compute in Hm; discriminate. }
  vm_compute in E. discriminate.
Qed.

(** C8 as stated fails.  [measure_qubits] on an id that was never
    allocated returns, and leaves that id in the map at position 0, which
    id 0 already holds. *)
Lemma map_invariant_preserved_counterexample :
  ¬ (∀ s', map_invariant one_qubit →
           perform (MeasureQubits [7] (f64 0.5)) one_qubit = Some s' →
           map_invariant s').
Proof.
  intros Hclaim.
  specialize (Hclaim (final_state (measure_qubits [7] (f64 0.5) one_qubit))).
  destruct Hclaim as [_ (_ & Hinj & _)].
  - split; [simpl; lia|exact one_qubit_bijection].
  - reflexivity.
  - specialize (Hinj 0 7 0 eq_refl eq_refl). discriminate.
Qed.

(** C9 as stated fails.  With an X gate pending, the kept amplitude at
    index 1 was 0 when [collapse_vector] was called and is 1 afterwards. *)
Lemma collapse_vector_no_shrink_counterexample :
  ¬ (∀ (k : nat) a,
       Z.testbit (Z.of_nat k) 0 = true →
       vec_ one_qubit_pending_x !! k = Some a →
       vec_ (final_state (collapse_vector 0 true false one_qubit_pending_x)) !! k
       = Some a).
Proof.
  intros Hclaim. specialize (Hclaim 1%nat (c64 0) eq_refl eq_refl).
  apply (f_equal (λ o, calc_ltb calc_zero (real (default czero o)))) in Hclaim.
  vm_compute in Hclaim. discriminate.
Qed.

(** C4: the code at an ordering that repeats id 0 and omits id 1.  The
    call returns, both ids end up at position 1, and the map is no longer a
    bijection. *)
Lemma set_wavefunction_accepts_repeated_id :
  thrown (set_wavefunction basis_11 [0; 0] two_qubits) = None
  ∧ map_ (final_state (set_wavefunction basis_11 [0; 0] two_qubits)) !! 0 = Some 1
  ∧ map_ (final_state (set_wavefunction basis_11 [0; 0] two_qubits)) !! 1 = Some 1
  ∧ ¬ map_bijection (map_ (final_state (set_wavefunction basis_11 [0; 0] two_qubits)))
        (N_ (final_state (set_wavefunction basis_11 [0; 0] two_qubits))).
Proof.
  split_and!; [reflexivity..|].
  intros (_ & Hinj & _). specialize (Hinj 0 1 1 eq_refl eq_refl). discriminate.
Qed.
End Concrete.

(** * The further properties at work on concrete engines *)

Section ConcreteCoverage.
#[local] Existing Instance Binary64.
#[local] Existing Instance GateList.
#[local] Existing Instance DoubleOps.

Lemma two_qubits_positions :
  ∀ id p, map_ two_qubits !! id = Some p → 0 ≤ p < N_ two_qubits.
Proof. apply two_qubits_bijection. Qed.

Lemma no_dup_pair (x y : Z) : x ≠ y → NoDup [x; y].
Proof.
  intros Hne. apply NoDup_cons. split; [|apply NoDup_singleton].
  intros Hin. by apply list_elem_of_singleton in Hin.
Qed.

Lemma two_threads_covers : covers two_threads 4.
Proof. exact (Permutation_app_comm [2; 3] [0; 1]). Qed.

(** On |01>, with the loop on two threads and the second thread's sum taken
    first, the probability of reading 1 on qubit 0 is made of the squared
    magnitudes at the indices 1 and 3. *)
Lemma get_probability_spec_witness :
  length [true] = length [0]
  ∧ covers two_threads (vsize (vec_ (run basis_01)))
  ∧ ∃ p, get_probability_parallel two_threads [true] [0] basis_01
         = Returns p (run basis_01)
         ∧ added_up (norm <$> matching 1 1 (vec_ (run basis_01))) p.
Proof.
  assert (Hlen : length [true] = length [0]) by reflexivity.
  assert (Hcovers : covers two_threads (vsize (vec_ (run basis_01))))
    by exact two_threads_covers.
  assert (Hmapped : Forall (λ id, is_Some (map_ basis_01 !! id)) [0])
    by (repeat constructor; by eexists).
  split; [exact Hlen|]. split; [exact Hcovers|].
  exact (proj1 (get_probability_spec two_threads [true] [0] basis_01 Hlen Hcovers)
           Hmapped).
Defined.

(** On |01>, on two threads, a query without ids adds up all four squared
    magnitudes. *)
Lemma get_probability_no_ids_witness :
  covers two_threads (vsize (vec_ (run basis_01)))
  ∧ ∃ p, get_probability_parallel two_threads [] [] basis_01
         = Returns p (run basis_01)
         ∧ added_up (norm <$> vec_ (run basis_01)) p.
Proof.
  assert (Hcovers : covers two_threads (vsize (vec_ (run basis_01))))
    by exact two_threads_covers.
  split; [exact Hcovers|].
  exact (get_probability_no_ids two_threads [] basis_01 Hcovers).
Defined.

(** On |00> the outcome 1 of qubit 1 has probability 0 under the schedule
    of both loops, so collapsing onto it is refused. *)
Lemma collapse_wavefunction_probability_witness :
  length [1] = length [true]
  ∧ covers two_threads (vsize (vec_ (run two_qubits)))
  ∧ collapse_wavefunction_parallel two_threads [1] [true] two_qubits
    = Throws (runtime_error
        "collapse_wavefunction(): Invalid collapse! Probability is ~0.") two_qubits.
Proof.
  assert (Hlen : length [1] = length [true]) by reflexivity.
  assert (Hcovers : covers two_threads (vsize (vec_ (run two_qubits))))
    by exact two_threads_covers.
  split; [exact Hlen|]. split; [exact Hcovers|].
  pose proof (collapse_wavefunction_probability two_threads two_threads [1] [true]
                two_qubits Hlen Hcovers Hcovers) as Hboth.
  cbv zeta in Hboth.
  change (get_probability_parallel two_threads [true] [1] two_qubits)
    with (Returns (f64 0) two_qubits) in Hboth.
  destruct Hboth as (P & _ & _ & Hsame & Hcollapse).
  rewrite (Hsame eq_refl) in Hcollapse. exact Hcollapse.
Defined.

(** The qubit of |0> is classical. *)
Lemma is_classical_spec_witness :
  0 ≤ N_ one_qubit < 64
  ∧ vsize (vec_ one_qubit) = 2 ^ N_ one_qubit
  ∧ map_ one_qubit !! 0 = Some 0
  ∧ returned (is_classical 0 default_tol_ one_qubit) = Some true.
Proof.
  assert (HN : 0 ≤ N_ one_qubit < 64) by (simpl; lia).
  assert (Hsize : vsize (vec_ one_qubit) = 2 ^ N_ one_qubit) by reflexivity.
  assert (Hid : map_ one_qubit !! 0 = Some 0) by reflexivity.
  assert (Hpos : 0 ≤ 0 < N_ one_qubit) by (simpl; lia).
  split; [exact HN|]. split; [exact Hsize|]. split; [exact Hid|].
  destruct (is_classical_spec 0 0 default_tol_ one_qubit HN Hsize Hid Hpos)
    as (b & E & Hb).
  rewrite E. simpl. f_equal. apply Hb. split.
  - intros _ (k & Hk & Hbit & Hm). change (vsize (vec_ (run one_qubit))) with 2 in Hk.
    assert (k = 0 ∨ k = 1) as [-> | ->] by lia; vm_compute in Hbit, Hm; discriminate.
  - intros _. exists 0. split_and!; try reflexivity; by vm_compute.
Defined.

(** The qubit of |0> reads as 0. *)
Lemma get_classical_value_spec_witness :
  0 ≤ N_ one_qubit < 64
  ∧ vsize (vec_ one_qubit) = 2 ^ N_ one_qubit
  ∧ map_ one_qubit !! 0 = Some 0
  ∧ get_classical_value 0 default_tol_ one_qubit = Returns false one_qubit.
Proof.
  assert (HN : 0 ≤ N_ one_qubit < 64) by (simpl; lia).
  assert (Hsize : vsize (vec_ one_qubit) = 2 ^ N_ one_qubit) by reflexivity.
  assert (Hid : map_ one_qubit !! 0 = Some 0) by reflexivity.
  assert (Hpos : 0 ≤ 0 < N_ one_qubit) by (simpl; lia).
  split; [exact HN|]. split; [exact Hsize|]. split; [exact Hid|].
  destruct (get_classical_value_spec 0 0 default_tol_ one_qubit HN Hsize Hid Hpos)
    as (_ & _ & Hone & _).
  apply (Hone false).
  - exists 0. split_and!; try reflexivity; by vm_compute.
  - intros (k & Hk & Hbit & Hm). change (vsize (vec_ (run one_qubit))) with 2 in Hk.
    assert (k = 0 ∨ k = 1) as [-> | ->] by lia; vm_compute in Hbit, Hm; discriminate.
Defined.

(** Asking whether the unknown id 7 is classical answers for qubit 0 and
    leaves 7 in the map. *)
Lemma unmapped_id_reads_position_zero_witness :
  map_ one_qubit !! 7 = None
  ∧ map_ one_qubit !! 0 = Some 0
  ∧ returned (is_classical 7 default_tol_ one_qubit)
    = returned (is_classical 0 default_tol_ one_qubit)
  ∧ map_ (final_state (is_classical 7 default_tol_ one_qubit)) !! 7 = Some 0.
Proof.
  assert (Hid : map_ one_qubit !! 7 = None) by reflexivity.
  assert (Hid0 : map_ one_qubit !! 0 = Some 0) by reflexivity.
  split; [exact Hid|]. split; [exact Hid0|].
  destruct (unmapped_id_reads_position_zero 7 0 default_tol_ one_qubit Hid Hid0)
    as (Hsame & _ & Hstate & _).
  split; [exact Hsame|]. rewrite Hstate. reflexivity.
Defined.

(** Removing qubit 1 of |00> leaves one qubit. *)
Lemma collapse_vector_shrink_spec_witness :
  0 ≤ N_ two_qubits < 64
  ∧ vsize (vec_ two_qubits) = 2 ^ N_ two_qubits
  ∧ map_bijection (map_ two_qubits) (N_ two_qubits)
  ∧ map_ two_qubits !! 1 = Some 1
  ∧ ∃ s', collapse_vector 1 false true two_qubits = Returns () s'
          ∧ N_ s' = 1 ∧ vsize (vec_ s') = 2 ∧ map_ s' !! 1 = None.
Proof.
  assert (HN : 0 ≤ N_ two_qubits < 64) by (simpl; lia).
  assert (Hsize : vsize (vec_ two_qubits) = 2 ^ N_ two_qubits) by reflexivity.
  assert (Hid : map_ two_qubits !! 1 = Some 1) by reflexivity.
  split; [exact HN|]. split; [exact Hsize|]. split; [exact two_qubits_bijection|].
  split; [exact Hid|].
  destruct (collapse_vector_shrink_spec 1 1 false two_qubits HN Hsize
              two_qubits_bijection Hid) as (s' & E & HN' & Hsize' & _ & Hgone & _).
  exists s'. split_and!; [exact E|exact HN'|exact Hsize'|exact Hgone].
Defined.

(** Allocating id 1 on |0> and deallocating it again gives |0> back. *)
Lemma allocate_deallocate_round_trip_witness :
  0 ≤ N_ one_qubit < 63
  ∧ vsize (vec_ one_qubit) = 2 ^ N_ one_qubit
  ∧ map_ one_qubit !! 1 = None
  ∧ fusion_is_empty (fused_gates_ one_qubit) = true
  ∧ calc_ltb default_tol_ (norm czero) = false
  ∧ ∃ s1, allocate_qubit 1 one_qubit = Returns () s1
          ∧ deallocate_qubit 1 s1 = Returns () one_qubit.
Proof.
  assert (HN : 0 ≤ N_ one_qubit < 63) by (simpl; lia).
  assert (Hsize : vsize (vec_ one_qubit) = 2 ^ N_ one_qubit) by reflexivity.
  assert (Hid : map_ one_qubit !! 1 = None) by reflexivity.
  assert (Hempty : fusion_is_empty (fused_gates_ one_qubit) = true) by reflexivity.
  assert (Hzero : calc_ltb default_tol_ (norm czero) = false) by reflexivity.
  assert (Hmass : ∃ k, 0 ≤ k < vsize (vec_ one_qubit)
                       ∧ calc_ltb default_tol_ (norm (amp (vec_ one_qubit) k)) = true)
    by (exists 0; split; [by vm_compute|reflexivity]).
  split; [exact HN|]. split; [exact Hsize|]. split; [exact Hid|].
  split; [exact Hempty|]. split; [exact Hzero|].
  destruct (allocate_deallocate_round_trip 1 one_qubit HN Hsize one_qubit_positions
              Hid Hempty Hzero Hmass) as (s1 & Ha & _ & Hd).
  exists s1. split; [exact Ha|exact Hd].
Defined.

(** Allocation takes the two entries of |0> to the four entries of |00>. *)
Lemma vector_size_preserved_witness :
  map_invariant one_qubit
  ∧ vsize (vec_ one_qubit) = 2 ^ N_ one_qubit
  ∧ N_ one_qubit < 63
  ∧ caller_obligation (AllocateQubit 1) one_qubit
  ∧ perform (AllocateQubit 1) one_qubit = Some two_qubits
  ∧ vsize (vec_ two_qubits) = 2 ^ N_ two_qubits.
Proof.
  assert (Hinv : map_invariant one_qubit)
    by (split; [simpl; lia|exact one_qubit_bijection]).
  assert (Hsize : vsize (vec_ one_qubit) = 2 ^ N_ one_qubit) by reflexivity.
  assert (HN : N_ one_qubit < 63) by (simpl; lia).
  assert (Hcall : caller_obligation (AllocateQubit 1) one_qubit) by (simpl; lia).
  assert (Hdone : perform (AllocateQubit 1) one_qubit = Some two_qubits) by reflexivity.
  split; [exact Hinv|]. split; [exact Hsize|]. split; [exact HN|].
  split; [exact Hcall|]. split; [exact Hdone|].
  exact (vector_size_preserved (AllocateQubit 1) one_qubit two_qubits
           Hinv Hsize HN Hcall Hdone).
Defined.

(** Installing |01> with the ids in reverse order, then asking for the
    amplitude of "id 1 set, id 0 clear" over the same order, reads entry 1. *)
Lemma set_wavefunction_get_amplitude_witness :
  0 ≤ N_ two_qubits < 64
  ∧ vsize (vec_ two_qubits) = 2 ^ N_ two_qubits
  ∧ map_bijection (map_ two_qubits) (N_ two_qubits)
  ∧ NoDup [1; 0]
  ∧ length [true; false] = length [1; 0]
  ∧ thrown (set_wavefunction (vec_ basis_01) [1; 0] two_qubits) = None
  ∧ returned (get_amplitude [true; false] [1; 0]
                (final_state (set_wavefunction (vec_ basis_01) [1; 0] two_qubits)))
    = Some (c64 1).
Proof.
  assert (HN : 0 ≤ N_ two_qubits < 64) by (simpl; lia).
  assert (Hsize : vsize (vec_ two_qubits) = 2 ^ N_ two_qubits) by reflexivity.
  assert (Hnodup : NoDup [1; 0]) by (by apply no_dup_pair).
  assert (Hlen : length [true; false] = length [1; 0]) by reflexivity.
  assert (Hset : set_wavefunction (vec_ basis_01) [1; 0] two_qubits
                 = Returns () (final_state
                                 (set_wavefunction (vec_ basis_01) [1; 0] two_qubits)))
    by reflexivity.
  split; [exact HN|]. split; [exact Hsize|]. split; [exact two_qubits_bijection|].
  split; [exact Hnodup|]. split; [exact Hlen|]. split; [reflexivity|].
  rewrite (set_wavefunction_get_amplitude (vec_ basis_01) [1; 0] [true; false]
             two_qubits _ HN Hsize two_qubits_bijection Hnodup Hlen Hset).
  reflexivity.
Defined.

(** Installing |01> with the ids in reverse order, then cheating, shows
    that wavefunction and id 1 at position 0. *)
Lemma set_wavefunction_cheat_witness :
  0 ≤ N_ two_qubits < 64
  ∧ vsize (vec_ two_qubits) = 2 ^ N_ two_qubits
  ∧ map_bijection (map_ two_qubits) (N_ two_qubits)
  ∧ NoDup [1; 0]
  ∧ ∃ m, returned (cheat (final_state
                            (set_wavefunction (vec_ basis_01) [1; 0] two_qubits)))
         = Some (m, vec_ basis_01)
         ∧ m !! 1 = Some 0.
Proof.
  assert (HN : 0 ≤ N_ two_qubits < 64) by (simpl; lia).
  assert (Hsize : vsize (vec_ two_qubits) = 2 ^ N_ two_qubits) by reflexivity.
  assert (Hnodup : NoDup [1; 0]) by (by apply no_dup_pair).
  assert (Hset : set_wavefunction (vec_ basis_01) [1; 0] two_qubits
                 = Returns () (final_state
                                 (set_wavefunction (vec_ basis_01) [1; 0] two_qubits)))
    by reflexivity.
  split; [exact HN|]. split; [exact Hsize|]. split; [exact two_qubits_bijection|].
  split; [exact Hnodup|].
  destruct (set_wavefunction_cheat (vec_ basis_01) [1; 0] two_qubits _
              HN Hsize two_qubits_bijection Hnodup Hset) as (m & E & Hm & _).
  exists m. rewrite E. split; [reflexivity|]. exact (Hm 0%nat 1 eq_refl).
Defined.

(** With qubit 1 as the only control, index 2 passes the control test. *)
Lemma get_control_mask_spec_witness :
  Forall (λ c, ∃ p, map_ two_qubits !! c = Some p ∧ 0 ≤ p < 64) [1]
  ∧ ∃ ctrlmask, get_control_mask [1] (map_ two_qubits) = (map_ two_qubits, ctrlmask)
                ∧ Z.testbit ctrlmask 1 = true
                ∧ Z.land ctrlmask 2 = ctrlmask.
Proof.
  assert (Hctrl : Forall (λ c, ∃ p, map_ two_qubits !! c = Some p ∧ 0 ≤ p < 64) [1]).
  { constructor; [|constructor]. exists 1. split; [reflexivity|lia]. }
  split; [exact Hctrl|].
  destruct (get_control_mask_spec [1] (map_ two_qubits) Hctrl)
    as (ctrlmask & E & Hbits & Hpass).
  exists ctrlmask. split_and!; [exact E| |].
  - apply Hbits; [lia|]. exists 1. split; [by left|reflexivity].
  - apply Hpass. constructor; [reflexivity|constructor].
Defined.


(** On a register at positions 0 and 1, bit 2 of an index never moves. *)
Lemma emulate_target_spec_witness :
  NoDup (concat [[0; 1]])
  ∧ Forall (Forall (λ q, 0 ≤ q < 64)) [[0; 1]]
  ∧ Forall (λ qureg : list Z, (length qureg ≤ 32)%nat) [[0; 1]]
  ∧ Z.testbit (emulate_target (fmap (λ x, to_int (x + 1))) [[0; 1]] 0 5) 2
    = Z.testbit 5 2.
Proof.
  assert (Hnodup : NoDup (concat [[0; 1]])) by (by apply no_dup_pair).
  assert (Hrange : Forall (Forall (λ q, 0 ≤ q < 64)) [[0; 1]])
    by (repeat constructor; lia).
  assert (Hwidth : Forall (λ qureg : list Z, (length qureg ≤ 32)%nat) [[0; 1]])
    by (repeat constructor; simpl; lia).
  split; [exact Hnodup|]. split; [exact Hrange|]. split; [exact Hwidth|].
  destruct (emulate_target_spec (fmap (λ x, to_int (x + 1))) [[0; 1]] 0 5
              Hnodup Hrange Hwidth) as [_ Hpass].
  destruct (Hpass eq_refl) as [_ Hother]. apply Hother.
  simpl. intros Hin. apply elem_of_cons in Hin as [Hin|Hin]; [lia|].
  apply list_elem_of_singleton in Hin. lia.
Defined.

(** The callback that returns its argument leaves |01> where it is. *)
Lemma emulate_math_fixed_registers_witness :
  (∀ res : list Z, length res = length res)
  ∧ Forall (λ qureg : list Z, (length qureg ≤ 32)%nat) [[0; 1]]
  ∧ vec_ (final_state (emulate_math (λ res, res) [[0; 1]] [] basis_01))
    = vec_ basis_01.
Proof.
  assert (Hf : ∀ res : list Z, length res = length res) by done.
  assert (Hbits : ∀ (res : list Z) (r : nat) (n : Z), 0 ≤ n < 32 →
            Z.testbit (default 0 (res !! r)) n = Z.testbit (default 0 (res !! r)) n)
    by done.
  assert (Hwidth : Forall (λ qureg : list Z, (length qureg ≤ 32)%nat) [[0; 1]])
    by (repeat constructor; simpl; lia).
  split; [exact Hf|]. split; [exact Hwidth|].
  rewrite (emulate_math_fixed_registers (λ res, res) [[0; 1]] [] basis_01
             Hf Hbits Hwidth).
  reflexivity.
Defined.

(** Adding 0 to the two-qubit register of |01> leaves |01>. *)
Lemma emulate_math_addConstant_zero_witness :
  Forall (λ qureg : list Z, (length qureg ≤ 32)%nat) [[0; 1]]
  ∧ vec_ (final_state (emulate_math_addConstant 0 [[0; 1]] [] basis_01))
    = vec_ basis_01.
Proof.
  assert (Hwidth : Forall (λ qureg : list Z, (length qureg ≤ 32)%nat) [[0; 1]])
    by (repeat constructor; simpl; lia).
  split; [exact Hwidth|].
  rewrite (emulate_math_addConstant_zero [[0; 1]] [] basis_01 Hwidth).
  reflexivity.
Defined.

(** The X matrix on the pair (0, 1) of |0> exchanges the two entries. *)
Lemma core_spec_witness :
  0 ≤ 0
  ∧ 0 < 1
  ∧ 0 + 1 < vsize (vec_ one_qubit)
  ∧ amp (core cadd cmul (vec_ one_qubit) 0 1 pauli_x) 1
    = cadd (cmul (c64 1) (c64 1)) (cmul (c64 0) (c64 0)).
Proof.
  assert (HI : 0 ≤ 0) by lia.
  assert (Hd : 0 < 1) by lia.
  assert (Hin : 0 + 1 < vsize (vec_ one_qubit)) by (by vm_compute).
  split; [exact HI|]. split; [exact Hd|]. split; [exact Hin|].
  exact (proj1 (proj2 (proj2 (core_spec cadd cmul (vec_ one_qubit) 0 1 pauli_x
                                HI Hd Hin)))).
Defined.

(** On |0>, the generic kernel and [kernel1::core] agree on the X gate. *)
Lemma apply_gate_is_kernel1_witness :
  0 ≤ default 0 (map_ one_qubit !! 0)
  ∧ 0 + 2 ^ default 0 (map_ one_qubit !! 0) < vsize (vec_ one_qubit)
  ∧ Z.testbit 0 (default 0 (map_ one_qubit !! 0)) = false
  ∧ amp (apply_gate (map_ one_qubit) (MkGate pauli_x [0] []) (vec_ one_qubit)) 1
    = amp (core cadd cmul (vec_ one_qubit) 0 1 pauli_x) 1.
Proof.
  assert (Hp : 0 ≤ default 0 (map_ one_qubit !! 0)) by (by vm_compute).
  assert (HI : 0 ≤ 0) by lia.
  assert (Hin : 0 + 2 ^ default 0 (map_ one_qubit !! 0) < vsize (vec_ one_qubit))
    by (by vm_compute).
  assert (Hbit : Z.testbit 0 (default 0 (map_ one_qubit !! 0)) = false) by reflexivity.
  split; [exact Hp|]. split; [exact Hin|]. split; [exact Hbit|].
  exact (proj2 (apply_gate_is_kernel1 (map_ one_qubit) (c64 0) (c64 1) (c64 1) (c64 0)
                  0 [] (vec_ one_qubit) 0 Hp HI Hin Hbit eq_refl)).
Defined.

(** An 8-byte pointer is reported as "08". *)
Lemma info_sizeof_dptr_digits_witness :
  0 ≤ 8 < 100
  ∧ ∃ tens units,
      info_sizeof_dptr 8 = chars "INFO:sizeof_dptr[" ++ [48 + tens; 48 + units; 93; 0]
      ∧ 10 * tens + units = 8.
Proof.
  assert (Hn : 0 ≤ 8 < 100) by lia.
  split; [exact Hn|].
  destruct (info_sizeof_dptr_digits 8 Hn) as (tens & units & E & _ & _ & Hvalue).
  exists tens, units. split; [exact E|exact Hvalue].
Defined.

(** The expectation value of Z on |1> is computed, and |1> is still there. *)
Lemma get_expectation_value_restores_witness :
  Forall (λ t : Term * calc_type, valid_term [0] t.1) [([(0, 90)], f64 1)]
  ∧ ∃ e s', get_expectation_value [([(0, 90)], f64 1)] [0] one_qubit_set
            = Some (Returns e s')
            ∧ vec_ s' = vec_ (run one_qubit_set).
Proof.
  assert (Hvalid : Forall (λ t : Term * calc_type, valid_term [0] t.1)
                          [([(0, 90)], f64 1)])
    by (repeat constructor; simpl; lia).
  split; [exact Hvalid|].
  destruct (get_expectation_value_restores [([(0, 90)], f64 1)] [0] one_qubit_set
              Hvalid) as (e & s' & E & Hvec & _).
  exists e, s'. split; [exact E|exact Hvec].
Defined.

(** Twice Y applied to |1> leaves a vector of two entries. *)
Lemma apply_qubit_operator_frame_witness :
  Forall (λ t : Term * complex_type, valid_term [0] t.1) [([(0, 89)], c64 2)]
  ∧ ∃ s', apply_qubit_operator [([(0, 89)], c64 2)] [0] one_qubit_set
          = Some (Returns () s')
          ∧ length (vec_ s') = length (vec_ one_qubit_set).
Proof.
  assert (Hvalid : Forall (λ t : Term * complex_type, valid_term [0] t.1)
                          [([(0, 89)], c64 2)])
    by (repeat constructor; simpl; lia).
  split; [exact Hvalid|].
  destruct (apply_qubit_operator_frame [([(0, 89)], c64 2)] [0] one_qubit_set Hvalid)
    as (s' & E & Hlen & _).
  exists s'. split; [exact E|exact Hlen].
Defined.

(** Evolving the equal superposition under Z for the time pi/4: five rounds
    of the Taylor series do not finish its one sub-step and the model has
    no result; forty do, and the engine is left with its two entries. *)
Lemma emulate_time_evolution_example :
  (λ o, vsize (vec_ (final_state o)))
    <$> emulate_time_evolution 5 [([(0, 90)], f64 1)] (f64 0x1.921fb54442d18p-1)
                               [0] [] one_qubit_plus
  = None
  ∧ (λ o, vsize (vec_ (final_state o)))
      <$> emulate_time_evolution 40 [([(0, 90)], f64 1)] (f64 0x1.921fb54442d18p-1)
                                 [0] [] one_qubit_plus
    = Some 2.
Proof. split; by vm_compute. Qed.

(** In IEEE arithmetic zero times anything is a zero or not a number. *)
Lemma zero_times (x : float) :
  PrimFloat.mul 0 x = 0%float ∨ PrimFloat.mul 0 x = PrimFloat.neg_zero
  ∨ PrimFloat.mul 0 x = PrimFloat.nan.
Proof.
  rewrite <- (FloatAxioms.SF2Prim_Prim2SF (PrimFloat.mul 0 x)), FloatAxioms.mul_spec.
  change (FloatOps.Prim2SF 0) with (SpecFloat.S754_zero false).
  destruct (FloatOps.Prim2SF x) as [[|]|[|]| |[|] m e]; simpl; auto.
Qed.

Lemma scaled_zero_has_no_mass :
  ∀ x : calc_type, calc_ltb default_tol_ (norm (cscale czero x)) = false.
Proof.
  intros x. unfold norm, cscale, czero. simpl.
  destruct (zero_times x) as [-> | [-> | ->]]; reflexivity.
Qed.

Lemma two_qubits_all_ids : permutation_of_allocated (map_ two_qubits) [0; 1].
Proof.
  split; [by apply no_dup_pair|]. intros id. simpl. split.
  - intros Hin. apply elem_of_cons in Hin as [-> | Hin]; [by eexists|].
    apply list_elem_of_singleton in Hin as ->. by eexists.
  - intros [p Hp]. apply lookup_insert_Some in Hp as [[<- _]|[_ Hp]]; [by left|].
    apply lookup_singleton_Some in Hp as [<- _]. right. by left.
Qed.

(** On |00> the probability of "00" is the squared magnitude of its amplitude. *)
Lemma probability_of_basis_state_witness :
  0 ≤ N_ two_qubits < 64
  ∧ vsize (vec_ two_qubits) = 2 ^ N_ two_qubits
  ∧ map_bijection (map_ two_qubits) (N_ two_qubits)
  ∧ permutation_of_allocated (map_ two_qubits) [0; 1]
  ∧ length [false; false] = length [0; 1]
  ∧ ∃ a, get_amplitude [false; false] [0; 1] two_qubits = Returns a two_qubits
         ∧ get_probability [false; false] [0; 1] two_qubits
           = Returns (calc_add calc_zero (norm a)) two_qubits.
Proof.
  assert (HN : 0 ≤ N_ two_qubits < 64) by (simpl; lia).
  assert (Hsize : vsize (vec_ two_qubits) = 2 ^ N_ two_qubits) by reflexivity.
  assert (Hlen : length [false; false] = length [0; 1]) by reflexivity.
  split; [exact HN|]. split; [exact Hsize|]. split; [exact two_qubits_bijection|].
  split; [exact two_qubits_all_ids|]. split; [exact Hlen|].
  exact (probability_of_basis_state [false; false] [0; 1] two_qubits HN Hsize
           two_qubits_bijection two_qubits_all_ids Hlen).
Defined.

(** After measuring the qubit of |0>, the half that was not observed is
    empty. *)
Lemma measured_qubit_is_classical_witness :
  0 ≤ N_ one_qubit < 64
  ∧ vsize (vec_ one_qubit) = 2 ^ N_ one_qubit
  ∧ map_ one_qubit !! 0 = Some 0
  ∧ (∀ x : calc_type, calc_ltb default_tol_ (norm (cscale czero x)) = false)
  ∧ ∃ (out : bool) (s' : Simulator),
      measure_qubits [0] (f64 0.5) one_qubit = Returns [out] s'
      ∧ ¬ half_has_mass default_tol_ (vec_ s') 0 (negb out).
Proof.
  assert (HN : 0 ≤ N_ one_qubit < 64) by (simpl; lia).
  assert (Hsize : vsize (vec_ one_qubit) = 2 ^ N_ one_qubit) by reflexivity.
  assert (Hid : map_ one_qubit !! 0 = Some 0) by reflexivity.
  split; [exact HN|]. split; [exact Hsize|]. split; [exact Hid|].
  split; [exact scaled_zero_has_no_mass|].
  destruct (measured_qubit_is_classical 0 0 (f64 0.5) one_qubit HN Hsize
              one_qubit_positions Hid scaled_zero_has_no_mass)
    as (out & s' & Hmeasure & Hother & _).
  exists out, s'. split; [exact Hmeasure|exact Hother].
Defined.
End ConcreteCoverage.
